(** * PyNvVideoCodec: seek engine, decoder cache and bounded decode pipeline

    A shallow embedding of
      - [utils/SPSCBuffer.hpp]   (the bounded single-producer/single-consumer channel),
      - [utils/DecoderCache.hpp] (the LRU cache of decoder instances),
      - [src/SeekUtils.cpp], [inc/SeekUtils.hpp] (the frame-index seeker),
      - [src/ThreadedDecoder.cpp] (the streaming decode loop),
    followed by the properties proved about them.

    Conventions.  A C++ integer of width w is a [Z] and every conversion or
    wrap-around the source performs is written out with the functions of
    module [CInt].  A [std::vector] is a [list]; indexing uses stdpp's
    lookup.  Objects with mutable state are records and a method is a
    function from the record to the new record and the returned value. *)

From Stdlib Require Import ZArith List Bool Lia String.
From stdpp Require Import base tactics option list gmap pretty.

Local Open Scope Z_scope.

(* ===================================================================== *)
(** * Definitions                                                         *)
(* ===================================================================== *)

(** ** C integer conversions *)
Module CInt.

(** [uint32_t]: values are reduced modulo 2^32. *)
Definition to_uint32 (x : Z) : Z := x mod 2 ^ 32.

(** [size_t] (64-bit): values are reduced modulo 2^64. *)
Definition to_size_t (x : Z) : Z := x mod 2 ^ 64.

(** [int], [int32_t]: two's complement on 32 bits. *)
Definition to_int32 (x : Z) : Z := (x + 2 ^ 31) mod 2 ^ 32 - 2 ^ 31.

End CInt.

(** ** SPSCBuffer.hpp *)
Module SPSC.
Import CInt.

(** What a call on the buffer does once it holds the mutex.
    [Returned s a]: the call ran to its [return] with value [a].
    [Waiting s]:    the predicate of [mCV.wait] is false; the caller sleeps
                    with the state untouched and re-evaluates the same
                    predicate when woken.
    [Thrown s msg]: the call left by [throw std::runtime_error(msg)]. *)
Inductive Outcome (S A : Type) : Type :=
| Returned (s : S) (a : A)
| Waiting (s : S)
| Thrown (s : S) (what : string).
Arguments Returned {S A} s a.
Arguments Waiting {S A} s.
Arguments Thrown {S A} s what.

Definition state_of {S A} (o : Outcome S A) : S :=
  match o with
  | Returned s _ => s
  | Waiting s => s
  | Thrown s _ => s
  end.

Section Buffer.
Context {T : Type}.
(** The value-initialised element [T()] that fills [mBuffer(size)]. *)
Variable T_default : T.

Record SPSCBuffer : Type := mkSPSCBuffer {
  mBuffer : list T;
  mHead : Z;       (* uint32_t, push index *)
  mTail : Z;       (* uint32_t, pop index *)
  mCapacity : Z;   (* const uint32_t *)
  mCount : Z;      (* uint32_t *)
  mDrain : bool
}.

(** [SPSCBuffer(size_t size)]: the vector gets [size] elements, the
    32-bit capacity gets [size] truncated. *)
Definition SPSCBuffer_new (size : Z) : SPSCBuffer :=
  {| mBuffer := replicate (Z.to_nat size) T_default;
     mHead := 0; mTail := 0;
     mCapacity := to_uint32 size;
     mCount := 0; mDrain := false |}.

(** [mBuffer[i]] for a read; an index past the end has no defined value
    in C++, the model reads [T_default] there. *)
Definition buffer_at (b : list T) (i : Z) : T :=
  default T_default (b !! Z.to_nat i).

Definition PushEntry (entry : T) (s : SPSCBuffer) : Outcome SPSCBuffer bool :=
  if mCount s <? mCapacity s then
    Returned
      {| mBuffer := <[Z.to_nat (mHead s) := entry]> (mBuffer s);
         mHead := to_uint32 (mHead s + 1) mod mCapacity s;
         mTail := mTail s;
         mCapacity := mCapacity s;
         mCount := to_uint32 (mCount s + 1);
         mDrain := mDrain s |}
      true
  else Waiting s.

Definition PushDone (s : SPSCBuffer) : SPSCBuffer :=
  {| mBuffer := mBuffer s; mHead := mHead s; mTail := mTail s;
     mCapacity := mCapacity s; mCount := mCount s; mDrain := true |}.

(** One turn of the loop [for (i = 0; i < batchSize; ++i)] of PopEntries. *)
Definition pop_one (s : SPSCBuffer) (entries : list T) : SPSCBuffer * list T :=
  ({| mBuffer := mBuffer s;
      mHead := mHead s;
      mTail := to_uint32 (mTail s + 1) mod mCapacity s;
      mCapacity := mCapacity s;
      mCount := to_uint32 (mCount s - 1);
      mDrain := mDrain s |},
   entries ++ [buffer_at (mBuffer s) (mTail s)]).

Fixpoint pop_loop (n : nat) (s : SPSCBuffer) (entries : list T)
  : SPSCBuffer * list T :=
  match n with
  | O => (s, entries)
  | S n' => let '(s', entries') := pop_one s entries in pop_loop n' s' entries'
  end.

Definition batchSize_message (batchSize capacity : Z) : string :=
  ("Got invalid value for batchSize. Got " ++ pretty batchSize
     ++ " Max allowed value is " ++ pretty capacity)%string.

Definition PopEntries (batchSize : Z) (s : SPSCBuffer)
  : Outcome SPSCBuffer (list T) :=
  if mCapacity s <? batchSize then
    Thrown s (batchSize_message batchSize (mCapacity s))
  else
    let batchSize1 := if batchSize =? 0 then mCount s else batchSize in
    if (batchSize1 <=? mCount s) || mDrain s then
      let batchSize2 :=
        if mDrain s && (mCount s <? batchSize1) then mCount s else batchSize1 in
      let '(s', entries) := pop_loop (Z.to_nat batchSize2) s [] in
      Returned s' entries
    else Waiting s.

Definition Clear (s : SPSCBuffer) : SPSCBuffer :=
  {| mBuffer := mBuffer s; mHead := 0; mTail := 0;
     mCapacity := mCapacity s; mCount := 0; mDrain := false |}.

(** The operations of the channel, and a sequence of them applied in
    order.  A call that waits or throws leaves the state as it found
    it. *)
Inductive Op : Type :=
| OpPush (entry : T)
| OpPushDone
| OpPop (batchSize : Z)
| OpClear.

Definition step (s : SPSCBuffer) (o : Op) : SPSCBuffer :=
  match o with
  | OpPush entry => state_of (PushEntry entry s)
  | OpPushDone => PushDone s
  | OpPop batchSize => state_of (PopEntries batchSize s)
  | OpClear => Clear s
  end.

Definition run (ops : list Op) (s : SPSCBuffer) : SPSCBuffer :=
  fold_left step ops s.

(** The buffered items, oldest first: the [mCount] slots from [mTail]
    on, wrapping at [mCapacity]. *)
Definition contents (s : SPSCBuffer) : list T :=
  map (fun i : nat => buffer_at (mBuffer s) ((mTail s + Z.of_nat i) mod mCapacity s))
      (seq 0 (Z.to_nat (mCount s))).

(** The state invariant of the channel. *)
Record Inv (s : SPSCBuffer) : Prop := mkInv {
  inv_count : 0 <= mCount s <= mCapacity s;
  inv_cap32 : mCapacity s < 2 ^ 32;
  inv_buffer : mCapacity s <= Z.of_nat (length (mBuffer s));
  inv_head : 0 <= mHead s /\ (0 < mCapacity s -> mHead s < mCapacity s);
  inv_tail : 0 <= mTail s /\ (0 < mCapacity s -> mTail s < mCapacity s);
  inv_ring : 0 < mCapacity s -> mHead s = (mTail s + mCount s) mod mCapacity s;
  inv_zero : mCapacity s = 0 -> mHead s = 0 /\ mTail s = 0
}.

End Buffer.

Arguments SPSCBuffer T : clear implicits.
Arguments Op T : clear implicits.
End SPSC.

(** ** DecoderCache.hpp *)
Module LRU.
Import CInt.

Section Cache.
Context {Key : Type} `{Countable Key} {Value : Type}.

(** [mCacheItems] is the recency list, most recently used first.
    [mCacheMap] maps a key to the iterator of its list node.  A node never
    changes its key and a [std::list] iterator stays valid across [splice],
    so the iterator stored under [key] designates the node whose first
    component is [key]: the map is represented by its set of keys, and
    dereferencing the iterator by [find_node]. *)
Record DecoderCache : Type := mkDecoderCache {
  mCapacity : Z;                       (* int *)
  mCacheItems : list (Key * Value);
  mCacheMap : gset Key
}.

(** [DecoderCache(uint32_t capacity = 4)]: the [int] member receives the
    converted argument, and 1 when the argument is below 1. *)
Definition DecoderCache_new (capacity : Z) : DecoderCache :=
  {| mCapacity := if capacity <? 1 then 1 else to_int32 capacity;
     mCacheItems := [];
     mCacheMap := ∅ |}.

(** [*it->second] for the iterator stored under [key]. *)
Fixpoint find_node (key : Key) (items : list (Key * Value)) : option (Key * Value) :=
  match items with
  | [] => None
  | kv :: rest => if decide (kv.1 = key) then Some kv else find_node key rest
  end.

(** The list without the node of [key] (the other nodes keep their order). *)
Fixpoint unlink_node (key : Key) (items : list (Key * Value)) : list (Key * Value) :=
  match items with
  | [] => []
  | kv :: rest => if decide (kv.1 = key) then rest else kv :: unlink_node key rest
  end.

Definition GetDecoder (key : Key) (c : DecoderCache) : option Value * DecoderCache :=
  if decide (key ∈ mCacheMap c) then
    match find_node key (mCacheItems c) with
    | Some kv =>
        (* splice(begin(), mCacheItems, it->second) *)
        (Some kv.2,
         {| mCapacity := mCapacity c;
            mCacheItems := kv :: unlink_node key (mCacheItems c);
            mCacheMap := mCacheMap c |})
    | None => (None, c)   (* an iterator to no node: excluded by [WF] *)
    end
  else (None, c).

Definition PushDecoder (key : Key) (value : Value) (c : DecoderCache)
  : option Value * DecoderCache :=
  if decide (key ∈ mCacheMap c) then
    match find_node key (mCacheItems c) with
    | Some kv =>
        (* it->second->second = value; splice to the front *)
        (None,
         {| mCapacity := mCapacity c;
            mCacheItems := (kv.1, value) :: unlink_node key (mCacheItems c);
            mCacheMap := mCacheMap c |})
    | None => (None, c)   (* an iterator to no node: excluded by [WF] *)
    end
  else
    let '(decoder, items1, map1) :=
      if Z.of_nat (length (mCacheItems c)) =? to_size_t (mCapacity c) then
        match last (mCacheItems c) with
        | Some lru =>
            (Some lru.2, removelast (mCacheItems c), mCacheMap c ∖ {[lru.1]})
        | None => (None, mCacheItems c, mCacheMap c)
            (* back() of an empty list: excluded, the capacity is at least 1 *)
        end
      else (None, mCacheItems c, mCacheMap c) in
    (decoder,
     {| mCapacity := mCapacity c;
        mCacheItems := (key, value) :: items1;
        mCacheMap := {[key]} ∪ map1 |}).

Definition RemoveElement (c : DecoderCache) : option Value * DecoderCache :=
  match last (mCacheItems c) with
  | None => (None, c)
  | Some lru =>
      (Some lru.2,
       {| mCapacity := mCapacity c;
          mCacheItems := removelast (mCacheItems c);
          mCacheMap := mCacheMap c ∖ {[lru.1]} |})
  end.

(** Well-formed caches: one node per key, the map indexes exactly the
    nodes of the list, and the capacity is the constructor's. *)
Record WF (c : DecoderCache) : Prop := mkWF {
  wf_nodup : NoDup (mCacheItems c).*1;
  wf_map : forall k, k ∈ mCacheMap c <-> k ∈ (mCacheItems c).*1;
  wf_capacity : 1 <= mCapacity c < 2 ^ 31;
  wf_size : Z.of_nat (length (mCacheItems c)) <= mCapacity c
}.

End Cache.

Arguments DecoderCache Key {_ _} Value.
End LRU.

(** ** The collaborators: demuxer and hardware decoder *)
Module Collab.
Import CInt.

(** Packet flags of nvcuvid.h (the header is not part of the sources). *)
Definition CUVID_PKT_ENDOFSTREAM : Z := 1.
Definition CUVID_PKT_TIMESTAMP : Z := 2.
Definition CUVID_PKT_DISCONTINUITY : Z := 4.

(** [DecodedFrame] (PyCAIMemoryView.hpp, not part of the sources): the
    fields the seeker and the decode loop read, the presentation timestamp
    and the device pointer held by [extBuf]. *)
Record DecodedFrame : Type := mkDecodedFrame {
  timestamp : Z;        (* int64_t *)
  extBuf_data : Z       (* extBuf->data() *)
}.

(** A value-initialised [DecodedFrame()], as the elements of a fresh
    [std::vector<DecodedFrame>] are. *)
Definition DecodedFrame_zero : DecodedFrame := mkDecodedFrame 0 0.

(** [PacketData] (PyCAIMemoryView.hpp, not part of the sources), with the
    fields SeekUtils.cpp names. *)
Record PacketData : Type := mkPacketData {
  bsl_data : Z; bsl : Z; pts : Z; dts : Z; duration : Z; pos : Z; key : Z
}.

(** [PacketData()] and [memset(&packetdata, 0, sizeof(PacketData))]. *)
Definition PacketData_zero : PacketData := mkPacketData 0 0 0 0 0 0 0.

(** What one successful [FFmpegDemuxer::Demux] writes to its out-parameters. *)
Record DemuxedPacket : Type := mkDemuxedPacket {
  pkt_data : Z; pkt_size : Z; pkt_pts : Z; pkt_dts : Z;
  pkt_duration : Z; pkt_pos : Z; pkt_isKeyFrame : bool
}.

(** The demuxer of one source, by what SeekUtils and RunDecoder ask of it:
    whether it can seek, the container name, the stream's index table and
    timestamp conversions (libavformat), the video packets [av_read_frame]
    still has to deliver, and what [av_seek_frame] does. *)
Record FFmpegDemuxer : Type := mkFFmpegDemuxer {
  is_seekable : bool;
  GetContainerFormat : string;
  FrameToPts : Z -> Z;
  dts_to_frame_number : Z -> Z;
  (** [avformat_index_get_entry(stream, idx)->timestamp]; [None] is NULL. *)
  avformat_index_get_entry : Z -> option Z;
  (** [av_index_search_timestamp(stream, ts, AVSEEK_FLAG_BACKWARD)]. *)
  av_index_search_timestamp : Z -> Z;
  (** [av_seek_frame(fmtc, iVideoStream, ts, AVSEEK_FLAG_BACKWARD)]: [None]
      when it returns a negative value, otherwise the video packets
      [av_read_frame] delivers from the new position. *)
  av_seek_frame : Z -> option (list DemuxedPacket);
  packets : list DemuxedPacket
}.

Definition set_packets (v : list DemuxedPacket) (d : FFmpegDemuxer) : FFmpegDemuxer :=
  {| is_seekable := is_seekable d;
     GetContainerFormat := GetContainerFormat d;
     FrameToPts := FrameToPts d;
     dts_to_frame_number := dts_to_frame_number d;
     avformat_index_get_entry := avformat_index_get_entry d;
     av_index_search_timestamp := av_index_search_timestamp d;
     av_seek_frame := av_seek_frame d;
     packets := v |}.

(** How a call of [FFmpegDemuxer::Seek] ends: it returns (always [true]),
    leaving the demuxer at the new position; it leaves by the exception
    of [PYNVVC_THROW_ERROR(what, ...)]; or it dereferences a NULL index
    entry, which has no defined result. *)
Inductive SeekResult : Type :=
| SeekReturned (d : FFmpegDemuxer)
| SeekThrown (what : string)
| SeekUndefined.

(** [FFmpegDemuxer::Seek(uint32_t frameIdx)].  [FrameToPts] and
    [avformat_index_get_entry] take the index as an [int]; the target
    timestamp is an [int64_t], and the subtraction of the offset has no
    defined result outside its range. *)
Definition Seek (frameIdx : Z) (d : FFmpegDemuxer) : SeekResult :=
  if negb (is_seekable d) then SeekThrown "Seek isn't supported for this input."
  else
    match avformat_index_get_entry d 0 with
    | None => SeekUndefined                       (* entry0->timestamp *)
    | Some pts_offset =>
        let container := GetContainerFormat d in
        let entry :=
          if String.eqb container "mov" || String.eqb container "flv"
             || String.eqb container "matroska,webm"
          then Some (FrameToPts d (to_int32 frameIdx))
          else avformat_index_get_entry d (to_int32 frameIdx) in
        match entry with
        | None => SeekUndefined                   (* keyframeIndexEntry->timestamp *)
        | Some iSeekTargetPTS =>
            let iSeekTargetPTS := iSeekTargetPTS - pts_offset in
            if (- 2 ^ 63 <=? iSeekTargetPTS) && (iSeekTargetPTS <? 2 ^ 63) then
              match av_seek_frame d iSeekTargetPTS with
              | None => SeekThrown "Failed to seek."
              | Some delivered => SeekReturned (set_packets delivered d)
              end
            else SeekUndefined
        end
    end.

(** The decoder, by the member functions of [NvDecoder] that are called on
    it.  [GetFrame] and [GetLockedFrame] return the frame pointer and the
    timestamp, [None] being the NULL return that leaves the timestamp
    unwritten. *)
Class NvDecoder (D : Type) : Type := {
  Decode : Z -> Z -> Z -> Z -> D -> Z * D;   (* pData nSize nFlags nTimestamp *)
  GetFrame : D -> option (Z * Z) * D;
  GetLockedFrame : D -> option (Z * Z) * D;
  UnlockFrame : Z -> D -> D;
  setSeekPTS : Z -> D -> D;
  SetWaitForSessionWarmUp : bool -> D -> D;
  SetSessionInitCounter : Z -> D -> D
}.

(** The calls made on the collaborators and on the channel, as they are
    recorded in the ghost field [calls]. *)
Inductive Event : Type :=
| EvDemux (bRes : bool) (nVideoBytes : Z)
| EvSeek (frameIdx : Z)
| EvDecode (pData nSize nFlags nTimestamp : Z)
| EvGetFrame
| EvGetLockedFrame
| EvUnlockFrame (pFrame : Z)
| EvSetSeekPTS (pts : Z)
| EvSetWaitForSessionWarmUp (value : bool)
| EvSetSessionInitCounter (count : Z)
| EvPushEntry (frame : DecodedFrame)
| EvPushDone.

(** [GetCAIMemoryViewAndDLPack(decoder, (data, timestamp, sei, event))]. *)
Definition GetCAIMemoryViewAndDLPack (tup : option (Z * Z)) : DecodedFrame :=
  match tup with
  | Some (tupData, tupTimestamp) =>
      {| timestamp := tupTimestamp; extBuf_data := tupData |}
  | None => {| timestamp := 0; extBuf_data := 0 |}
  end.

End Collab.

(** ** SeekUtils.hpp, SeekUtils.cpp *)
Module Seeker.
Import CInt Collab.

(** [enum class SeekStatus { INVALID_INDEX_ENTRY = -2 }]. *)
Definition INVALID_INDEX_ENTRY : Z := -2.

(** [SeekUtils::GetKeyNearestKeyFrameIndexForTarget(stream, idx)].  [None]
    is the dereference of a NULL index entry in the flv / matroska branch,
    which has no defined result. *)
Definition GetKeyNearestKeyFrameIndexForTarget (dmx : FFmpegDemuxer) (idx : Z)
  : option Z :=
  let container := GetContainerFormat dmx in
  if String.eqb container "flv" || String.eqb container "matroska,webm" then
    let targetpts := to_int32 (FrameToPts dmx (to_int32 idx)) in
    let KeyFrameIndex := av_index_search_timestamp dmx targetpts in
    match avformat_index_get_entry dmx KeyFrameIndex with
    | None => None
    | Some entry_timestamp => Some (to_int32 (dts_to_frame_number dmx entry_timestamp))
    end
  else
    match avformat_index_get_entry dmx (to_int32 idx) with
    | None => Some INVALID_INDEX_ENTRY
    | Some entry_timestamp =>
        let targetpts := to_int32 entry_timestamp in
        Some (av_index_search_timestamp dmx targetpts)
    end.

(** [SeekUtils::ShouldSeek(previous_target, current_target)]. *)
Definition ShouldSeek (dmx : FFmpegDemuxer) (previous_target current_target : Z)
  : option (bool * Z) :=
  match GetKeyNearestKeyFrameIndexForTarget dmx current_target with
  | None => None
  | Some rightindex =>
      if previous_target =? -1 then Some (true, rightindex)
      else
        match GetKeyNearestKeyFrameIndexForTarget dmx previous_target with
        | None => None
        | Some leftindex =>
            if (leftindex =? INVALID_INDEX_ENTRY) || (rightindex =? INVALID_INDEX_ENTRY)
            then Some (false, INVALID_INDEX_ENTRY)
            else if leftindex =? rightindex then Some (false, rightindex)
            else if rightindex - previous_target <? 4 then Some (false, rightindex)
            else Some (true, rightindex)
        end
  end.

Section WithDecoder.
Context {D : Type} `{NvDecoder D}.

Record SeekUtils : Type := mkSeekUtils {
  mTargetFrames : list DecodedFrame;
  mPendingFrames : list DecodedFrame;
  mPreviousTargetIndex : Z;                 (* int32_t *)
  mFrameSizeInBytes : Z;                    (* uint32_t *)
  mFramesDecodedTillNow : Z;                (* uint32_t *)
  mbDiscontinuityFlag : bool;
  mTargetFramePTS : Z;                      (* int32_t *)
  mPreviouslyDecodedFramesPTS : list Z;     (* std::vector<int64_t> *)
  mbEOSreached : bool;
  bIsSeekDirectionBackwards : bool;
  bSeekToIndexSet : bool;
  mDemuxer : FFmpegDemuxer;                 (* the object behind FFmpegDemuxer* *)
  mDecoder : D;                             (* the object behind NvDecoder* *)
  calls : list Event                        (* ghost: calls on the collaborators *)
}.

(** [SeekUtils(demuxer, decoder)]. *)
Definition SeekUtils_new (demuxer : FFmpegDemuxer) (decoder : D) : SeekUtils :=
  {| mTargetFrames := []; mPendingFrames := [];
     mPreviousTargetIndex := -1; mFrameSizeInBytes := 0;
     mFramesDecodedTillNow := 0; mbDiscontinuityFlag := false;
     mTargetFramePTS := 0; mPreviouslyDecodedFramesPTS := [];
     mbEOSreached := false; bIsSeekDirectionBackwards := false;
     bSeekToIndexSet := false;
     mDemuxer := demuxer; mDecoder := decoder; calls := [] |}.

(** Assignment to one member. *)
Definition set_mTargetFrames (v : list DecodedFrame) (s : SeekUtils) : SeekUtils :=
  let '(mkSeekUtils a b c d e f g h i j k l m n) := s in mkSeekUtils v b c d e f g h i j k l m n.
Definition set_mPendingFrames (v : list DecodedFrame) (s : SeekUtils) : SeekUtils :=
  let '(mkSeekUtils a b c d e f g h i j k l m n) := s in mkSeekUtils a v c d e f g h i j k l m n.
Definition set_mPreviousTargetIndex (v : Z) (s : SeekUtils) : SeekUtils :=
  let '(mkSeekUtils a b c d e f g h i j k l m n) := s in mkSeekUtils a b v d e f g h i j k l m n.
Definition set_mFrameSizeInBytes (v : Z) (s : SeekUtils) : SeekUtils :=
  let '(mkSeekUtils a b c d e f g h i j k l m n) := s in mkSeekUtils a b c v e f g h i j k l m n.
Definition set_mFramesDecodedTillNow (v : Z) (s : SeekUtils) : SeekUtils :=
  let '(mkSeekUtils a b c d e f g h i j k l m n) := s in mkSeekUtils a b c d v f g h i j k l m n.
Definition set_mbDiscontinuityFlag (v : bool) (s : SeekUtils) : SeekUtils :=
  let '(mkSeekUtils a b c d e f g h i j k l m n) := s in mkSeekUtils a b c d e v g h i j k l m n.
Definition set_mTargetFramePTS (v : Z) (s : SeekUtils) : SeekUtils :=
  let '(mkSeekUtils a b c d e f g h i j k l m n) := s in mkSeekUtils a b c d e f v h i j k l m n.
Definition set_mPreviouslyDecodedFramesPTS (v : list Z) (s : SeekUtils) : SeekUtils :=
  let '(mkSeekUtils a b c d e f g h i j k l m n) := s in mkSeekUtils a b c d e f g v i j k l m n.
Definition set_mbEOSreached (v : bool) (s : SeekUtils) : SeekUtils :=
  let '(mkSeekUtils a b c d e f g h i j k l m n) := s in mkSeekUtils a b c d e f g h v j k l m n.
Definition set_bIsSeekDirectionBackwards (v : bool) (s : SeekUtils) : SeekUtils :=
  let '(mkSeekUtils a b c d e f g h i j k l m n) := s in mkSeekUtils a b c d e f g h i v k l m n.
Definition set_bSeekToIndexSet (v : bool) (s : SeekUtils) : SeekUtils :=
  let '(mkSeekUtils a b c d e f g h i j k l m n) := s in mkSeekUtils a b c d e f g h i j v l m n.
Definition set_mDemuxer (v : FFmpegDemuxer) (s : SeekUtils) : SeekUtils :=
  let '(mkSeekUtils a b c d e f g h i j k l m n) := s in mkSeekUtils a b c d e f g h i j k v m n.
Definition set_mDecoder (v : D) (s : SeekUtils) : SeekUtils :=
  let '(mkSeekUtils a b c d e f g h i j k l m n) := s in mkSeekUtils a b c d e f g h i j k l v n.
Definition set_calls (v : list Event) (s : SeekUtils) : SeekUtils :=
  let '(mkSeekUtils a b c d e f g h i j k l m n) := s in mkSeekUtils a b c d e f g h i j k l m v.

(** A member function: from the object to the returned value and the
    object afterwards; [None] when the call does not return: it runs into
    behaviour the language leaves undefined, or the exception of the
    demuxer's [Seek] passes through it (SeekUtils.cpp catches nothing). *)
Definition M (A : Type) : Type := SeekUtils -> option (A * SeekUtils).

Definition ret {A} (a : A) : M A := fun s => Some (a, s).

Definition bind {A B} (c : M A) (k : A -> M B) : M B :=
  fun s => match c s with
           | Some (a, s') => k a s'
           | None => None
           end.

Definition get : M SeekUtils := fun s => Some (s, s).
Definition modify (f : SeekUtils -> SeekUtils) : M unit := fun s => Some (tt, f s).
Definition undefined {A} : M A := fun _ => None.
Definition when (b : bool) (c : M unit) : M unit := if b then c else ret tt.

Local Notation "'let*' x ':=' c 'in' k" := (bind c (fun x => k))
  (at level 10, x pattern, c at level 100, k at level 200).
Local Notation "c >> k" := (bind c (fun _ => k))
  (at level 90, right associativity).

Fixpoint repeat_call (n : nat) (c : M unit) : M unit :=
  match n with
  | O => ret tt
  | S n' => c >> repeat_call n' c
  end.

Fixpoint for_each {A} (l : list A) (body : A -> M unit) : M unit :=
  match l with
  | [] => ret tt
  | x :: rest => body x >> for_each rest body
  end.

Definition log (e : Event) : M unit :=
  modify (fun s => set_calls (calls s ++ [e]) s).

(** *** Calls on the collaborators *)

Definition mDecoder_Decode (pData nSize nFlags nTimestamp : Z) : M Z :=
  fun s =>
    let '(n, d) := Decode pData nSize nFlags nTimestamp (mDecoder s) in
    (log (EvDecode pData nSize nFlags nTimestamp) >> ret n) (set_mDecoder d s).

Definition mDecoder_GetFrame : M (option (Z * Z)) :=
  fun s =>
    let '(r, d) := GetFrame (mDecoder s) in
    (log EvGetFrame >> ret r) (set_mDecoder d s).

Definition mDecoder_GetLockedFrame : M (option (Z * Z)) :=
  fun s =>
    let '(r, d) := GetLockedFrame (mDecoder s) in
    (log EvGetLockedFrame >> ret r) (set_mDecoder d s).

Definition mDecoder_UnlockFrame (pFrame : Z) : M unit :=
  modify (fun s => set_mDecoder (UnlockFrame pFrame (mDecoder s)) s)
  >> log (EvUnlockFrame pFrame).

Definition mDecoder_setSeekPTS (v : Z) : M unit :=
  modify (fun s => set_mDecoder (setSeekPTS v (mDecoder s)) s)
  >> log (EvSetSeekPTS v).

Definition mDecoder_SetWaitForSessionWarmUp (value : bool) : M unit :=
  modify (fun s => set_mDecoder (SetWaitForSessionWarmUp value (mDecoder s)) s)
  >> log (EvSetWaitForSessionWarmUp value).

Definition mDecoder_SetSessionInitCounter (count : Z) : M unit :=
  modify (fun s => set_mDecoder (SetSessionInitCounter count (mDecoder s)) s)
  >> log (EvSetSessionInitCounter count).

Definition mDemuxer_Seek (frameIdx : Z) : M unit :=
  fun s =>
    match Seek frameIdx (mDemuxer s) with
    | SeekReturned d => log (EvSeek frameIdx) (set_mDemuxer d s)
    | SeekThrown _ => None
    | SeekUndefined => None
    end.

(** *** Member functions *)

(** [void setEOS(bool newVal) { mbEOSreached = true; }] *)
Definition setEOS (newVal : bool) : M unit :=
  modify (set_mbEOSreached true).

Definition IsEOSReached : M bool :=
  let* s := get in ret (mbEOSreached s).

Definition SeekUtils_GetFrame (bLockFrame : bool) : M DecodedFrame :=
  let* tup := (if bLockFrame then mDecoder_GetLockedFrame else mDecoder_GetFrame) in
  ret (GetCAIMemoryViewAndDLPack tup).

(** [UnlockFrames()]: every frame of [mTargetFrames], without a NULL test. *)
Definition UnlockFrames : M unit :=
  let* s := get in
  for_each (mTargetFrames s) (fun frame => mDecoder_UnlockFrame (extBuf_data frame)).

(** [UnlockFrame(DecodedFrame&)]: one frame, when its pointer is not NULL. *)
Definition SeekUtils_UnlockFrame (decframe : DecodedFrame) : M unit :=
  when (negb (extBuf_data decframe =? 0)) (mDecoder_UnlockFrame (extBuf_data decframe)).

(** [GetFrame(false);] the frame is fetched and dropped. *)
Definition drop_frame : M unit :=
  SeekUtils_GetFrame false >> ret tt.

Definition ClearState (bForceEOS : bool) : M unit :=
  UnlockFrames >>
  modify (set_mTargetFrames []) >>
  modify (set_mPendingFrames []) >>
  modify (set_mPreviouslyDecodedFramesPTS []) >>
  modify (set_mPreviousTargetIndex (-1)) >>
  modify (set_mFramesDecodedTillNow 0) >>
  modify (set_mFrameSizeInBytes 0) >>
  modify (set_mTargetFramePTS 0) >>
  modify (set_mbDiscontinuityFlag false) >>
  modify (set_bSeekToIndexSet false) >>
  mDemuxer_Seek 0 >>
  mDecoder_SetWaitForSessionWarmUp true >>
  mDecoder_SetSessionInitCounter 0 >>
  let* s := get in
  when (mbEOSreached s || bForceEOS)
    (let emptyPacket := PacketData_zero in
     let* numDecodedFrames :=
       mDecoder_Decode (bsl_data emptyPacket) (bsl emptyPacket) 0 0 in
     repeat_call (Z.to_nat numDecodedFrames) drop_frame >>
     modify (set_mbEOSreached false)).

Definition SeekToIndex (newTargetIdx : Z) : M unit :=
  modify (set_mPreviousTargetIndex (to_int32 newTargetIdx)) >>
  modify (set_bSeekToIndexSet true).

Definition IsSeekBackwards (newTargetIdx : Z) : M bool :=
  let* s := get in
  if (newTargetIdx <=? mPreviousTargetIndex s) && negb (mPreviousTargetIndex s =? -1)
  then modify (set_bIsSeekDirectionBackwards true) >> ret true
  else modify (set_bIsSeekDirectionBackwards false) >> ret false.

(** What [UnlockFrames] amounts to on a list of frames: the calls it
    makes and the decoder it leaves. *)
Definition unlock_events (l : list DecodedFrame) : list Event :=
  map (fun frame => EvUnlockFrame (extBuf_data frame)) l.

Definition unlock_all (l : list DecodedFrame) (d : D) : D :=
  fold_left (fun d frame => UnlockFrame (extBuf_data frame) d) l d.

(** The decoder after [n] calls of [GetFrame] whose result is dropped. *)
Fixpoint drain_frames (n : nat) (d : D) : D :=
  match n with
  | O => d
  | S n' => drain_frames n' (GetFrame d).2
  end.

(** *** GetFramesByIdxList *)

(** The inner loop [for (j = 0; j < numDecodedFrames - count; j++)] that
    moves the frames left over from this decode call to [mPendingFrames]. *)
Definition push_pending : M unit :=
  let* frame := SeekUtils_GetFrame true in
  modify (fun s => set_mPendingFrames (mPendingFrames s ++ [frame]) s).

Definition decrement_mFramesDecodedTillNow : M unit :=
  modify (fun s => set_mFramesDecodedTillNow (to_uint32 (mFramesDecodedTillNow s - 1)) s).

(** The loop [for (i = 0; i < numDecodedFrames; i++)] over the frames of
    one decode call; [remaining] counts the turns still to run.  It returns
    [bTargetFrameFound] and [targetValue]. *)
Fixpoint frames_loop (remaining : nat) (numDecodedFrames : Z)
    (mCurrentCountOfDecodedFrames : Z) (targetValue : Z) : M (bool * Z) :=
  match remaining with
  | O => ret (false, targetValue)
  | S remaining' =>
      let* decodedframe := SeekUtils_GetFrame true in
      let mCurrentCountOfDecodedFrames := mCurrentCountOfDecodedFrames + 1 in
      let* s := get in
      if existsb (Z.eqb (timestamp decodedframe)) (mPreviouslyDecodedFramesPTS s) then
        SeekUtils_UnlockFrame decodedframe >>
        decrement_mFramesDecodedTillNow >>
        frames_loop remaining' numDecodedFrames mCurrentCountOfDecodedFrames targetValue
      else
        modify (set_mPreviouslyDecodedFramesPTS
                  (mPreviouslyDecodedFramesPTS s ++ [timestamp decodedframe])) >>
        if timestamp decodedframe <? mTargetFramePTS s then
          SeekUtils_UnlockFrame decodedframe >>
          decrement_mFramesDecodedTillNow >>
          frames_loop remaining' numDecodedFrames mCurrentCountOfDecodedFrames targetValue
        else if targetValue =? 0 then
          modify (fun s => set_mTargetFrames (mTargetFrames s ++ [decodedframe]) s) >>
          when (negb (mCurrentCountOfDecodedFrames =? 0))
            (repeat_call (Z.to_nat (numDecodedFrames - mCurrentCountOfDecodedFrames))
                         push_pending) >>
          ret (true, targetValue)
        else
          SeekUtils_UnlockFrame decodedframe >>
          frames_loop remaining' numDecodedFrames mCurrentCountOfDecodedFrames
                      (to_int32 (targetValue - 1))
  end.

(** What one turn of [while (!bTargetFrameFound)] leaves in its locals. *)
Record Turn : Type := mkTurn {
  t_bTargetFrameFound : bool;
  t_targetValue : Z;
  t_isKeyFrame : bool;
  t_emptyPacket : bool    (* packetdata.bsl == 0 && packetdata.bsl_data == 0 *)
}.

(** One turn of the loop.  [demuxed] is what [mDemuxer->Demux] delivers,
    the head of the demuxer's packets or nothing at the end of the data;
    [rest] are the packets it is left with. *)
Definition while_turn (demuxed : option DemuxedPacket) (rest : list DemuxedPacket)
    (isKeyFrame : bool) (targetValue : Z) : M Turn :=
  modify (fun s => set_mDemuxer (set_packets rest (mDemuxer s)) s) >>
  log (match demuxed with
       | Some p => EvDemux true (pkt_size p)
       | None => EvDemux false 0
       end) >>
  let isKeyFrame :=
    match demuxed with Some p => pkt_isKeyFrame p | None => isKeyFrame end in
  let packetdata :=
    match demuxed with
    | Some p =>
        mkPacketData (pkt_data p) (pkt_size p) (pkt_pts p) (pkt_dts p)
                     (pkt_duration p) (pkt_pos p) (if isKeyFrame then 1 else 0)
    | None =>
        mkPacketData 0 0 0 0 0 0 (if isKeyFrame then 1 else 0)
    end in
  let* s := get in
  when (isKeyFrame && mbDiscontinuityFlag s)
    (modify (set_mTargetFramePTS (to_int32 (pts packetdata)))) >>
  when (mbDiscontinuityFlag s)
    (let emptyPacket := PacketData_zero in
     mDecoder_setSeekPTS 0 >>
     let* numDecodedFrames :=
       mDecoder_Decode (bsl_data emptyPacket) (bsl emptyPacket)
                       CUVID_PKT_DISCONTINUITY (pts emptyPacket) in
     repeat_call (Z.to_nat numDecodedFrames) drop_frame >>
     modify (set_mPendingFrames []) >>
     modify (set_mbDiscontinuityFlag false)) >>
  mDecoder_setSeekPTS 0 >>
  let eos := (bsl packetdata =? 0) && (bsl_data packetdata =? 0) in
  let flag := if eos then CUVID_PKT_ENDOFSTREAM else CUVID_PKT_TIMESTAMP in
  when eos (modify (set_mbEOSreached true)) >>
  let* numDecodedFrames :=
    mDecoder_Decode (bsl_data packetdata) (bsl packetdata) flag (pts packetdata) in
  modify (fun s => set_mFramesDecodedTillNow
                     (to_uint32 (mFramesDecodedTillNow s + numDecodedFrames)) s) >>
  let* (found, targetValue) :=
    frames_loop (Z.to_nat numDecodedFrames) numDecodedFrames 0 targetValue in
  ret (mkTurn found targetValue isKeyFrame eos).

(** [while (!bTargetFrameFound) { ... }], entered with the target not
    found.  [remaining] is the list of packets the demuxer holds when the
    loop is entered; each turn demuxes its head, and the turn at the end of
    the data leaves by the [break] on the zeroed packet. *)
Fixpoint while_not_found (remaining : list DemuxedPacket)
    (isKeyFrame : bool) (targetValue : Z) : M bool :=
  match remaining with
  | [] =>
      let* t := while_turn None [] isKeyFrame targetValue in
      ret (t_bTargetFrameFound t)
  | p :: rest =>
      let* t := while_turn (Some p) rest isKeyFrame targetValue in
      if t_bTargetFrameFound t || t_emptyPacket t then ret (t_bTargetFrameFound t)
      else while_not_found rest (t_isKeyFrame t) (t_targetValue t)
  end.

(** The lookup in [mPendingFrames] that serves a target lying before the
    frames decoded so far ([targetValue < 0]).  It returns
    [bTargetFrameFound] and [targetValue]. *)
Definition from_pending (targetValue : Z) : M (bool * Z) :=
  let* s := get in
  let size := Z.of_nat (length (mPendingFrames s)) in
  (* int actual_idx = targetValue + mPendingFrames.size(); *)
  let actual_idx := to_int32 (to_size_t (to_size_t targetValue + size)) in
  (* if (actual_idx <= mPendingFrames.size()) *)
  if to_size_t actual_idx <=? size then
    match mPendingFrames s !! Z.to_nat (to_size_t actual_idx) with
    | Some pendingFrame =>
        modify (fun s => set_mTargetFrames (mTargetFrames s ++ [pendingFrame]) s) >>
        ret (true, 0)
    | None => undefined     (* mPendingFrames[size()] *)
    end
  else ret (false, targetValue).

(** The body of [for (const uint32_t& currentTargetIndex : indices)]. *)
Definition resolve_index (currentTargetIndex : Z) : M unit :=
  let* s := get in
  match ShouldSeek (mDemuxer s) (mPreviousTargetIndex s) currentTargetIndex with
  | None => undefined
  | Some result =>
      if result.2 =? INVALID_INDEX_ENTRY then ret tt      (* continue *)
      else
        (if result.1 then
           match GetKeyNearestKeyFrameIndexForTarget (mDemuxer s) currentTargetIndex with
           | None => undefined
           | Some timestamp =>
               mDemuxer_Seek currentTargetIndex >>
               modify (set_mFramesDecodedTillNow (to_uint32 timestamp)) >>
               modify (set_mbDiscontinuityFlag true) >>
               modify (set_mPendingFrames []) >>
               modify (set_mPreviouslyDecodedFramesPTS [])
           end
         else modify (set_mbDiscontinuityFlag false)) >>
        let* s := get in
        (* int targetValue = currentTargetIndex - mFramesDecodedTillNow; *)
        let targetValue :=
          to_int32 (to_uint32 (currentTargetIndex - mFramesDecodedTillNow s)) in
        let* (bTargetFrameFound, targetValue) :=
          (if targetValue <? 0 then from_pending targetValue
           else modify (set_mPendingFrames []) >> ret (false, targetValue)) in
        let* bTargetFrameFound :=
          (if bTargetFrameFound then ret true
           else let* s := get in
                while_not_found (packets (mDemuxer s)) false targetValue) in
        when bTargetFrameFound
          (modify (set_mPreviousTargetIndex (to_int32 currentTargetIndex)))
  end.

Definition GetFramesByIdxList (indices : list Z) : M (list DecodedFrame) :=
  UnlockFrames >>
  modify (set_mTargetFrames []) >>
  for_each indices resolve_index >>
  let* s := get in
  ret (mTargetFrames s).

Definition GetPendingFrames : M (list DecodedFrame) :=
  let* s := get in ret (mPendingFrames s).

End WithDecoder.
Arguments SeekUtils D : clear implicits.
Arguments M D A : clear implicits.
End Seeker.

(** ** ThreadedDecoder.cpp: the decode loop of the streaming thread *)
Module Threaded.
Import CInt Collab SPSC.

Section WithDecoder.
Context {D : Type} `{NvDecoder D}.

(** What [RunDecoder] works on: its demuxer and decoder, the channel it
    shares with the consumer, and ghost counters and the record of its
    calls. *)
Record Thread : Type := mkThread {
  demuxer : FFmpegDemuxer;
  decoder : D;
  decodedFrames : SPSCBuffer DecodedFrame;
  stopLoads : nat;         (* ghost: number of decodeStopFlag.load() so far *)
  pushCalls : nat;         (* ghost: number of PushEntry calls so far *)
  calls : list Event       (* ghost: calls made so far, oldest first *)
}.

(** The other threads, as the decode thread meets them: the value each
    [decodeStopFlag.load()] observes, and the batch sizes of the
    [PopEntries] calls the consumer makes before each [PushEntry] of the
    decode thread takes the mutex. *)
Record Env : Type := mkEnv {
  decodeStopFlag : nat -> bool;
  consumer : nat -> list Z
}.

(** How a run of the thread ends: it returns, or it sleeps in
    [PushEntry] on a full channel that the consumer does not empty. *)
Inductive Run : Type :=
| Exited (t : Thread)
| Parked (t : Thread).

Definition log (e : Event) (t : Thread) : Thread :=
  {| demuxer := demuxer t; decoder := decoder t; decodedFrames := decodedFrames t;
     stopLoads := stopLoads t; pushCalls := pushCalls t; calls := calls t ++ [e] |}.

Definition set_decoder (d : D) (t : Thread) : Thread :=
  {| demuxer := demuxer t; decoder := d; decodedFrames := decodedFrames t;
     stopLoads := stopLoads t; pushCalls := pushCalls t; calls := calls t |}.

Definition set_demuxer (d : FFmpegDemuxer) (t : Thread) : Thread :=
  {| demuxer := d; decoder := decoder t; decodedFrames := decodedFrames t;
     stopLoads := stopLoads t; pushCalls := pushCalls t; calls := calls t |}.

Definition set_decodedFrames (b : SPSCBuffer DecodedFrame) (t : Thread) : Thread :=
  {| demuxer := demuxer t; decoder := decoder t; decodedFrames := b;
     stopLoads := stopLoads t; pushCalls := pushCalls t; calls := calls t |}.

(** [decodeStopFlag.load()] *)
Definition load_stop (env : Env) (t : Thread) : bool * Thread :=
  (decodeStopFlag env (stopLoads t),
   {| demuxer := demuxer t; decoder := decoder t; decodedFrames := decodedFrames t;
      stopLoads := S (stopLoads t); pushCalls := pushCalls t; calls := calls t |}).

(** The consumer's pops that precede the next push. *)
Definition consumer_pops (env : Env) (t : Thread) : SPSCBuffer DecodedFrame :=
  fold_left
    (fun b batchSize => state_of (PopEntries DecodedFrame_zero batchSize b))
    (consumer env (pushCalls t)) (decodedFrames t).

(** [decodedFrames.PushEntry(frame)] *)
Definition push_entry (env : Env) (frame : DecodedFrame) (t : Thread) : Run :=
  match PushEntry frame (consumer_pops env t) with
  | Returned b _ =>
      Exited
        (log (EvPushEntry frame)
           {| demuxer := demuxer t; decoder := decoder t; decodedFrames := b;
              stopLoads := stopLoads t; pushCalls := S (pushCalls t);
              calls := calls t |})
  | Waiting b | Thrown b _ => Parked (set_decodedFrames b t)
  end.

(** [for (int i = 0; (i < nFrameReturned) && (!decodeStopFlag.load()); i++)];
    [remaining] is [nFrameReturned - i]. *)
Fixpoint push_frames (remaining : nat) (env : Env) (t : Thread) : Run :=
  match remaining with
  | O => Exited t
  | S remaining' =>
      let '(stop, t) := load_stop env t in
      if stop then Exited t
      else
        let '(tup, d) := GetLockedFrame (decoder t) in
        let t := log EvGetLockedFrame (set_decoder d t) in
        let frame := GetCAIMemoryViewAndDLPack tup in
        match push_entry env frame t with
        | Exited t => push_frames remaining' env t
        | Parked t => Parked t
        end
  end.

(** How the [do ... while] loop is left. *)
Inductive LoopEnd : Type :=
| LoopExit (nVideoBytes : Z) (t : Thread)
| LoopParked (t : Thread).

(** The body of the [do ... while] loop up to its condition, for what
    [demuxer->Demux] delivers: a packet, or nothing and zero bytes with
    [pVideo] and [pts] left as they were.  It returns the locals
    [nVideoBytes], [pVideo], [pts]. *)
Definition loop_body (demuxed : option DemuxedPacket) (rest : list DemuxedPacket)
    (pVideo pts : Z) (env : Env) (t : Thread) : Run * (Z * Z * Z) :=
  let t := set_demuxer (set_packets rest (demuxer t)) t in
  let '(nVideoBytes, pVideo, pts) :=
    match demuxed with
    | Some p => (pkt_size p, pkt_data p, pkt_pts p)
    | None => (0, pVideo, pts)
    end in
  let t := log (EvDemux (bool_decide (is_Some demuxed)) nVideoBytes) t in
  let '(nFrameReturned, d) := Decode pVideo nVideoBytes 0 pts (decoder t) in
  let t := log (EvDecode pVideo nVideoBytes 0 pts) (set_decoder d t) in
  (push_frames (Z.to_nat nFrameReturned) env t, (nVideoBytes, pVideo, pts)).

(** [do { ... } while (nVideoBytes && !decodeStopFlag.load());] entered
    with the demuxer holding [remaining]. *)
Fixpoint do_while (remaining : list DemuxedPacket) (pVideo pts : Z)
    (env : Env) (t : Thread) : LoopEnd :=
  match remaining with
  | [] =>
      match loop_body None [] pVideo pts env t with
      | (Exited t, (nVideoBytes, _, _)) => LoopExit nVideoBytes t
      | (Parked t, _) => LoopParked t
      end
  | p :: rest =>
      match loop_body (Some p) rest pVideo pts env t with
      | (Exited t, (nVideoBytes, pVideo, pts)) =>
          if nVideoBytes =? 0 then LoopExit nVideoBytes t
          else
            let '(stop, t) := load_stop env t in
            if stop then LoopExit nVideoBytes t
            else do_while rest pVideo pts env t
      | (Parked t, _) => LoopParked t
      end
  end.

(** [RunDecoder(demuxer, decoder, decodedFrames, decodeStopFlag)] *)
Definition RunDecoder (env : Env) (t : Thread) : Run :=
  match do_while (packets (demuxer t)) 0 0 env t with
  | LoopParked t => Parked t
  | LoopExit nVideoBytes t =>
      let t := log EvPushDone (set_decodedFrames (PushDone (decodedFrames t)) t) in
      if negb (nVideoBytes =? 0) then
        let emptyPacket := PacketData_zero in
        let '(_, d) := Decode (bsl_data emptyPacket) (bsl emptyPacket) 0 0 (decoder t) in
        Exited (log (EvDecode (bsl_data emptyPacket) (bsl emptyPacket) 0 0)
                    (set_decoder d t))
      else Exited t
  end.

(** The thread's state at the end of a run. *)
Definition final_thread (r : Run) : Thread :=
  match r with
  | Exited t => t
  | Parked t => t
  end.

(** The byte count the last [Demux] call of a record of calls delivered
    ([acc] when the record has no such call). *)
Definition last_demux_from (acc : option Z) (l : list Event) : option Z :=
  fold_left (fun acc e => match e with EvDemux _ n => Some n | _ => acc end) l acc.

Definition last_demux_bytes (l : list Event) : option Z := last_demux_from None l.

(** The calls of the loop that hands frames to the channel. *)
Definition is_push_event (e : Event) : bool :=
  match e with
  | EvGetLockedFrame | EvPushEntry _ => true
  | _ => false
  end.

End WithDecoder.
Arguments Thread D : clear implicits.
End Threaded.

(** ** A small source and decoder for running the code on examples *)
Module Sample.
Import CInt Collab Seeker.

(** A decoder without reordering: a packet with payload yields one frame
    carrying the packet's timestamp, a packet without payload yields none.
    Its state is the queue of frames of the last decode call. *)
Definition SimpleDecoder : Type := list (Z * Z).

Definition simple_Decode (pData nSize nFlags nTimestamp : Z) (d : SimpleDecoder)
  : Z * SimpleDecoder :=
  if (nSize =? 0) || (pData =? 0) then (0, []) else (1, [(pData, nTimestamp)]).

Definition simple_GetFrame (d : SimpleDecoder) : option (Z * Z) * SimpleDecoder :=
  match d with
  | [] => (None, [])
  | f :: rest => (Some f, rest)
  end.

#[export] Instance SimpleDecoder_ops : NvDecoder SimpleDecoder := {|
  Decode := simple_Decode;
  GetFrame := simple_GetFrame;
  GetLockedFrame := simple_GetFrame;
  UnlockFrame := fun _ d => d;
  setSeekPTS := fun _ d => d;
  SetWaitForSessionWarmUp := fun _ d => d;
  SetSessionInitCounter := fun _ d => d
|}.

(** Packet number [i] of the sample source: 16 bytes at address
    [4096 + 16 i], timestamps equal to the frame number. *)
Definition sample_packet (i : Z) : DemuxedPacket :=
  {| pkt_data := 4096 + 16 * i; pkt_size := 16; pkt_pts := i; pkt_dts := i;
     pkt_duration := 1; pkt_pos := 16 * i; pkt_isKeyFrame := (i =? 0) |}.

Definition sample_packets : list DemuxedPacket :=
  [sample_packet 0; sample_packet 1; sample_packet 2].

(** An mp4 source of three frames in one GOP (key frame 0); frame [i]
    has index entry [i] with timestamp [i]. *)
Definition sample_demuxer : FFmpegDemuxer :=
  {| is_seekable := true;
     GetContainerFormat := "mov,mp4,m4a,3gp,3g2,mj2";
     FrameToPts := fun frame => frame;
     dts_to_frame_number := fun dts => dts;
     avformat_index_get_entry :=
       fun idx => if (0 <=? idx) && (idx <? 3) then Some idx else None;
     av_index_search_timestamp := fun _ => 0;
     av_seek_frame := fun _ => Some sample_packets;
     packets := sample_packets |}.

Definition sample_seeker : SeekUtils SimpleDecoder :=
  SeekUtils_new sample_demuxer [].

(** The same source behind an input that cannot seek. *)
Definition pipe_demuxer : FFmpegDemuxer :=
  {| is_seekable := false;
     GetContainerFormat := GetContainerFormat sample_demuxer;
     FrameToPts := FrameToPts sample_demuxer;
     dts_to_frame_number := dts_to_frame_number sample_demuxer;
     avformat_index_get_entry := avformat_index_get_entry sample_demuxer;
     av_index_search_timestamp := av_index_search_timestamp sample_demuxer;
     av_seek_frame := av_seek_frame sample_demuxer;
     packets := sample_packets |}.

Definition pipe_seeker : SeekUtils SimpleDecoder :=
  SeekUtils_new pipe_demuxer [].




(** An flv source whose index table has no entry at or before timestamp
    0: [av_index_search_timestamp] answers -1 and the entry is NULL. *)
Definition flv_demuxer : FFmpegDemuxer :=
  {| is_seekable := true;
     GetContainerFormat := "flv";
     FrameToPts := fun frame => frame;
     dts_to_frame_number := fun dts => dts;
     avformat_index_get_entry := fun idx => if 0 <=? idx then Some idx else None;
     av_index_search_timestamp := fun ts => if 0 <? ts then 0 else -1;
     av_seek_frame := fun _ => Some sample_packets;
     packets := sample_packets |}.

(** A decoder with a delay of one picture: it holds a first packet and
    yields two frames on the second; a packet without payload flushes what
    it holds. *)
Record PairDecoder : Type := mkPairDecoder {
  held : list (Z * Z);
  ready : list (Z * Z)
}.

Definition pair_Decode (pData nSize nFlags nTimestamp : Z) (d : PairDecoder)
  : Z * PairDecoder :=
  if (nSize =? 0) || (pData =? 0) then
    (Z.of_nat (length (held d)), {| held := []; ready := held d |})
  else
    let h := held d ++ [(pData, nTimestamp)] in
    if (2 <=? length h)%nat then (Z.of_nat (length h), {| held := []; ready := h |})
    else (0, {| held := h; ready := [] |}).

Definition pair_GetFrame (d : PairDecoder) : option (Z * Z) * PairDecoder :=
  match ready d with
  | [] => (None, d)
  | f :: rest => (Some f, {| held := held d; ready := rest |})
  end.

#[export] Instance PairDecoder_ops : NvDecoder PairDecoder := {|
  Decode := pair_Decode;
  GetFrame := pair_GetFrame;
  GetLockedFrame := pair_GetFrame;
  UnlockFrame := fun _ d => d;
  setSeekPTS := fun _ d => d;
  SetWaitForSessionWarmUp := fun _ d => d;
  SetSessionInitCounter := fun _ d => d
|}.

Definition pair_seeker : SeekUtils PairDecoder :=
  SeekUtils_new sample_demuxer (mkPairDecoder [] []).

(** The seeker after frame 0 has been resolved: frame 1 came out of the
    same decode call and waits in [mPendingFrames]. *)
Definition pair_seeker_after_0 : SeekUtils PairDecoder :=
  match GetFramesByIdxList [0] pair_seeker with
  | Some (_, s) => s
  | None => pair_seeker
  end.

(** The same seeker once frame 0 is asked for again through
    [SimpleDecoder::ResetDecoderIfRequired]: [IsSeekBackwards(0)] holds and
    [setEOS(true)] is called, before [ClearState(true)]. *)
Definition pair_seeker_before_reset : SeekUtils PairDecoder :=
  match (bind (IsSeekBackwards 0) (fun _ => setEOS true)) pair_seeker_after_0 with
  | Some (_, s) => s
  | None => pair_seeker_after_0
  end.

(** A streaming thread on the sample source with a channel of capacity 2;
    the stop flag is never raised and the consumer pops whatever is there
    before every push. *)
Definition sample_thread : Threaded.Thread SimpleDecoder :=
  {| Threaded.demuxer := sample_demuxer;
     Threaded.decoder := [];
     Threaded.decodedFrames := SPSC.SPSCBuffer_new DecodedFrame_zero 2;
     Threaded.stopLoads := 0%nat;
     Threaded.pushCalls := 0%nat;
     Threaded.calls := [] |}.

Definition sample_env : Threaded.Env :=
  {| Threaded.decodeStopFlag := fun _ => false;
     Threaded.consumer := fun _ => [0] |}.

(** The same thread when the stop flag is raised from the third load on. *)
Definition stopping_env : Threaded.Env :=
  {| Threaded.decodeStopFlag := fun k => (2 <=? k)%nat;
     Threaded.consumer := fun _ => [0] |}.

End Sample.

(** ** DecoderCache.hpp: sequences of calls, and the drain loop of
    [DecoderCommon::~DecoderCommon] *)
Module LRUOps.
Import CInt LRU.

Section Ops.
Context {Key : Type} `{Countable Key} {Value : Type}.

(** The calls a user makes on the cache. *)
Inductive CacheOp : Type :=
| CacheGet (key : Key)
| CachePut (key : Key) (value : Value)
| CacheRemove.

Definition cache_step (c : DecoderCache Key Value) (o : CacheOp)
  : DecoderCache Key Value :=
  match o with
  | CacheGet key => (GetDecoder key c).2
  | CachePut key value => (PushDecoder key value c).2
  | CacheRemove => (RemoveElement c).2
  end.

Definition cache_run (ops : list CacheOp) (c : DecoderCache Key Value)
  : DecoderCache Key Value :=
  fold_left cache_step ops c.

(** [while (auto decoder = mDecoderCache.RemoveElement()) { ... }]: the
    loop runs as long as the returned optional holds a value; it returns
    the values taken out, in order.  [turns] bounds the number of turns. *)
Fixpoint drain_loop (turns : nat) (c : DecoderCache Key Value)
  : list Value * DecoderCache Key Value :=
  match turns with
  | O => ([], c)
  | S turns' =>
      match RemoveElement c with
      | (None, c') => ([], c')
      | (Some decoder, c') =>
          let '(rest, c'') := drain_loop turns' c' in (decoder :: rest, c'')
      end
  end.

(** The value stored under a key, if any. *)
Definition cached (key : Key) (c : DecoderCache Key Value) : option Value :=
  snd <$> find_node key (mCacheItems c).

End Ops.
Arguments CacheOp Key Value : clear implicits.
End LRUOps.

(** ** Reading the record of calls of the decode thread *)
Module ThreadedObs.
Import Collab.

(** The frames handed to [PushEntry], in call order. *)
Definition pushed_frames (l : list Event) : list DecodedFrame :=
  flat_map (fun e => match e with EvPushEntry frame => [frame] | _ => [] end) l.

(** The number of [GetLockedFrame] calls. *)
Definition locked_count (l : list Event) : nat :=
  length (List.filter
            (fun e => match e with EvGetLockedFrame => true | _ => false end) l).

(** The calls of the frame loop for the frames it pushes. *)
Definition lock_and_push (frames : list DecodedFrame) : list Event :=
  flat_map (fun frame => [EvGetLockedFrame; EvPushEntry frame]) frames.

End ThreadedObs.

(** ** SeekUtils.cpp: what a stretch of GetFramesByIdxList does to the
    frames handed out, to the previous target, to the end-of-stream mark
    and to the demuxer's position *)
Module SeekerObs.
Import CInt Collab Seeker.

(** The frame indices of the Seek calls among [evs]. *)
Definition seek_calls (evs : list Event) : list Z :=
  omap (fun e => match e with EvSeek frameIdx => Some frameIdx | _ => None end) evs.

Section WithDecoder.
Context {D : Type} `{NvDecoder D}.

(** From [s] to [s'], [n] frames were appended to [mTargetFrames], the
    previous target was left alone, an end-of-stream mark was not taken
    back, and the collaborators were called without any Seek. *)
Record Adds (n : nat) (s s' : SeekUtils D) : Prop := mkAdds {
  adds_frames : exists k, length k = n /\ mTargetFrames s' = mTargetFrames s ++ k;
  adds_previous : mPreviousTargetIndex s' = mPreviousTargetIndex s;
  adds_eos : mbEOSreached s = true -> mbEOSreached s' = true;
  adds_calls : exists evs, calls s' = calls s ++ evs /\ seek_calls evs = []
}.

(** [c] returns from every state, and [Q] relates the state before, the
    value returned and the state after. *)
Definition hoare {A} (c : M D A)
    (Q : SeekUtils D -> A -> SeekUtils D -> Prop) : Prop :=
  forall s, exists a s', c s = Some (a, s') /\ Q s a s'.

(** [f a] frames are added when [a] is returned, and the end of the stream
    is marked when [g a] holds. *)
Definition Post {A} (f : A -> nat) (g : A -> bool)
  : SeekUtils D -> A -> SeekUtils D -> Prop :=
  fun s a s' => Adds (f a) s s' /\ (g a = true -> mbEOSreached s' = true).

Definition keeps {A} (c : M D A) : Prop :=
  hoare c (Post (fun _ => 0%nat) (fun _ => false)).

Definition found_count (bTargetFrameFound : bool) : nat :=
  if bTargetFrameFound then 1%nat else 0%nat.

(** The body of the loop over the indices from the computation of
    [targetValue] on, that is, once the seek has been made or left out. *)
Definition resolve_from (currentTargetIndex : Z) : M D unit :=
  bind get (fun s =>
    let targetValue :=
      to_int32 (to_uint32 (currentTargetIndex - mFramesDecodedTillNow s)) in
    bind (if targetValue <? 0 then from_pending targetValue
          else bind (modify (set_mPendingFrames [])) (fun _ => ret (false, targetValue)))
      (fun '(bTargetFrameFound, targetValue) =>
         bind (if bTargetFrameFound then ret true
               else bind get (fun s =>
                      while_not_found (packets (mDemuxer s)) false targetValue))
           (fun bTargetFrameFound =>
              when bTargetFrameFound
                (modify (set_mPreviousTargetIndex (to_int32 currentTargetIndex)))))).

(** The seeker after the seek decision for [currentTargetIndex], the
    key-frame lookup having given [timestamp] and the demuxer's Seek, when
    it was called, having returned and left the demuxer [sought]. *)
Definition after_seek_decision (seek : bool) (currentTargetIndex timestamp : Z)
    (sought : FFmpegDemuxer) (s : SeekUtils D) : SeekUtils D :=
  if seek then
    set_mPreviouslyDecodedFramesPTS []
      (set_mPendingFrames []
         (set_mbDiscontinuityFlag true
            (set_mFramesDecodedTillNow (to_uint32 timestamp)
               (set_calls (calls s ++ [EvSeek currentTargetIndex])
                  (set_mDemuxer sought s)))))
  else set_mbDiscontinuityFlag false s.

End WithDecoder.
End SeekerObs.

(** ** SeekUtils.cpp: GetFramesByBatch *)
Module Batch.
Import CInt Collab Seeker.

(** [for (; start < end; start++)] with its test on [start]; [turns] is
    the number of turns, [end - start] when that is positive. *)
Fixpoint batch_loop (turns : nat) (start numFrames : Z) : list Z :=
  match turns with
  | O => []
  | S turns' =>
      (if (0 <=? start) && (start <? numFrames) then [start] else [])
      ++ batch_loop turns' (to_uint32 (start + 1)) numFrames
  end.

(** The indices GetFramesByBatch asks for: [mPreviousTargetIndex] is an
    [int32_t], [batchsize], [start], [end] and [numFrames] are
    [uint32_t]. *)
Definition batch_indices (mPreviousTargetIndex batchsize numFrames : Z)
    (bSeekToIndexSet : bool) : list Z :=
  let start :=
    if bSeekToIndexSet then to_uint32 mPreviousTargetIndex
    else to_uint32 (mPreviousTargetIndex + 1) in
  let end_ :=
    if bSeekToIndexSet then to_uint32 (mPreviousTargetIndex + batchsize)
    else to_uint32 (mPreviousTargetIndex + batchsize + 1) in
  batch_loop (Z.to_nat (end_ - start)) start numFrames.

Section WithDecoder.
Context {D : Type} `{NvDecoder D}.

(** [SeekUtils::GetFramesByBatch(batchsize)]; [numFrames] is what
    [mDemuxer->GetStreamMetadata()] reports.  The initialiser
    [mPreviousTargetIndex + 1] is an [int] addition, which has no defined
    result at INT_MAX. *)
Definition GetFramesByBatch (batchsize numFrames : Z) : M D (list DecodedFrame) :=
  bind get (fun s =>
    if mPreviousTargetIndex s =? 2 ^ 31 - 1 then undefined
    else
      bind (when (bSeekToIndexSet s) (modify (set_bSeekToIndexSet false)))
        (fun _ =>
           GetFramesByIdxList
             (batch_indices (mPreviousTargetIndex s) batchsize numFrames
                            (bSeekToIndexSet s)))).

End WithDecoder.
End Batch.

(** ** NvDecoder.cpp: the pool of frame buffers behind GetFrame,
    GetLockedFrame, UnlockFrame and UnlockLockedFrames *)
Module FramePool.
Import CInt.

Section Pool.
(** [SEI_MESSAGE] and its value-initialised element. *)
Context {SEI : Type} (SEI_empty : SEI).

(** The members of [NvDecoder] these functions read and write.  Frame
    pointers and events are integers. *)
Record NvFrames : Type := mkNvFrames {
  m_vpFrame : list Z;
  m_DecodedFrameEvent : list Z;
  m_vTimestamp : list Z;
  m_LockedFrames : list Z;          (* std::deque<uint8_t*> *)
  m_LockedEvents : list Z;          (* std::deque<CUevent> *)
  m_vSEIMessage : list SEI;
  m_nDecodedFrame : Z;              (* int *)
  m_nDecodedFrameReturned : Z;      (* int *)
  m_bExtractSEIMessage : bool
}.

(** What a frame getter writes and returns: the frame pointer, the
    timestamp and the event. *)
Record FrameOut : Type := mkFrameOut {
  out_frame : Z; out_timestamp : Z; out_event : Z
}.

(** [v[i]]; [None] for an index outside the vector. *)
Definition at_index {A} (v : list A) (i : Z) : option A :=
  if i <? 0 then None else v !! Z.to_nat i.

(** [NvDecoder::GetFrame(&timestamp, &sei, &event)], all three pointers
    given as SeekUtils::GetFrame gives them.  The outer [None] is a read
    outside a vector; the inner [None] is the NULL return. *)
Definition GetFrame (d : NvFrames) : option (option FrameOut * NvFrames) :=
  if 0 <? m_nDecodedFrame d then
    let r := m_nDecodedFrameReturned d in
    match at_index (m_vTimestamp d) r,
          (if m_bExtractSEIMessage d then at_index (m_vSEIMessage d) r
           else Some SEI_empty),
          at_index (m_DecodedFrameEvent d) r,
          at_index (m_vpFrame d) r with
    | Some ts, Some _, Some ev, Some pFrame =>
        if r =? 2 ^ 31 - 1 then None   (* [int] overflow of the counter *)
        else
        Some (Some (mkFrameOut pFrame ts ev),
              {| m_vpFrame := m_vpFrame d;
                 m_DecodedFrameEvent := m_DecodedFrameEvent d;
                 m_vTimestamp := m_vTimestamp d;
                 m_LockedFrames := m_LockedFrames d;
                 m_LockedEvents := m_LockedEvents d;
                 m_vSEIMessage := m_vSEIMessage d;
                 m_nDecodedFrame := m_nDecodedFrame d - 1;
                 m_nDecodedFrameReturned := r + 1;
                 m_bExtractSEIMessage := m_bExtractSEIMessage d |})
    | _, _, _, _ => None
    end
  else Some (None, d).

(** [NvDecoder::GetLockedFrame(&timestamp, &sei, &event)]. *)
Definition GetLockedFrame (d : NvFrames) : option (option FrameOut * NvFrames) :=
  if 0 <? m_nDecodedFrame d then
    match m_vpFrame d, m_DecodedFrameEvent d, m_vTimestamp d,
          (if m_bExtractSEIMessage d then m_vSEIMessage d else [SEI_empty]) with
    | pFrame :: frames, event :: events, timestamp :: timestamps, _ :: _ =>
        Some (Some (mkFrameOut pFrame timestamp event),
              {| m_vpFrame := frames;
                 m_DecodedFrameEvent := events;
                 m_vTimestamp := timestamps;
                 m_LockedFrames := m_LockedFrames d ++ [pFrame];
                 m_LockedEvents := m_LockedEvents d ++ [event];
                 m_vSEIMessage :=
                   (if m_bExtractSEIMessage d then tail (m_vSEIMessage d)
                    else m_vSEIMessage d);
                 m_nDecodedFrame := m_nDecodedFrame d - 1;
                 m_nDecodedFrameReturned := m_nDecodedFrameReturned d;
                 m_bExtractSEIMessage := m_bExtractSEIMessage d |})
    | _, _, _, _ => None
    end
  else Some (None, d).

(** The loop of [UnlockFrame] (the one-pointer overload) over the two
    deques in step: the
    event of the first locked frame equal to [pFrame] and the deques
    without that pair, if there is one before either deque ends. *)
Fixpoint unlock_scan (pFrame : Z) (lockedFrames lockedEvents : list Z)
  : option (Z * list Z * list Z) :=
  match lockedFrames, lockedEvents with
  | f :: frames, e :: events =>
      if f =? pFrame then Some (e, frames, events)
      else
        match unlock_scan pFrame frames events with
        | Some (ev, frames', events') => Some (ev, f :: frames', e :: events')
        | None => None
        end
  | _, _ => None
  end.

(** [NvDecoder::UnlockFrame] for one frame pointer [pFrame]. *)
Definition UnlockFrame (pFrame : Z) (d : NvFrames) : NvFrames :=
  let seiMessages :=
    if m_bExtractSEIMessage d then m_vSEIMessage d ++ [SEI_empty]
    else m_vSEIMessage d in
  match unlock_scan pFrame (m_LockedFrames d) (m_LockedEvents d) with
  | Some (event, lockedFrames, lockedEvents) =>
      {| m_vpFrame := m_vpFrame d ++ [pFrame];
         m_DecodedFrameEvent := m_DecodedFrameEvent d ++ [event];
         m_vTimestamp := m_vTimestamp d ++ [0];
         m_LockedFrames := lockedFrames;
         m_LockedEvents := lockedEvents;
         m_vSEIMessage := seiMessages;
         m_nDecodedFrame := m_nDecodedFrame d;
         m_nDecodedFrameReturned := m_nDecodedFrameReturned d;
         m_bExtractSEIMessage := m_bExtractSEIMessage d |}
  | None =>
      {| m_vpFrame := m_vpFrame d;
         m_DecodedFrameEvent := m_DecodedFrameEvent d;
         m_vTimestamp := m_vTimestamp d;
         m_LockedFrames := m_LockedFrames d;
         m_LockedEvents := m_LockedEvents d;
         m_vSEIMessage := seiMessages;
         m_nDecodedFrame := m_nDecodedFrame d;
         m_nDecodedFrameReturned := m_nDecodedFrameReturned d;
         m_bExtractSEIMessage := m_bExtractSEIMessage d |}
  end.

(** [NvDecoder::UnlockLockedFrames(uint32_t size)], for [size] already a
    [uint32_t]. *)
Definition UnlockLockedFrames (size : Z) (d : NvFrames) : NvFrames :=
  let size :=
    if Z.of_nat (length (m_LockedFrames d)) <? size
    then to_uint32 (Z.of_nat (length (m_LockedFrames d))) else size in
  let size :=
    if Z.of_nat (length (m_LockedEvents d)) <? size
    then to_uint32 (Z.of_nat (length (m_LockedEvents d))) else size in
  let n := Z.to_nat size in
  {| m_vpFrame := m_vpFrame d ++ take n (m_LockedFrames d);
     m_DecodedFrameEvent := m_DecodedFrameEvent d ++ take n (m_LockedEvents d);
     m_vTimestamp := m_vTimestamp d ++ replicate n 0;
     m_LockedFrames := drop n (m_LockedFrames d);
     m_LockedEvents := drop n (m_LockedEvents d);
     m_vSEIMessage :=
       (if m_bExtractSEIMessage d then m_vSEIMessage d ++ replicate n SEI_empty
        else m_vSEIMessage d);
     m_nDecodedFrame := m_nDecodedFrame d;
     m_nDecodedFrameReturned := m_nDecodedFrameReturned d;
     m_bExtractSEIMessage := m_bExtractSEIMessage d |}.

(** The vectors that run in step have equal lengths. *)
Record Aligned (d : NvFrames) : Prop := mkAligned {
  aligned_events : length (m_DecodedFrameEvent d) = length (m_vpFrame d);
  aligned_timestamps : length (m_vTimestamp d) = length (m_vpFrame d);
  aligned_locked : length (m_LockedEvents d) = length (m_LockedFrames d)
}.

(** Every buffer the decoder owns, with its event: the free ones, then
    the locked ones. *)
Definition owned (d : NvFrames) : list (Z * Z) :=
  zip (m_vpFrame d) (m_DecodedFrameEvent d)
  ++ zip (m_LockedFrames d) (m_LockedEvents d).

(** A caller's use of the pool, one call after the other. *)
Inductive PoolOp : Type :=
| CallGetFrame
| CallGetLockedFrame
| CallUnlockFrame (pFrame : Z)
| CallUnlockLockedFrames (size : Z).

Definition pool_step (op : PoolOp) (d : NvFrames) : option NvFrames :=
  match op with
  | CallGetFrame => snd <$> GetFrame d
  | CallGetLockedFrame => snd <$> GetLockedFrame d
  | CallUnlockFrame pFrame => Some (UnlockFrame pFrame d)
  | CallUnlockLockedFrames size => Some (UnlockLockedFrames (to_uint32 size) d)
  end.

Fixpoint pool_run (ops : list PoolOp) (d : NvFrames) : option NvFrames :=
  match ops with
  | [] => Some d
  | op :: ops' =>
      match pool_step op d with
      | Some d' => pool_run ops' d'
      | None => None
      end
  end.

(** [GetLockedFrame] called [n] times, keeping the frames it returns: the
    loop of RunDecoder over the frames one Decode call produced. *)
Fixpoint lock_frames (n : nat) (d : NvFrames)
  : option (list FrameOut * NvFrames) :=
  match n with
  | O => Some ([], d)
  | S n' =>
      match GetLockedFrame d with
      | None => None
      | Some (r, d1) =>
          match lock_frames n' d1 with
          | None => None
          | Some (outs, d2) => Some (option_list r ++ outs, d2)
          end
      end
  end.

(** Unlocking frame after frame, as SeekUtils::UnlockFrames does. *)
Definition unlock_each (frames : list Z) (d : NvFrames) : NvFrames :=
  foldl (fun d pFrame => UnlockFrame pFrame d) d frames.

End Pool.
Arguments NvFrames SEI : clear implicits.
End FramePool.

(** ** ThreadedDecoder.cpp: the consumer's side, GetBatchFrames and the
    part of End that follows the join of the decoder thread *)
Module Consumer.
Import CInt SPSC Collab FramePool.

Section WithSEI.
Context {SEI : Type} (SEI_empty : SEI).

(** The members of [ThreadedDecoder] the consumer's calls use;
    [mDecoder] is the decoder behind [mDecoderCommon]. *)
Record ThreadedDecoder : Type := mkThreadedDecoder {
  mDecoder : NvFrames SEI;
  mDecodedFrames : SPSCBuffer DecodedFrame;
  mPrevBatchSize : Z                         (* uint32_t *)
}.

(** [ThreadedDecoder::GetBatchFrames(batchSize)].  The frames of the
    previous batch are unlocked before PopEntries is called, so they are
    unlocked also when PopEntries waits or throws, and [mPrevBatchSize] is
    assigned only when PopEntries returns. *)
Definition GetBatchFrames (batchSize : Z) (t : ThreadedDecoder)
  : Outcome ThreadedDecoder (list DecodedFrame) :=
  let decoder := UnlockLockedFrames SEI_empty (mPrevBatchSize t) (mDecoder t) in
  match PopEntries DecodedFrame_zero batchSize (mDecodedFrames t) with
  | Returned b frames =>
      Returned (mkThreadedDecoder decoder b (to_uint32 (Z.of_nat (length frames))))
               frames
  | Waiting b => Waiting (mkThreadedDecoder decoder b (mPrevBatchSize t))
  | Thrown b what => Thrown (mkThreadedDecoder decoder b (mPrevBatchSize t)) what
  end.

(** [ThreadedDecoder::End()] from the statement after
    [mDecoderThread.join()] to [mDecodedFrames.Clear()]; [None] when
    [GetBatchFrames(0)] does not return. *)
Definition End_after_join (t : ThreadedDecoder) : option ThreadedDecoder :=
  match GetBatchFrames 0 t with
  | Returned t1 _ =>
      Some (mkThreadedDecoder
              (UnlockLockedFrames SEI_empty (mPrevBatchSize t1) (mDecoder t1))
              (Clear (mDecodedFrames t1))
              0)
  | _ => None
  end.

(** The locked frames of the decoder are the frames of the batch the
    caller holds, then the frames waiting in the channel, then the frames
    [producer] the decoder thread has locked and not yet pushed. *)
Definition Linked (held : list DecodedFrame) (producer : list Z)
    (t : ThreadedDecoder) : Prop :=
  m_LockedFrames (mDecoder t)
  = (extBuf_data <$> (held ++ contents DecodedFrame_zero (mDecodedFrames t)))
    ++ producer.

End WithSEI.
Arguments ThreadedDecoder SEI : clear implicits.
End Consumer.

(** A pool with three free frame buffers and one locked one. *)
Module SamplePool.
Import FramePool.

Definition sample_pool : NvFrames unit :=
  {| m_vpFrame := [100; 200; 300];
     m_DecodedFrameEvent := [1; 2; 3];
     m_vTimestamp := [10; 20; 30];
     m_LockedFrames := [400];
     m_LockedEvents := [4];
     m_vSEIMessage := [tt; tt; tt];
     m_nDecodedFrame := 2;
     m_nDecodedFrameReturned := 0;
     m_bExtractSEIMessage := true |}.

(** A consumer that holds a batch of one frame (buffer 400) while one
    more frame (buffer 500) waits in a channel of capacity 2. *)
Definition sample_frame (pFrame : Z) : Collab.DecodedFrame :=
  Collab.mkDecodedFrame pFrame pFrame.

Definition sample_consumer : Consumer.ThreadedDecoder unit :=
  {| Consumer.mDecoder :=
       {| m_vpFrame := [100];
          m_DecodedFrameEvent := [1];
          m_vTimestamp := [10];
          m_LockedFrames := [400; 500];
          m_LockedEvents := [4; 5];
          m_vSEIMessage := [];
          m_nDecodedFrame := 0;
          m_nDecodedFrameReturned := 0;
          m_bExtractSEIMessage := false |};
     Consumer.mDecodedFrames :=
       SPSC.run Collab.DecodedFrame_zero [SPSC.OpPush (sample_frame 500)]
                (SPSC.SPSCBuffer_new Collab.DecodedFrame_zero 2);
     Consumer.mPrevBatchSize := 1 |}.

End SamplePool.

(* ===================================================================== *)
(** * Properties                                                          *)
(* ===================================================================== *)

Module SPSCFacts.
Import CInt SPSC.

Section Facts.
Context {T : Type} (d : T).
Implicit Types (s : SPSCBuffer T) (x : T).

Lemma to_uint32_small z : 0 <= z < 2 ^ 32 -> to_uint32 z = z.
Proof. intros. unfold to_uint32. apply Z.mod_small. lia. Qed.

Lemma Inv_new size : 0 <= size -> Inv (SPSCBuffer_new d size).
Proof.
  intros Hs. unfold SPSCBuffer_new.
  assert (Hm := Z.mod_pos_bound size (2 ^ 32) ltac:(lia)).
  assert (to_uint32 size <= size).
  { unfold to_uint32. apply Z.mod_le; lia. }
  constructor; simpl; unfold to_uint32 in *; rewrite ?length_replicate; try lia.
  intros. rewrite Z.mod_small; lia.
Qed.

Lemma pop_one_spec s acc :
  Inv s -> 0 < mCount s ->
  let s' := fst (pop_one d s acc) in
  snd (pop_one d s acc) = acc ++ [buffer_at d (mBuffer s) (mTail s)]
  /\ Inv s'
  /\ mCount s' = mCount s - 1
  /\ mTail s' = (mTail s + 1) mod mCapacity s
  /\ mHead s' = mHead s /\ mDrain s' = mDrain s
  /\ mBuffer s' = mBuffer s /\ mCapacity s' = mCapacity s.
Proof.
  intros [Hc H32 Hb [Hh0 Hh] [Ht0 Ht] Hr Hz] Hpos. simpl.
  assert (Hcap : 0 < mCapacity s) by lia.
  specialize (Hh Hcap). specialize (Ht Hcap). specialize (Hr Hcap).
  rewrite !to_uint32_small by lia.
  assert (Hm := Z.mod_pos_bound (mTail s + 1) (mCapacity s) Hcap).
  split_and!; try reflexivity.
  constructor; simpl; try lia.
  intros _. rewrite Zplus_mod_idemp_l. rewrite Hr. f_equal. lia.
Qed.

Lemma contents_cons s :
  Inv s -> 0 < mCount s ->
  contents d s
  = buffer_at d (mBuffer s) (mTail s) :: contents d (fst (pop_one d s [])).
Proof.
  intros HI Hpos.
  destruct (pop_one_spec s [] HI Hpos) as (_ & _ & Hc & Htl & _ & _ & Hbuf & Hcap).
  destruct HI as [Hcnt H32 Hb [Hh0 Hh] [Ht0 Ht] Hr Hz].
  assert (Hcp : 0 < mCapacity s) by lia. specialize (Ht Hcp).
  unfold contents. rewrite Hc, Htl, Hbuf, Hcap.
  replace (Z.to_nat (mCount s)) with (S (Z.to_nat (mCount s - 1))) by lia.
  simpl seq. simpl map. f_equal.
  - f_equal. rewrite Z.add_0_r. apply Z.mod_small. lia.
  - rewrite <- seq_shift, map_map. apply map_ext. intros i.
    f_equal. rewrite Zplus_mod_idemp_l. f_equal. lia.
Qed.

Lemma pop_loop_spec n : forall s acc,
  Inv s -> Z.of_nat n <= mCount s ->
  exists s',
    pop_loop d n s acc = (s', acc ++ take n (contents d s))
    /\ Inv s'
    /\ mCount s' = mCount s - Z.of_nat n
    /\ (0 < mCapacity s -> mTail s' = (mTail s + Z.of_nat n) mod mCapacity s)
    /\ mHead s' = mHead s /\ mDrain s' = mDrain s
    /\ mBuffer s' = mBuffer s /\ mCapacity s' = mCapacity s
    /\ contents d s' = drop n (contents d s).
Proof.
  induction n as [|n IH]; intros s acc HI Hn.
  - exists s. simpl. rewrite app_nil_r, drop_0.
    split_and!; try lia; auto.
    intros Hcap. destruct HI as [_ _ _ _ [Ht0 Ht] _ _].
    rewrite Z.add_0_r, Z.mod_small; [reflexivity | split; auto].
  - assert (Hpos : 0 < mCount s) by lia.
    pose proof (pop_one_spec s acc HI Hpos) as Hone.
    rewrite (contents_cons s HI Hpos).
    change (fst (pop_one d s [])) with (fst (pop_one d s acc)).
    change (pop_loop d (S n) s acc)
      with (let '(s1, e1) := pop_one d s acc in pop_loop d n s1 e1).
    destruct (pop_one d s acc) as [s1 e1]. cbn [fst snd] in *.
    destruct Hone as (He & HI1 & Hc1 & Ht1 & Hh1 & Hd1 & Hb1 & Hcap1).
    subst e1.
    destruct (IH s1 (acc ++ [buffer_at d (mBuffer s) (mTail s)]) HI1 ltac:(lia))
      as (s' & Hrun & HI' & Hc' & Ht' & Hh' & Hd' & Hb' & Hcap' & Hcont).
    exists s'. rewrite Hrun, <- app_assoc. cbn [take drop app].
    split_and!; auto; try congruence; try lia.
    intros Hcap. rewrite Ht' by lia. rewrite Ht1, Hcap1.
    rewrite Zplus_mod_idemp_l. f_equal. lia.
Qed.

Lemma ring_slot_distinct c t i k :
  0 < c -> 0 <= i < k -> k < c -> (t + i) mod c <> (t + k) mod c.
Proof.
  intros Hc Hi Hk E.
  assert (H : (t + k - (t + i)) mod c = 0).
  { rewrite Zminus_mod, E, Z.sub_diag. apply Z.mod_0_l. lia. }
  replace (t + k - (t + i)) with (k - i) in H by lia.
  rewrite Z.mod_small in H; lia.
Qed.

Lemma PushEntry_spec x s :
  Inv s -> mCount s < mCapacity s ->
  exists s',
    PushEntry x s = Returned s' true
    /\ Inv s'
    /\ mHead s' = (mHead s + 1) mod mCapacity s
    /\ mTail s' = mTail s
    /\ mCount s' = mCount s + 1
    /\ mDrain s' = mDrain s
    /\ mCapacity s' = mCapacity s
    /\ contents d s' = contents d s ++ [x].
Proof.
  intros [Hc H32 Hb [Hh0 Hh] [Ht0 Ht] Hr Hz] Hlt.
  assert (Hcap : 0 < mCapacity s) by lia.
  specialize (Hh Hcap). specialize (Ht Hcap). specialize (Hr Hcap).
  unfold PushEntry. destruct (Z.ltb_spec (mCount s) (mCapacity s)); [|lia].
  rewrite !to_uint32_small by lia.
  assert (Hm := Z.mod_pos_bound (mHead s + 1) (mCapacity s) Hcap).
  eexists. split; [reflexivity|].
  split_and!; try reflexivity.
  - constructor; simpl; rewrite ?length_insert; try lia.
    intros _. rewrite Hr, Zplus_mod_idemp_l. f_equal. lia.
  - unfold contents; simpl.
    replace (Z.to_nat (mCount s + 1)) with (S (Z.to_nat (mCount s))) by lia.
    rewrite seq_S, map_app. simpl. f_equal.
    + apply map_ext_in. intros i Hi. apply in_seq in Hi.
      unfold buffer_at. rewrite list_lookup_insert_ne; [reflexivity|].
      intros E. apply Z2Nat.inj in E; try lia.
      * rewrite Hr in E. symmetry in E. revert E.
        apply ring_slot_distinct; lia.
      * apply Z.mod_pos_bound. lia.
    + f_equal. unfold buffer_at.
      rewrite Z2Nat.id, <- Hr by lia.
      rewrite list_lookup_insert_eq; [reflexivity | lia].
Qed.

Lemma PushEntry_full x s :
  mCapacity s <= mCount s -> PushEntry x s = Waiting s.
Proof.
  intros H. unfold PushEntry.
  destruct (Z.ltb_spec (mCount s) (mCapacity s)); [lia | reflexivity].
Qed.

(** What a pop that returns does: the size of the batch it settles on,
    and the state it leaves. *)
Lemma PopEntries_returns batchSize s n :
  Inv s -> batchSize <= mCapacity s ->
  0 <= n <= mCount s ->
  (let b1 := if batchSize =? 0 then mCount s else batchSize in
   ((b1 <=? mCount s) || mDrain s = true)
   /\ (if mDrain s && (mCount s <? b1) then mCount s else b1) = n) ->
  exists s',
    PopEntries d batchSize s = Returned s' (take (Z.to_nat n) (contents d s))
    /\ Inv s'
    /\ mCount s' = mCount s - n
    /\ (0 < mCapacity s -> mTail s' = (mTail s + n) mod mCapacity s)
    /\ mHead s' = mHead s /\ mDrain s' = mDrain s
    /\ mBuffer s' = mBuffer s /\ mCapacity s' = mCapacity s
    /\ contents d s' = drop (Z.to_nat n) (contents d s).
Proof.
  intros HI Hle Hn [Hgo Hb2]. unfold PopEntries.
  destruct (Z.ltb_spec (mCapacity s) batchSize); [lia|].
  rewrite Hgo, Hb2.
  destruct (pop_loop_spec (Z.to_nat n) s [] HI ltac:(lia))
    as (s' & Hrun & HI' & Hc' & Ht' & Hrest).
  exists s'. rewrite Hrun. simpl.
  rewrite Z2Nat.id in * by lia. auto.
Qed.

Lemma PopEntries_Inv batchSize s :
  Inv s -> Inv (state_of (PopEntries d batchSize s)).
Proof.
  intros HI. unfold PopEntries.
  destruct (Z.ltb_spec (mCapacity s) batchSize); [exact HI|].
  set (b1 := if batchSize =? 0 then mCount s else batchSize).
  destruct ((b1 <=? mCount s) || mDrain s) eqn:Ego; [|exact HI].
  set (b2 := if mDrain s && (mCount s <? b1) then mCount s else b1).
  assert (Hb2 : Z.of_nat (Z.to_nat b2) <= mCount s).
  { pose proof (inv_count s HI). subst b2.
    destruct (mDrain s) eqn:Ed; simpl in *.
    - destruct (Z.ltb_spec (mCount s) b1); lia.
    - rewrite orb_false_r in Ego. apply Z.leb_le in Ego. lia. }
  destruct (pop_loop_spec (Z.to_nat b2) s [] HI Hb2) as (s' & Hrun & HI' & _).
  rewrite Hrun. exact HI'.
Qed.

Lemma step_Inv s o : Inv s -> Inv (step d s o).
Proof.
  intros HI. destruct o as [x| |b|]; simpl.
  - destruct (Z.lt_ge_cases (mCount s) (mCapacity s)) as [Hlt|Hge].
    + destruct (PushEntry_spec x s HI Hlt) as (s' & -> & HI' & _). exact HI'.
    + rewrite PushEntry_full by lia. exact HI.
  - destruct HI. constructor; simpl; auto.
  - apply PopEntries_Inv, HI.
  - destruct HI as [Hc H32 Hb _ _ _ _].
    constructor; simpl; try lia.
    intros Hcap. rewrite Z.mod_0_l; lia.
Qed.

Lemma run_Inv ops : forall s, Inv s -> Inv (run d ops s).
Proof.
  induction ops as [|o ops IH]; intros s HI; simpl; [exact HI|].
  apply IH, step_Inv, HI.
Qed.

Lemma inv_count_bounds s : Inv s -> 0 <= mCount s <= mCapacity s.
Proof. intros HI. apply (inv_count s HI). Qed.

Lemma length_contents s : length (contents d s) = Z.to_nat (mCount s).
Proof. unfold contents. rewrite length_map, length_seq. reflexivity. Qed.

Lemma PopEntries_Returned_inv batchSize s s' entries :
  Inv s -> PopEntries d batchSize s = Returned s' entries ->
  exists n,
    0 <= n <= mCount s
    /\ entries = take (Z.to_nat n) (contents d s)
    /\ Z.of_nat (length entries) = n
    /\ Inv s'
    /\ mCount s' = mCount s - n
    /\ (0 < mCapacity s -> mTail s' = (mTail s + n) mod mCapacity s)
    /\ mHead s' = mHead s /\ mDrain s' = mDrain s
    /\ mBuffer s' = mBuffer s /\ mCapacity s' = mCapacity s.
Proof.
  intros HI. unfold PopEntries.
  destruct (Z.ltb_spec (mCapacity s) batchSize); [discriminate|].
  set (b1 := if batchSize =? 0 then mCount s else batchSize).
  destruct ((b1 <=? mCount s) || mDrain s) eqn:Ego; [|discriminate].
  set (b2 := if mDrain s && (mCount s <? b1) then mCount s else b1).
  pose proof (inv_count s HI) as Hcnt.
  assert (Hb2 : Z.of_nat (Z.to_nat b2) <= mCount s).
  { subst b2. destruct (mDrain s) eqn:Ed; simpl in *.
    - destruct (Z.ltb_spec (mCount s) b1); lia.
    - rewrite orb_false_r in Ego. apply Z.leb_le in Ego. lia. }
  destruct (pop_loop_spec (Z.to_nat b2) s [] HI Hb2)
    as (s1 & Hrun & HI' & Hc' & Ht' & Hh' & Hd' & Hb' & Hcap' & _).
  rewrite Hrun. intros E. inversion E; subst s1 entries. clear E.
  exists (Z.of_nat (Z.to_nat b2)).
  rewrite Nat2Z.id. simpl.
  split_and!; auto; try lia.
  rewrite length_take, length_contents. lia.
Qed.

Lemma step_drain_kept s o :
  o <> OpClear -> mDrain s = true -> Inv s -> mDrain (step d s o) = true.
Proof.
  intros Hne Hd HI. destruct o as [x| |b|]; simpl; try congruence.
  - unfold PushEntry. destruct (mCount s <? mCapacity s); exact Hd.
  - destruct (PopEntries d b s) as [s' e|s'|s' m] eqn:E; simpl.
    + destruct (PopEntries_Returned_inv b s s' e HI E)
        as (n & _ & _ & _ & _ & _ & _ & _ & Hd' & _). congruence.
    + unfold PopEntries in E.
      destruct (mCapacity s <? b); [discriminate|].
      destruct (_ || _); [|congruence].
      destruct (pop_loop _ _ _ _); discriminate.
    + unfold PopEntries in E.
      destruct (mCapacity s <? b); [congruence|].
      destruct (_ || _); [|discriminate].
      destruct (pop_loop _ _ _ _); discriminate.
Qed.

(** C1. Every state the channel reaches from its constructor by Push,
    PushDone, Pop and Clear calls keeps [0 <= count <= capacity]; head and
    tail are ring indices that advance modulo the capacity (head is
    [count] slots ahead of tail; a push moves head by one, a pop moves
    tail by the number of entries returned); no call other than Clear
    turns a set drain flag off, PushDone turns it on and Clear resets it
    together with head, tail and count. *)
Theorem C1_channel_invariant (size : Z) (ops : list (Op T)) :
  0 <= size ->
  let s := run d ops (SPSCBuffer_new d size) in
  0 <= mCount s <= mCapacity s
  /\ (0 < mCapacity s ->
      0 <= mHead s < mCapacity s /\ 0 <= mTail s < mCapacity s
      /\ mHead s = (mTail s + mCount s) mod mCapacity s)
  /\ (forall x s' r, PushEntry x s = Returned s' r ->
        mHead s' = (mHead s + 1) mod mCapacity s /\ mTail s' = mTail s
        /\ mCount s' = mCount s + 1 /\ mDrain s' = mDrain s)
  /\ (forall b s' entries, PopEntries d b s = Returned s' entries ->
        (0 < mCapacity s ->
         mTail s' = (mTail s + Z.of_nat (length entries)) mod mCapacity s)
        /\ mHead s' = mHead s
        /\ mCount s' = mCount s - Z.of_nat (length entries)
        /\ mDrain s' = mDrain s)
  /\ (forall o, o <> OpClear -> mDrain s = true -> mDrain (step d s o) = true)
  /\ mDrain (PushDone s) = true
  /\ (mDrain (Clear s) = false /\ mHead (Clear s) = 0
      /\ mTail (Clear s) = 0 /\ mCount (Clear s) = 0).
Proof.
  intros Hsize s.
  assert (HI : Inv s) by (apply run_Inv, Inv_new, Hsize).
  split; [apply (inv_count s HI)|].
  split; [|split; [|split; [|split; [|split; [reflexivity | repeat split]]]]].
  - intros Hcap. destruct HI as [? ? ? [? Hh] [? Ht] Hr ?].
    specialize (Hh Hcap). specialize (Ht Hcap). specialize (Hr Hcap). lia.
  - intros x s' r E.
    destruct (Z.lt_ge_cases (mCount s) (mCapacity s)) as [Hlt|Hge].
    + destruct (PushEntry_spec x s HI Hlt) as (s1 & E1 & _ & Hh & Ht & Hc & Hd & _).
      rewrite E1 in E. inversion E; subst s1. auto.
    + rewrite PushEntry_full in E by lia. discriminate.
  - intros b s' entries E.
    destruct (PopEntries_Returned_inv b s s' entries HI E)
      as (n & _ & _ & Hlen & _ & Hc & Ht & Hh & Hd & _).
    rewrite Hlen. auto.
  - intros o Hne Hd. apply step_drain_kept; auto.
Qed.

(** C7. A batch size above the capacity makes PopEntries throw
    [std::runtime_error] (the request is not clamped to the capacity),
    and the state it throws from is the state it was called on: head,
    tail, count, drain flag and buffer are the same. *)
Theorem C7_oversized_batch_throws (s : SPSCBuffer T) (batchSize : Z) :
  mCapacity s < batchSize ->
  PopEntries d batchSize s
  = Thrown s (batchSize_message batchSize (mCapacity s))
  /\ (forall s' entries, PopEntries d batchSize s <> Returned s' entries)
  /\ PopEntries d batchSize s <> Waiting s
  /\ state_of (PopEntries d batchSize s) = s.
Proof.
  intros Hgt. unfold PopEntries.
  destruct (Z.ltb_spec (mCapacity s) batchSize); [|lia].
  split_and!; [reflexivity | discriminate | discriminate | reflexivity].
Qed.

(** C2. With the drain flag set and fewer than [batchSize] items
    buffered, a pop of a legal [batchSize] does not wait: it returns
    exactly the buffered items, oldest first, and leaves the channel
    empty.  With capacity 4, two pushes and PushDone, Pop(4) returns
    the two items pushed, and a following pop of any size up to the
    capacity returns no item. *)
Theorem C2_drain_short_batch (s : SPSCBuffer T) (batchSize : Z) (a b : T) (k : Z) :
  Inv s -> mDrain s = true ->
  mCount s < batchSize <= mCapacity s ->
  0 <= k <= 4 ->
  (exists s',
      PopEntries d batchSize s = Returned s' (contents d s)
      /\ Z.of_nat (length (contents d s)) = mCount s
      /\ mCount s' = 0 /\ mDrain s' = true)
  /\ (let s2 := run d [OpPush a; OpPush b; OpPushDone] (SPSCBuffer_new d 4) in
      exists s3 s4,
        PopEntries d 4 s2 = Returned s3 [a; b]
        /\ PopEntries d k s3 = Returned s4 []).
Proof.
  intros HI Hd Hb Hk.
  pose proof (inv_count s HI) as Hcnt.
  split.
  - destruct (PopEntries_returns batchSize s (mCount s) HI ltac:(lia) ltac:(lia))
      as (s' & E & _ & Hc & _ & _ & Hd' & _).
    { simpl. rewrite Hd, orb_true_r. split; [reflexivity|].
      destruct (Z.eqb_spec batchSize 0); simpl.
      - rewrite Z.ltb_irrefl. reflexivity.
      - destruct (Z.ltb_spec (mCount s) batchSize); [reflexivity | lia]. }
    exists s'. rewrite E, firstn_all2 by (rewrite length_contents; lia).
    split_and!; [reflexivity | rewrite length_contents; lia | lia | congruence].
  - intros s2.
    assert (E3 : exists s3, PopEntries d 4 s2 = Returned s3 [a; b]
                            /\ Inv s3 /\ mCount s3 = 0 /\ mDrain s3 = true
                            /\ mCapacity s3 = 4).
    { assert (HI2 : Inv s2) by (apply run_Inv, Inv_new; lia).
      destruct (PopEntries_returns 4 s2 2 HI2)
        as (s3 & E & HI3 & Hc3 & _ & _ & Hd3 & _ & Hcap3 & _);
        [vm_compute; congruence | vm_compute; split; congruence
        | vm_compute; auto |].
      exists s3. split; [exact E|]. split; [exact HI3|].
      rewrite Hc3, Hd3, Hcap3. vm_compute. auto. }
    destruct E3 as (s3 & E3 & HI3 & Hc3 & Hd3 & Hcap3).
    destruct (PopEntries_returns k s3 0 HI3 ltac:(lia) ltac:(lia))
      as (s4 & E4 & _).
    { simpl. rewrite Hd3, Hc3, orb_true_r. split; [reflexivity|].
      destruct (Z.eqb_spec k 0); simpl; [reflexivity|].
      destruct (Z.ltb_spec 0 k); [reflexivity | lia]. }
    exists s3, s4. split; [exact E3 | exact E4].
Qed.

(** C10. [PopEntries(0)] never waits and never throws: the batch is
    the count at entry, so it returns exactly the items buffered at
    entry, whatever the drain flag is, and an empty vector on an empty
    channel. *)
Theorem C10_pop_zero_never_waits (s : SPSCBuffer T) :
  Inv s ->
  (exists s',
      PopEntries d 0 s = Returned s' (contents d s)
      /\ Z.of_nat (length (contents d s)) = mCount s
      /\ mCount s' = 0 /\ mDrain s' = mDrain s)
  /\ PopEntries d 0 s <> Waiting s
  /\ (mCount s = 0 -> exists s', PopEntries d 0 s = Returned s' []).
Proof.
  intros HI. pose proof (inv_count s HI) as Hcnt.
  destruct (PopEntries_returns 0 s (mCount s) HI ltac:(lia) ltac:(lia))
    as (s' & E & _ & Hc & _ & _ & Hd' & _).
  { simpl. rewrite Z.leb_refl, Z.ltb_irrefl, andb_false_r. auto. }
  rewrite firstn_all2 in E by (rewrite length_contents; lia).
  split_and!.
  - exists s'. rewrite length_contents.
    split_and!; [exact E | lia | lia | exact Hd'].
  - rewrite E. discriminate.
  - intros H0. exists s'. rewrite E. f_equal.
    apply length_zero_iff_nil. rewrite length_contents. lia.
Qed.

End Facts.

(** The theorems above at a channel of capacity 4 (capacity 2 for C7)
    carrying numbers. *)
Lemma C1_channel_invariant_witness :
  let s := run 0%nat [OpPush 5%nat; OpPush 6%nat; OpPushDone; OpPop 4; OpClear]
               (SPSCBuffer_new 0%nat 4) in
  0 <= mCount s <= mCapacity s.
Proof.
  exact (proj1 (C1_channel_invariant 0%nat 4
                  [OpPush 5%nat; OpPush 6%nat; OpPushDone; OpPop 4; OpClear]
                  ltac:(lia))).
Defined.

Lemma C7_oversized_batch_throws_witness :
  PopEntries 0%nat 3 (SPSCBuffer_new 0%nat 2)
  = Thrown (SPSCBuffer_new 0%nat 2)
      "Got invalid value for batchSize. Got 3 Max allowed value is 2".
Proof.
  refine (proj1 (C7_oversized_batch_throws 0%nat (SPSCBuffer_new 0%nat 2) 3 _)).
  vm_compute. reflexivity.
Defined.

Lemma C2_drain_short_batch_witness :
  let s := run 0%nat [OpPush 5%nat; OpPushDone] (SPSCBuffer_new 0%nat 4) in
  exists s', PopEntries 0%nat 3 s = Returned s' (contents 0%nat s).
Proof.
  intros s.
  destruct (C2_drain_short_batch 0%nat s 3 7%nat 8%nat 4) as [(s' & E & _) _].
  - apply run_Inv, Inv_new. lia.
  - reflexivity.
  - vm_compute. repeat split; discriminate.
  - lia.
  - exists s'. exact E.
Defined.

Lemma C10_pop_zero_never_waits_witness :
  let s := run 0%nat [OpPush 5%nat; OpPush 6%nat] (SPSCBuffer_new 0%nat 4) in
  PopEntries 0%nat 0 s <> Waiting s.
Proof.
  intros s.
  refine (proj1 (proj2 (C10_pop_zero_never_waits 0%nat s _))).
  apply run_Inv, Inv_new. lia.
Defined.

End SPSCFacts.

Module LRUFacts.
Import CInt LRU.

Section Facts.
Context {Key : Type} `{Countable Key} {Value : Type}.
Implicit Types (c : DecoderCache Key Value) (key : Key) (value : Value).
Implicit Types (items : list (Key * Value)).

Lemma find_node_app key v (l1 l2 : list (Key * Value)) :
  key ∉ l1.*1 -> find_node key (l1 ++ (key, v) :: l2) = Some (key, v).
Proof.
  induction l1 as [|[k w] l1 IH]; simpl; intros Hn.
  - rewrite decide_True; auto.
  - apply not_elem_of_cons in Hn as [Hk Hn].
    rewrite decide_False by congruence. apply IH, Hn.
Qed.

Lemma unlink_node_app key v (l1 l2 : list (Key * Value)) :
  key ∉ l1.*1 -> unlink_node key (l1 ++ (key, v) :: l2) = l1 ++ l2.
Proof.
  induction l1 as [|[k w] l1 IH]; simpl; intros Hn.
  - rewrite decide_True; auto.
  - apply not_elem_of_cons in Hn as [Hk Hn].
    rewrite decide_False by congruence. f_equal. apply IH, Hn.
Qed.

(** In a well-formed cache the node of a key is the only one with that
    key, so the nodes before it do not carry it. *)
Lemma node_position items key v (l1 l2 : list (Key * Value)) :
  NoDup items.*1 -> items = l1 ++ (key, v) :: l2 ->
  (key ∉ l1.*1) /\ (key ∉ l2.*1) /\ NoDup (l1 ++ l2).*1.
Proof.
  intros Hnd ->. rewrite fmap_app, fmap_cons in Hnd. simpl in Hnd.
  apply NoDup_app in Hnd as (Hnd1 & Hdisj & Hnd2).
  apply NoDup_cons in Hnd2 as (Hk & Hnd2).
  split_and!.
  - intros Hin. apply (Hdisj _ Hin). left.
  - exact Hk.
  - rewrite fmap_app. apply NoDup_app. split_and!; auto.
    intros x Hx Hx2. apply (Hdisj _ Hx). right. exact Hx2.
Qed.

Lemma WF_new capacity : 0 <= capacity < 2 ^ 31 -> WF (@DecoderCache_new Key _ _ Value capacity).
Proof.
  intros Hc. unfold DecoderCache_new. constructor; simpl.
  - constructor.
  - intros k. split; intros Hk.
    + apply elem_of_empty in Hk as [].
    + apply elem_of_nil in Hk as [].
  - destruct (Z.ltb_spec capacity 1); [lia|].
    unfold to_int32. rewrite Z.mod_small; lia.
  - destruct (capacity <? 1); [lia|].
    unfold to_int32. rewrite Z.mod_small; lia.
Qed.

Lemma to_size_t_capacity c : WF c -> to_size_t (mCapacity c) = mCapacity c.
Proof.
  intros [_ _ Hc _]. unfold to_size_t. apply Z.mod_small. lia.
Qed.

(** Put on a key that is present. *)
Lemma PushDecoder_hit c key value v l1 l2 :
  WF c -> mCacheItems c = l1 ++ (key, v) :: l2 ->
  PushDecoder key value c
  = (None, {| mCapacity := mCapacity c;
              mCacheItems := (key, value) :: l1 ++ l2;
              mCacheMap := mCacheMap c |}).
Proof.
  intros HW E. destruct (node_position _ _ _ _ _ (wf_nodup c HW) E) as (Hn1 & _ & _).
  unfold PushDecoder. rewrite decide_True.
  - rewrite E, find_node_app, unlink_node_app by exact Hn1. reflexivity.
  - apply (wf_map c HW). rewrite E, fmap_app, fmap_cons. set_solver.
Qed.

(** Put of a new key on a full cache. *)
Lemma PushDecoder_evict c key value lru l :
  WF c -> key ∉ (mCacheItems c).*1 ->
  mCacheItems c = l ++ [lru] ->
  Z.of_nat (length (mCacheItems c)) = mCapacity c ->
  PushDecoder key value c
  = (Some lru.2, {| mCapacity := mCapacity c;
                    mCacheItems := (key, value) :: l;
                    mCacheMap := {[key]} ∪ (mCacheMap c ∖ {[lru.1]}) |}).
Proof.
  intros HW Hnew E Hfull. unfold PushDecoder. rewrite decide_False.
  - rewrite (to_size_t_capacity c HW), Hfull, Z.eqb_refl.
    rewrite E, last_snoc, removelast_last. reflexivity.
  - intros Hin. apply Hnew, (wf_map c HW), Hin.
Qed.

(** Put of a new key on a cache that is not full. *)
Lemma PushDecoder_room c key value :
  WF c -> key ∉ (mCacheItems c).*1 ->
  Z.of_nat (length (mCacheItems c)) < mCapacity c ->
  PushDecoder key value c
  = (None, {| mCapacity := mCapacity c;
              mCacheItems := (key, value) :: mCacheItems c;
              mCacheMap := {[key]} ∪ mCacheMap c |}).
Proof.
  intros HW Hnew Hroom. unfold PushDecoder. rewrite decide_False.
  - rewrite (to_size_t_capacity c HW).
    destruct (Z.eqb_spec (Z.of_nat (length (mCacheItems c))) (mCapacity c)); [lia|].
    reflexivity.
  - intros Hin. apply Hnew, (wf_map c HW), Hin.
Qed.

(** Get on a key that is present. *)
Lemma GetDecoder_hit c key v l1 l2 :
  WF c -> mCacheItems c = l1 ++ (key, v) :: l2 ->
  GetDecoder key c
  = (Some v, {| mCapacity := mCapacity c;
                mCacheItems := (key, v) :: l1 ++ l2;
                mCacheMap := mCacheMap c |}).
Proof.
  intros HW E. destruct (node_position _ _ _ _ _ (wf_nodup c HW) E) as (Hn1 & _ & _).
  unfold GetDecoder. rewrite decide_True.
  - rewrite E, find_node_app, unlink_node_app by exact Hn1. reflexivity.
  - apply (wf_map c HW). rewrite E, fmap_app, fmap_cons. set_solver.
Qed.

Lemma GetDecoder_miss c key :
  WF c -> key ∉ (mCacheItems c).*1 -> GetDecoder key c = (None, c).
Proof.
  intros HW Hn. unfold GetDecoder. rewrite decide_False; [reflexivity|].
  intros Hin. apply Hn, (wf_map c HW), Hin.
Qed.

Lemma key_node items key :
  key ∈ items.*1 -> exists v l1 l2, items = l1 ++ (key, v) :: l2.
Proof.
  intros Hin. apply list_elem_of_fmap in Hin as ([k v] & -> & Hin).
  apply list_elem_of_split in Hin as (l1 & l2 & ->). eauto.
Qed.

Lemma GetDecoder_WF c key : WF c -> WF (GetDecoder key c).2.
Proof.
  intros HW. destruct (decide (key ∈ (mCacheItems c).*1)) as [Hin|Hout].
  - destruct (key_node _ _ Hin) as (v & l1 & l2 & E).
    rewrite (GetDecoder_hit c key v l1 l2 HW E). simpl.
    destruct (node_position _ _ _ _ _ (wf_nodup c HW) E) as (Hn1 & Hn2 & Hnd).
    pose proof (wf_map c HW) as Hmap. pose proof (wf_size c HW) as Hsz.
    rewrite E in Hmap, Hsz. rewrite length_app in Hsz. simpl in Hsz.
    constructor; simpl.
    + apply NoDup_cons. split; [|exact Hnd].
      rewrite fmap_app. rewrite elem_of_app. tauto.
    + intros k. rewrite Hmap, !fmap_app, fmap_cons. simpl.
      rewrite elem_of_cons, !elem_of_app, elem_of_cons. tauto.
    + apply (wf_capacity c HW).
    + rewrite length_app. lia.
  - rewrite GetDecoder_miss by auto. exact HW.
Qed.

Lemma PushDecoder_WF c key value : WF c -> WF (PushDecoder key value c).2.
Proof.
  intros HW. pose proof (wf_map c HW) as Hmap. pose proof (wf_size c HW) as Hsz.
  pose proof (wf_capacity c HW) as Hcap.
  destruct (decide (key ∈ (mCacheItems c).*1)) as [Hin|Hout].
  - destruct (key_node _ _ Hin) as (v & l1 & l2 & E).
    rewrite (PushDecoder_hit c key value v l1 l2 HW E). simpl.
    destruct (node_position _ _ _ _ _ (wf_nodup c HW) E) as (Hn1 & Hn2 & Hnd).
    rewrite E in Hmap, Hsz. rewrite length_app in Hsz. simpl in Hsz.
    constructor; simpl.
    + apply NoDup_cons. split; [|exact Hnd].
      rewrite fmap_app. rewrite elem_of_app. tauto.
    + intros k. rewrite Hmap, !fmap_app, fmap_cons. simpl.
      rewrite elem_of_cons, !elem_of_app, elem_of_cons. tauto.
    + exact Hcap.
    + rewrite length_app. lia.
  - destruct (Z.eq_dec (Z.of_nat (length (mCacheItems c))) (mCapacity c)) as [Hfull|Hroom].
    + destruct (mCacheItems c) as [|kv0 items0] eqn:Eitems using rev_ind;
        [simpl in Hfull; lia|]. clear IHitems0.
      rename kv0 into lru, items0 into l.
      rewrite (PushDecoder_evict c key value lru l HW); rewrite ?Eitems; auto.
      pose proof (wf_nodup c HW) as Hnd. rewrite Eitems in Hnd.
      rewrite fmap_app in Hnd. simpl in Hnd.
      apply NoDup_app in Hnd as (Hnd1 & Hdisj & _).
      rewrite fmap_app in Hout. simpl in Hout.
      rewrite elem_of_app, list_elem_of_singleton in Hout.
      rewrite length_app in Hsz. simpl in Hsz.
      constructor; simpl.
      * apply NoDup_cons. split; [tauto | exact Hnd1].
      * intros k. rewrite elem_of_union, elem_of_difference, !elem_of_singleton.
        rewrite Hmap, fmap_app, elem_of_app, elem_of_cons. simpl.
        rewrite list_elem_of_singleton.
        split; [tauto|]. intros [->|Hk]; [tauto|]. right. split; [tauto|].
        intros ->. apply (Hdisj _ Hk). left.
      * exact Hcap.
      * lia.
    + rewrite PushDecoder_room by (auto; lia).
      constructor; simpl.
      * apply NoDup_cons. split; [exact Hout | apply (wf_nodup c HW)].
      * intros k. rewrite elem_of_union, elem_of_singleton, elem_of_cons, Hmap. tauto.
      * exact Hcap.
      * lia.
Qed.

(** The run of the eviction example: capacity 2, Put A, Put B, Get A, Put C. *)
Lemma lru_example (A B C : Key) (va vb vc : Value) :
  A <> B -> A <> C -> B <> C ->
  let c0 : DecoderCache Key Value := DecoderCache_new 2 in
  let c1 := (PushDecoder A va c0).2 in
  let c2 := (PushDecoder B vb c1).2 in
  let c3 := (GetDecoder A c2).2 in
  (PushDecoder A va c0).1 = None
  /\ (PushDecoder B vb c1).1 = None
  /\ (GetDecoder A c2).1 = Some va
  /\ (PushDecoder C vc c3).1 = Some vb
  /\ mCacheItems (PushDecoder C vc c3).2 = [(C, vc); (A, va)].
Proof.
  intros HAB HAC HBC. cbv zeta.
  set (c0 := DecoderCache_new 2).
  assert (W0 : WF c0) by (apply WF_new; lia).
  set (c1 := {| mCapacity := 2; mCacheItems := [(A, va)]; mCacheMap := {[A]} ∪ ∅ |}).
  assert (E1 : PushDecoder A va c0 = (None, c1)).
  { rewrite PushDecoder_room; auto.
    - simpl. apply not_elem_of_nil.
    - vm_compute. reflexivity. }
  pose proof (PushDecoder_WF c0 A va W0) as W1.
  rewrite E1 in W1 |- *. cbn [fst snd] in W1 |- *.
  set (c2 := {| mCapacity := 2; mCacheItems := [(B, vb); (A, va)];
                mCacheMap := {[B]} ∪ ({[A]} ∪ ∅) |}).
  assert (E2 : PushDecoder B vb c1 = (None, c2)).
  { rewrite PushDecoder_room; auto.
    - simpl. rewrite list_elem_of_singleton. congruence.
    - vm_compute. reflexivity. }
  pose proof (PushDecoder_WF c1 B vb W1) as W2.
  rewrite E2 in W2 |- *. cbn [fst snd] in W2 |- *.
  set (c3 := {| mCapacity := 2; mCacheItems := [(A, va); (B, vb)];
                mCacheMap := {[B]} ∪ ({[A]} ∪ ∅) |}).
  assert (E3 : GetDecoder A c2 = (Some va, c3)).
  { apply (GetDecoder_hit c2 A va [(B, vb)] []); auto. }
  pose proof (GetDecoder_WF c2 A W2) as W3.
  rewrite E3 in W3 |- *. cbn [fst snd] in W3 |- *.
  rewrite (PushDecoder_evict c3 C vc (B, vb) [(A, va)]); auto.
  simpl. rewrite !elem_of_cons, elem_of_nil. intros [?|[?|[]]]; congruence.
Qed.

(** C3. On a well-formed cache: Put on a present key replaces its value,
    moves its node to the front of the recency list (the other nodes keep
    their order) and returns no evicted value; Put of an absent key on a
    cache holding [mCapacity] entries returns the value of the last (least
    recently used) node, removes that node and puts the new entry in front;
    Get on a present key returns its value and moves its node to the front.
    With capacity 2 and distinct keys A, B, C: after Put A, Put B, Get A,
    the call Put C evicts the value stored under B. *)
Theorem C3_lru_policy (c : DecoderCache Key Value) (A B C : Key) (va vb vc : Value) :
  WF c -> A <> B -> A <> C -> B <> C ->
  (forall key value v l1 l2,
      mCacheItems c = l1 ++ (key, v) :: l2 ->
      (PushDecoder key value c).1 = None
      /\ mCacheItems (PushDecoder key value c).2 = (key, value) :: l1 ++ l2)
  /\ (forall key value lru l,
      key ∉ (mCacheItems c).*1 ->
      mCacheItems c = l ++ [lru] ->
      Z.of_nat (length (mCacheItems c)) = mCapacity c ->
      (PushDecoder key value c).1 = Some lru.2
      /\ mCacheItems (PushDecoder key value c).2 = (key, value) :: l)
  /\ (forall key v l1 l2,
      mCacheItems c = l1 ++ (key, v) :: l2 ->
      (GetDecoder key c).1 = Some v
      /\ mCacheItems (GetDecoder key c).2 = (key, v) :: l1 ++ l2)
  /\ (let c1 := (PushDecoder A va (DecoderCache_new 2)).2 in
      let c2 := (PushDecoder B vb c1).2 in
      let c3 := (GetDecoder A c2).2 in
      (PushDecoder C vc c3).1 = Some vb
      /\ mCacheItems (PushDecoder C vc c3).2 = [(C, vc); (A, va)]).
Proof.
  intros HW HAB HAC HBC. split; [|split; [|split]].
  - intros key value v l1 l2 E.
    rewrite (PushDecoder_hit c key value v l1 l2 HW E). auto.
  - intros key value lru l Hnew E Hfull.
    rewrite (PushDecoder_evict c key value lru l HW Hnew E Hfull). auto.
  - intros key v l1 l2 E.
    rewrite (GetDecoder_hit c key v l1 l2 HW E). auto.
  - destruct (lru_example A B C va vb vc HAB HAC HBC) as (_ & _ & _ & H4 & H5).
    auto.
Qed.

End Facts.

(** C3 at a cache of capacity 2 keyed by numbers, holding keys 2 and 1. *)
Lemma C3_lru_policy_witness :
  let c : DecoderCache nat Z :=
    (PushDecoder 2%nat 20 (PushDecoder 1%nat 10 (DecoderCache_new 2)).2).2 in
  (PushDecoder 3%nat 30 c).1 = Some 10
  /\ mCacheItems (PushDecoder 3%nat 30 c).2 = [(3%nat, 30); (2%nat, 20)].
Proof.
  intros c.
  assert (W : WF c).
  { apply PushDecoder_WF, PushDecoder_WF, WF_new. lia. }
  destruct (C3_lru_policy c 1%nat 2%nat 3%nat 10 20 30 W
              ltac:(discriminate) ltac:(discriminate) ltac:(discriminate))
    as (_ & Hevict & _).
  apply (Hevict 3%nat 30 (1%nat, 10) [(2%nat, 20)]).
  - vm_compute. intros Hin.
    apply elem_of_cons in Hin as [Hin|Hin]; [discriminate|].
    apply elem_of_cons in Hin as [Hin|Hin]; [discriminate|].
    apply elem_of_nil in Hin. exact Hin.
  - reflexivity.
  - reflexivity.
Defined.

End LRUFacts.

Module SeekerFacts.
Import CInt Collab Seeker.

Section Facts.
Context {D : Type} `{NvDecoder D}.
Implicit Types (s : SeekUtils D) (dmx : FFmpegDemuxer).

Lemma for_each_unlock (l : list DecodedFrame) : forall s,
  for_each l (fun frame => mDecoder_UnlockFrame (extBuf_data frame)) s
  = Some (tt, set_calls (calls s ++ unlock_events l)
                (set_mDecoder (unlock_all l (mDecoder s)) s)).
Proof.
  induction l as [|f l IH]; intros s.
  - destruct s. simpl. rewrite app_nil_r. reflexivity.
  - simpl for_each. unfold bind at 1.
    change (mDecoder_UnlockFrame (extBuf_data f) s)
      with (Some (tt, set_calls (calls (set_mDecoder (UnlockFrame (extBuf_data f) (mDecoder s)) s)
                                   ++ [EvUnlockFrame (extBuf_data f)])
                        (set_mDecoder (UnlockFrame (extBuf_data f) (mDecoder s)) s))).
    cbv beta iota. rewrite IH. destruct s. simpl.
    rewrite <- app_assoc. reflexivity.
Qed.

Lemma UnlockFrames_spec s :
  UnlockFrames s
  = Some (tt, set_calls (calls s ++ unlock_events (mTargetFrames s))
                (set_mDecoder (unlock_all (mTargetFrames s) (mDecoder s)) s)).
Proof. unfold UnlockFrames, bind, get. apply for_each_unlock. Qed.

(** The frames handed out are unlocked and dropped at the start of a
    resolution; nothing else changes before the first index is looked at. *)
Lemma GetFramesByIdxList_unfold indices s :
  GetFramesByIdxList indices s
  = bind (for_each indices resolve_index)
         (fun _ => bind get (fun s' => ret (mTargetFrames s')))
         (set_mTargetFrames []
            (set_calls (calls s ++ unlock_events (mTargetFrames s))
               (set_mDecoder (unlock_all (mTargetFrames s) (mDecoder s)) s))).
Proof.
  unfold GetFramesByIdxList. unfold bind at 1. rewrite UnlockFrames_spec.
  reflexivity.
Qed.

Lemma resolve_index_invalid s idx b :
  ShouldSeek (mDemuxer s) (mPreviousTargetIndex s) idx = Some (b, INVALID_INDEX_ENTRY) ->
  resolve_index idx s = Some (tt, s).
Proof.
  intros E. unfold resolve_index, bind, get. rewrite E. reflexivity.
Qed.


Lemma repeat_GetFrame (n : nat) : forall s,
  repeat_call n drop_frame s
  = Some (tt, set_calls (calls s ++ repeat EvGetFrame n)
                (set_mDecoder (drain_frames n (mDecoder s)) s)).
Proof.
  induction n as [|n IH]; intros s.
  - destruct s. simpl. rewrite app_nil_r. reflexivity.
  - simpl repeat_call. unfold bind at 1.
    assert (E : drop_frame s
                = Some (tt, set_calls (calls s ++ [EvGetFrame])
                              (set_mDecoder (GetFrame (mDecoder s)).2 s))).
    { unfold drop_frame, SeekUtils_GetFrame, mDecoder_GetFrame, bind, log, modify, ret.
      destruct s. simpl. destruct (GetFrame _) as [r d]. reflexivity. }
    rewrite E. rewrite IH. destruct s. simpl.
    rewrite <- app_assoc. reflexivity.
Qed.

(** C5 (as the code has it). When the demuxer's Seek(0) returns,
    ClearState unlocks the frames of [mTargetFrames] (one UnlockFrame call
    each, in order, before anything else), empties [mTargetFrames],
    [mPendingFrames] and [mPreviouslyDecodedFramesPTS], sets
    [mPreviousTargetIndex] to -1, [mFramesDecodedTillNow],
    [mFrameSizeInBytes] and [mTargetFramePTS] to 0, [mbDiscontinuityFlag],
    [bSeekToIndexSet] and [mbEOSreached] to false, seeks the demuxer to
    frame 0, and, exactly when [mbEOSreached] was set or [bForceEOS]
    holds, sends one empty packet through the decoder and fetches every
    frame that call reports.  It leaves [bIsSeekDirectionBackwards] as it
    was.  Which frames [more] are unlocked after the target frames is left
    open.  When Seek(0) does not return, ClearState does not return
    either, and the empty packet is not sent. *)
Theorem C5_ClearState_resets s (bForceEOS : bool) :
  (forall sought : FFmpegDemuxer,
     Seek 0 (mDemuxer s) = SeekReturned sought ->
     exists s' (more : list DecodedFrame),
       let unlocked := mTargetFrames s ++ more in
       let d1 := SetSessionInitCounter 0
                   (SetWaitForSessionWarmUp true
                      (unlock_all unlocked (mDecoder s))) in
       let numDecodedFrames := (Decode 0 0 0 0 d1).1 in
       ClearState bForceEOS s = Some (tt, s')
       /\ mTargetFrames s' = [] /\ mPendingFrames s' = []
       /\ mPreviouslyDecodedFramesPTS s' = []
       /\ mPreviousTargetIndex s' = -1
       /\ mFramesDecodedTillNow s' = 0 /\ mFrameSizeInBytes s' = 0
       /\ mTargetFramePTS s' = 0
       /\ mbDiscontinuityFlag s' = false /\ bSeekToIndexSet s' = false
       /\ mbEOSreached s' = false
       /\ bIsSeekDirectionBackwards s' = bIsSeekDirectionBackwards s
       /\ mDemuxer s' = sought
       /\ calls s'
          = calls s ++ unlock_events unlocked
              ++ [EvSeek 0; EvSetWaitForSessionWarmUp true; EvSetSessionInitCounter 0]
              ++ (if mbEOSreached s || bForceEOS
                  then EvDecode 0 0 0 0 :: repeat EvGetFrame (Z.to_nat numDecodedFrames)
                  else []))
  /\ ((forall sought, Seek 0 (mDemuxer s) <> SeekReturned sought) ->
      ClearState bForceEOS s = None).
Proof.
  split.
  - intros sought HSeek.
    unfold ClearState. unfold bind at 1. rewrite UnlockFrames_spec.
    destruct s as [tf pf prev fsz dec disc tpts ppts eos back sti dmx d cl].
    cbn [mTargetFrames mDecoder calls mbEOSreached bIsSeekDirectionBackwards mDemuxer]
      in *.
    set (d1 := SetSessionInitCounter 0
                 (SetWaitForSessionWarmUp true (unlock_all tf d))).
    destruct (eos || bForceEOS) eqn:Eflush.
    + unfold bind, modify, get, when, mDemuxer_Seek, mDecoder_SetWaitForSessionWarmUp,
        mDecoder_SetSessionInitCounter, mDecoder_Decode, log, ret. simpl.
      rewrite HSeek. simpl. rewrite Eflush. simpl.
      fold d1. destruct (Decode 0 0 0 0 d1) as [n d2] eqn:ED.
      unfold bind, modify. simpl.
      rewrite repeat_GetFrame. simpl.
      eexists. exists []. cbv zeta. rewrite !app_nil_r. fold d1. rewrite ED.
      split; [reflexivity|]. simpl.
      rewrite <- !app_assoc. simpl. auto 20.
    + unfold bind, modify, get, when, mDemuxer_Seek, mDecoder_SetWaitForSessionWarmUp,
        mDecoder_SetSessionInitCounter, log, ret. simpl.
      rewrite HSeek. simpl. rewrite Eflush. simpl.
      eexists. exists []. cbv zeta. rewrite !app_nil_r.
      split; [reflexivity|]. simpl.
      apply orb_false_iff in Eflush as [-> _].
      rewrite <- !app_assoc. simpl. auto 20.
  - intros HSeek.
    unfold ClearState. unfold bind at 1. rewrite UnlockFrames_spec.
    destruct s as [tf pf prev fsz dec disc tpts ppts eos back sti dmx d cl].
    cbn [mDemuxer] in HSeek.
    unfold bind, modify, mDemuxer_Seek. simpl.
    destruct (Seek 0 dmx) as [sought| |]; [|reflexivity|reflexivity].
    destruct (HSeek sought eq_refl).
Qed.

Lemma ShouldSeek_valid_inv dmx p c b r :
  ShouldSeek dmx p c = Some (b, r) -> r <> INVALID_INDEX_ENTRY ->
  GetKeyNearestKeyFrameIndexForTarget dmx c = Some r.
Proof.
  unfold ShouldSeek. intros E Hr.
  destruct (GetKeyNearestKeyFrameIndexForTarget dmx c) as [right|]; [|discriminate].
  destruct (p =? -1); [congruence|].
  destruct (GetKeyNearestKeyFrameIndexForTarget dmx p) as [left|]; [|discriminate].
  destruct (_ || _); [congruence|].
  destruct (left =? right); [congruence|].
  destruct (_ <? 4); congruence.
Qed.

Lemma ShouldSeek_same dmx idx r :
  GetKeyNearestKeyFrameIndexForTarget dmx idx = Some r ->
  r <> INVALID_INDEX_ENTRY -> idx <> -1 ->
  ShouldSeek dmx idx idx = Some (false, r).
Proof.
  intros E Hr Hidx. unfold ShouldSeek. rewrite E.
  destruct (Z.eqb_spec idx (-1)); [contradiction|].
  destruct (Z.eqb_spec r INVALID_INDEX_ENTRY); [contradiction|].
  simpl. rewrite Z.eqb_refl. reflexivity.
Qed.

Lemma mod_negative (x m : Z) : 0 < m -> - m <= x < 0 -> x mod m = x + m.
Proof.
  intros Hm Hx. symmetry. apply (Z.mod_unique x m (-1) (x + m)); lia.
Qed.

(** The conversions of [from_pending] when the target lies among the
    pending frames. *)
Lemma pending_index_arith (idx decoded size : Z) :
  0 <= idx < 2 ^ 31 -> 0 <= decoded < 2 ^ 32 -> 0 <= size < 2 ^ 31 ->
  decoded - size <= idx < decoded ->
  let targetValue := to_int32 (to_uint32 (idx - decoded)) in
  targetValue = idx - decoded
  /\ to_int32 (to_size_t (to_size_t targetValue + size)) = idx - decoded + size
  /\ to_size_t (idx - decoded + size) = idx - decoded + size.
Proof.
  intros Hi Hd Hs Hin. simpl.
  assert (E1 : to_int32 (to_uint32 (idx - decoded)) = idx - decoded).
  { unfold to_int32, to_uint32.
    rewrite (mod_negative (idx - decoded) (2 ^ 32)) by lia.
    replace (idx - decoded + 2 ^ 32 + 2 ^ 31)
      with (idx - decoded + 2 ^ 31 + 1 * 2 ^ 32) by lia.
    rewrite Z.mod_add by lia. rewrite Z.mod_small; lia. }
  rewrite E1.
  assert (E2 : to_size_t (to_size_t (idx - decoded) + size) = idx - decoded + size).
  { unfold to_size_t. rewrite Zplus_mod_idemp_l. apply Z.mod_small. lia. }
  rewrite E2. split; [reflexivity|]. split.
  - unfold to_int32. rewrite Z.mod_small; lia.
  - unfold to_size_t. apply Z.mod_small. lia.
Qed.

(** A target that lies among the pending frames is answered from
    [mPendingFrames]: no seek, no demux, no decode. *)
Lemma resolve_index_pending s idx r f :
  0 <= idx < 2 ^ 31 ->
  0 <= mFramesDecodedTillNow s < 2 ^ 32 ->
  Z.of_nat (length (mPendingFrames s)) < 2 ^ 31 ->
  mFramesDecodedTillNow s - Z.of_nat (length (mPendingFrames s)) <= idx
    < mFramesDecodedTillNow s ->
  mPendingFrames s
    !! Z.to_nat (idx - mFramesDecodedTillNow s + Z.of_nat (length (mPendingFrames s)))
    = Some f ->
  ShouldSeek (mDemuxer s) (mPreviousTargetIndex s) idx = Some (false, r) ->
  r <> INVALID_INDEX_ENTRY ->
  resolve_index idx s
  = Some (tt, set_mPreviousTargetIndex idx
                (set_mTargetFrames (mTargetFrames s ++ [f])
                   (set_mbDiscontinuityFlag false s))).
Proof.
  intros Hi Hd Hs Hin Hf Hseek Hr.
  destruct (pending_index_arith idx (mFramesDecodedTillNow s)
              (Z.of_nat (length (mPendingFrames s))) Hi Hd ltac:(lia) Hin)
    as (E1 & E2 & E3).
  unfold resolve_index. unfold bind at 1. unfold get at 1. cbv beta iota.
  rewrite Hseek. cbn [fst snd].
  destruct (Z.eqb_spec r INVALID_INDEX_ENTRY); [contradiction|].
  destruct s as [tf pf prev fsz dec disc tpts ppts eos back sti dmx d cl].
  cbn [mTargetFrames mPendingFrames mFramesDecodedTillNow mDemuxer
       mPreviousTargetIndex] in *.
  unfold bind, modify, get, from_pending. simpl.
  rewrite E1.
  destruct (Z.ltb_spec (idx - dec) 0); [|lia].
  unfold bind, get. simpl. rewrite <- E1, E2, E3.
  destruct (Z.leb_spec (idx - dec + Z.of_nat (length pf)) (Z.of_nat (length pf))); [|lia].
  rewrite Hf. unfold bind, modify, ret, when. simpl.
  unfold to_int32. rewrite Z.mod_small by lia.
  repeat f_equal. lia.
Qed.

(** C8 (as the code has it). When the requested index lies among the
    frames kept in [mPendingFrames] (and ShouldSeek asks for no seek),
    resolving it twice in a row through GetFramesByIdxList returns the same
    pending frame, hence the same timestamp, both times; neither call
    seeks, demuxes or decodes, each only unlocks the frames handed out
    before it.  After the first call the index is the previous target, so
    [IsSeekBackwards] reports the repeated request as a backward one. *)
Theorem C8_repeat_from_pending s idx r f :
  0 <= idx < 2 ^ 31 ->
  0 <= mFramesDecodedTillNow s < 2 ^ 32 ->
  Z.of_nat (length (mPendingFrames s)) < 2 ^ 31 ->
  mFramesDecodedTillNow s - Z.of_nat (length (mPendingFrames s)) <= idx
    < mFramesDecodedTillNow s ->
  mPendingFrames s
    !! Z.to_nat (idx - mFramesDecodedTillNow s + Z.of_nat (length (mPendingFrames s)))
    = Some f ->
  ShouldSeek (mDemuxer s) (mPreviousTargetIndex s) idx = Some (false, r) ->
  r <> INVALID_INDEX_ENTRY ->
  exists s1 s2 s3,
    GetFramesByIdxList [idx] s = Some ([f], s1)
    /\ GetFramesByIdxList [idx] s1 = Some ([f], s2)
    /\ calls s1 = calls s ++ unlock_events (mTargetFrames s)
    /\ calls s2 = calls s1 ++ [EvUnlockFrame (extBuf_data f)]
    /\ mPendingFrames s2 = mPendingFrames s
    /\ mDemuxer s2 = mDemuxer s
    /\ mPreviousTargetIndex s1 = idx
    /\ IsSeekBackwards idx s1 = Some (true, s3).
Proof.
  intros Hi Hd Hs Hin Hf Hseek Hr.
  pose proof (ShouldSeek_valid_inv _ _ _ _ _ Hseek Hr) as Hkey.
  pose proof (ShouldSeek_same _ _ _ Hkey Hr ltac:(lia)) as Hsame.
  destruct s as [tf pf prev fsz dec disc tpts ppts eos back sti dmx d cl].
  cbn [mTargetFrames mPendingFrames mFramesDecodedTillNow mDemuxer
       mPreviousTargetIndex calls] in *.
  eexists. eexists. eexists.
  split.
  { rewrite GetFramesByIdxList_unfold. simpl for_each.
    unfold bind at 1. unfold bind at 1.
    erewrite (resolve_index_pending _ idx r f); simpl; eauto. }
  split.
  { rewrite GetFramesByIdxList_unfold. simpl for_each.
    unfold bind at 1. unfold bind at 1.
    erewrite (resolve_index_pending _ idx r f); simpl; eauto. }
  simpl. split_and!; try reflexivity.
  unfold IsSeekBackwards, bind, get, modify, ret. simpl.
  rewrite Z.leb_refl. destruct (Z.eqb_spec idx (-1)); [lia|]. simpl. reflexivity.
Qed.

(** C9. [setEOS] stores [true] in [mbEOSreached] whatever its argument
    is; [setEOS(false)] does so too, the argument is not read, and no
    other member changes. *)
Theorem C9_setEOS_ignores_argument (newVal : bool) s :
  setEOS newVal s = Some (tt, set_mbEOSreached true s)
  /\ mbEOSreached (set_mbEOSreached true s) = true
  /\ setEOS false s = setEOS true s
  /\ mTargetFrames (set_mbEOSreached true s) = mTargetFrames s
  /\ mPendingFrames (set_mbEOSreached true s) = mPendingFrames s
  /\ mPreviousTargetIndex (set_mbEOSreached true s) = mPreviousTargetIndex s
  /\ mFramesDecodedTillNow (set_mbEOSreached true s) = mFramesDecodedTillNow s
  /\ calls (set_mbEOSreached true s) = calls s.
Proof. destruct s. simpl. unfold setEOS, modify. simpl. auto 10. Qed.

End Facts.

Import Sample.

Ltac run_code := vm_compute; repeat split; try reflexivity; try discriminate.


(** C5 does not hold as stated.  On the seeker that has resolved frame 0
    and has then been asked for frame 0 again, ClearState(true) leaves
    [bIsSeekDirectionBackwards] set.  On an input that cannot seek,
    Seek(0) throws and ClearState(true) does not return: the empty packet
    is not sent. *)
Lemma C5_ClearState_counterexample :
  (exists s',
     ClearState true pair_seeker_before_reset = Some (tt, s')
     /\ bIsSeekDirectionBackwards pair_seeker_before_reset = true
     /\ bIsSeekDirectionBackwards s' = true)
  /\ Seek 0 (mDemuxer pipe_seeker)
     = SeekThrown "Seek isn't supported for this input."
  /\ ClearState true pipe_seeker = None.
Proof.
  split; [|split].
  - eexists. split; [vm_compute; reflexivity|]. split; reflexivity.
  - reflexivity.
  - vm_compute. reflexivity.
Qed.

(** C5 (as the code has it) on the seeker that has resolved frame 0 and
    has been asked for it again. *)
Lemma C5_ClearState_resets_witness :
  exists s',
    ClearState true pair_seeker_before_reset = Some (tt, s')
    /\ mPreviousTargetIndex s' = -1 /\ mbEOSreached s' = false.
Proof.
  destruct (@C5_ClearState_resets PairDecoder _ pair_seeker_before_reset true)
    as [Hret _].
  destruct (Hret _ ltac:(vm_compute; reflexivity)) as (s' & more & Hs).
  cbv zeta in Hs.
  destruct Hs as (E & _ & _ & _ & Hprev & _ & _ & _ & _ & _ & Heos & _).
  exists s'. split; [exact E|]. split; [exact Hprev | exact Heos].
Defined.


(** In flv and matroska the key-frame lookup dereferences the index entry
    without the NULL test of the other containers: for an index with no
    entry at or before it the lookup has no defined result, and neither
    have ShouldSeek and GetFramesByIdxList.  C4 leaves these containers
    out. *)
Lemma flv_lookup_undefined :
  avformat_index_get_entry flv_demuxer
    (av_index_search_timestamp flv_demuxer 0) = None
  /\ GetKeyNearestKeyFrameIndexForTarget flv_demuxer 0 = None
  /\ ShouldSeek flv_demuxer (-1) 0 = None
  /\ GetFramesByIdxList [0] (SeekUtils_new flv_demuxer ([] : SimpleDecoder)) = None.
Proof. split_and!; reflexivity. Qed.

(** C8 does not hold as stated.  On the sample source, the first
    resolution of index 1 returns the frame with timestamp 1; the second
    resolution of index 1, with nothing in between, finds -1 as index into
    the pending queue, decodes to the end of the stream and returns no
    frame. *)
Lemma C8_repeat_counterexample :
  exists s1 s2,
    GetFramesByIdxList [1] sample_seeker = Some ([mkDecodedFrame 1 4112], s1)
    /\ GetFramesByIdxList [1] s1 = Some ([], s2)
    /\ mbEOSreached s2 = true
    /\ ~ In (EvSeek 1) (skipn (length (calls s1)) (calls s2)).
Proof.
  eexists. eexists. split; [vm_compute; reflexivity|].
  split; [vm_compute; reflexivity|].
  split; [reflexivity|].
  vm_compute. intuition discriminate.
Qed.

(** C8 (as the code has it) on the seeker that holds frame 1 in
    [mPendingFrames]. *)
Lemma C8_repeat_from_pending_witness :
  exists s1 s2,
    GetFramesByIdxList [1] pair_seeker_after_0 = Some ([mkDecodedFrame 1 4112], s1)
    /\ GetFramesByIdxList [1] s1 = Some ([mkDecodedFrame 1 4112], s2).
Proof.
  destruct (C8_repeat_from_pending pair_seeker_after_0 1 0 (mkDecodedFrame 1 4112))
    as (s1 & s2 & _ & E1 & E2 & _).
  - lia.
  - run_code.
  - run_code.
  - run_code.
  - reflexivity.
  - reflexivity.
  - discriminate.
  - exists s1, s2. split; assumption.
Defined.

End SeekerFacts.

Module ThreadedFacts.
Import CInt Collab SPSC Threaded.

Section Facts.
Context {D : Type} `{NvDecoder D}.
Implicit Types (t : Thread D) (env : Env).

Lemma last_demux_from_app acc (a b : list Event) :
  last_demux_from acc (a ++ b) = last_demux_from (last_demux_from acc a) b.
Proof. unfold last_demux_from. apply fold_left_app. Qed.

Lemma last_demux_from_pushes acc (l : list Event) :
  forallb is_push_event l = true -> last_demux_from acc l = acc.
Proof.
  revert acc. induction l as [|e l IH]; intros acc Hl; [reflexivity|].
  simpl in Hl. apply andb_true_iff in Hl as [He Hl].
  unfold last_demux_from in *. simpl. rewrite IH by exact Hl.
  destruct e; simpl in He; try discriminate; reflexivity.
Qed.

Lemma last_demux_from_indep (l : list Event) m :
  last_demux_from None l = Some m -> forall acc, last_demux_from acc l = Some m.
Proof.
  unfold last_demux_from.
  induction l as [|e l IH]; intros Hl acc; simpl in *; [discriminate|].
  destruct e; auto.
Qed.

Lemma last_demux_turn acc b n a1 a2 a3 a4 (evs : list Event) :
  forallb is_push_event evs = true ->
  last_demux_from acc (EvDemux b n :: EvDecode a1 a2 a3 a4 :: evs) = Some n.
Proof. intros Hp. apply (last_demux_from_pushes (Some n) evs Hp). Qed.

Lemma pushes_no_PushDone (l : list Event) :
  forallb is_push_event l = true -> ~ In EvPushDone l.
Proof.
  intros Hl Hin. rewrite forallb_forall in Hl. apply Hl in Hin. discriminate.
Qed.

(** The frame loop only fetches locked frames and pushes them. *)
Lemma push_frames_exit (n : nat) : forall env t t',
  push_frames n env t = Exited t' ->
  exists evs,
    calls t' = calls t ++ evs
    /\ forallb is_push_event evs = true
    /\ (stopLoads t <= stopLoads t')%nat.
Proof.
  induction n as [|n IH]; intros env t t' E; simpl in E.
  - inversion E; subst. exists []. rewrite app_nil_r. auto.
  - destruct (decodeStopFlag env (stopLoads t)).
    + inversion E; subst. exists []. simpl. rewrite app_nil_r. auto.
    + destruct (GetLockedFrame (decoder t)) as [tup d] eqn:EG. simpl in E.
      unfold push_entry in E.
      destruct (PushEntry _ _) as [b r|b|b m]; try discriminate.
      apply IH in E as (evs & Hc & Hp & Hl). simpl in *.
      exists (EvGetLockedFrame :: EvPushEntry (GetCAIMemoryViewAndDLPack tup) :: evs).
      rewrite Hc, <- !app_assoc. simpl. split_and!; auto; lia.
Qed.

(** The decode loop, when it is left: its calls end with the calls of its
    last turn, whose Demux delivered the byte count the loop is left with;
    it is left with a non-zero count only on a stop flag observed set. *)
Lemma do_while_exit (remaining : list DemuxedPacket) :
  forall pVideo pts env t n t1,
    do_while remaining pVideo pts env t = LoopExit n t1 ->
    exists pre,
      calls t1 = calls t ++ pre
      /\ last_demux_bytes pre = Some n
      /\ ~ In EvPushDone pre
      /\ (n <> 0 -> exists k, stopLoads t1 = S k /\ decodeStopFlag env k = true).
Proof.
  induction remaining as [|p rest IH]; intros pVideo pts env t n t1 E; simpl in E.
  - unfold loop_body in E.
    destruct (Decode pVideo 0 0 pts _) as [nf d] eqn:ED. simpl in E.
    destruct (push_frames _ _ _) as [t2|t2] eqn:EP; [|discriminate].
    inversion E; subst. clear E.
    apply push_frames_exit in EP as (evs & Hc & Hp & _). simpl in Hc.
    exists (EvDemux (bool_decide (is_Some (@None DemuxedPacket))) 0
              :: EvDecode pVideo 0 0 pts :: evs).
    rewrite Hc, <- !app_assoc. split_and!; auto.
    + apply last_demux_turn, Hp.
    + intros [Hin|[Hin|Hin]]; try discriminate.
      revert Hin. apply pushes_no_PushDone, Hp.
    + intros Hn. contradiction.
  - unfold loop_body in E.
    destruct (Decode (pkt_data p) (pkt_size p) 0 (pkt_pts p) _) as [nf d] eqn:ED.
    simpl in E.
    destruct (push_frames _ _ _) as [t2|t2] eqn:EP; [|discriminate].
    apply push_frames_exit in EP as (evs & Hc & Hp & _). simpl in Hc.
    set (turn := EvDemux (bool_decide (is_Some (Some p))) (pkt_size p)
                   :: EvDecode (pkt_data p) (pkt_size p) 0 (pkt_pts p) :: evs).
    assert (Hc2 : calls t2 = calls t ++ turn).
    { rewrite Hc, <- !app_assoc. reflexivity. }
    assert (Hturn : forall acc, last_demux_from acc turn = Some (pkt_size p)).
    { intros acc. apply last_demux_turn, Hp. }
    assert (Hnodone : ~ In EvPushDone turn).
    { intros [Hin|[Hin|Hin]]; try discriminate.
      revert Hin. apply pushes_no_PushDone, Hp. }
    destruct (Z.eqb_spec (pkt_size p) 0) as [E0|Hne].
    + inversion E; subst. clear E.
      exists turn. split_and!; auto.
      * apply Hturn.
      * intros Hn. contradiction.
    + simpl in E. destruct (decodeStopFlag env (stopLoads t2)) eqn:Estop.
      * inversion E; subst. clear E.
        exists turn. split_and!; auto.
        -- apply Hturn.
        -- intros _. exists (stopLoads t2). simpl. auto.
      * apply IH in E as (pre & Hc' & Hlast & Hnd & Hstop). simpl in Hc'.
        exists (turn ++ pre). split_and!; auto.
        -- rewrite Hc', Hc2, <- !app_assoc. reflexivity.
        -- unfold last_demux_bytes. rewrite last_demux_from_app.
           apply last_demux_from_indep, Hlast.
        -- rewrite in_app_iff. tauto.
Qed.

(** A consumer that empties the channel before every push keeps the
    thread from sleeping in PushEntry: the run returns. *)
Lemma push_entry_exits env frame t :
  (forall k, consumer env k = [0]) ->
  Inv (decodedFrames t) -> 0 < mCapacity (decodedFrames t) ->
  exists t',
    push_entry env frame t = Exited t'
    /\ Inv (decodedFrames t')
    /\ mCapacity (decodedFrames t') = mCapacity (decodedFrames t).
Proof.
  intros Hcons HI Hcap. unfold push_entry, consumer_pops. rewrite Hcons. simpl.
  pose proof (SPSCFacts.inv_count_bounds (decodedFrames t) HI) as Hcnt.
  destruct (SPSCFacts.PopEntries_returns DecodedFrame_zero 0 (decodedFrames t)
              (mCount (decodedFrames t)) HI ltac:(lia) ltac:(lia))
    as (b & E & HIb & Hc & _ & _ & _ & _ & Hcapb & _).
  { simpl. rewrite Z.leb_refl, Z.ltb_irrefl, andb_false_r. auto. }
  rewrite E. simpl.
  destruct (SPSCFacts.PushEntry_spec DecodedFrame_zero frame b HIb ltac:(lia))
    as (b' & E' & HIb' & _ & _ & _ & _ & Hcapb' & _).
  rewrite E'. eexists. split; [reflexivity|]. simpl. split; [exact HIb' | congruence].
Qed.

Lemma push_frames_exits (n : nat) : forall env t,
  (forall k, consumer env k = [0]) ->
  Inv (decodedFrames t) -> 0 < mCapacity (decodedFrames t) ->
  exists t',
    push_frames n env t = Exited t'
    /\ Inv (decodedFrames t')
    /\ mCapacity (decodedFrames t') = mCapacity (decodedFrames t).
Proof.
  induction n as [|n IH]; intros env t Hcons HI Hcap; simpl.
  - eauto.
  - destruct (decodeStopFlag env (stopLoads t)); [eexists; split; [reflexivity|]; auto|].
    destruct (GetLockedFrame (decoder t)) as [tup d]. simpl.
    match goal with
    | |- context [push_entry env ?f ?t0] =>
        destruct (push_entry_exits env f t0 Hcons HI Hcap) as (t1 & E1 & HI1 & Hcap1)
    end.
    rewrite E1. simpl in Hcap1.
    destruct (IH env t1 Hcons HI1 ltac:(lia)) as (t2 & E2 & HI2 & Hcap2).
    exists t2. split; [exact E2|]. split; [exact HI2 | congruence].
Qed.

Lemma do_while_exits (remaining : list DemuxedPacket) : forall pVideo pts env t,
  (forall k, consumer env k = [0]) ->
  Inv (decodedFrames t) -> 0 < mCapacity (decodedFrames t) ->
  exists n t', do_while remaining pVideo pts env t = LoopExit n t'.
Proof.
  induction remaining as [|p rest IH]; intros pVideo pts env t Hcons HI Hcap; simpl.
  - unfold loop_body. destruct (Decode pVideo 0 0 pts _) as [nf d]. simpl.
    match goal with
    | |- context [push_frames ?k env ?t0] =>
        destruct (push_frames_exits k env t0 Hcons HI Hcap) as (t1 & E1 & _)
    end.
    rewrite E1. eauto.
  - unfold loop_body.
    destruct (Decode (pkt_data p) (pkt_size p) 0 (pkt_pts p) _) as [nf d]. simpl.
    match goal with
    | |- context [push_frames ?k env ?t0] =>
        destruct (push_frames_exits k env t0 Hcons HI Hcap) as (t1 & E1 & HI1 & Hcap1)
    end.
    rewrite E1. simpl in Hcap1.
    destruct (pkt_size p =? 0); [eauto|]. simpl.
    destruct (decodeStopFlag env (stopLoads t1)); [eauto|].
    apply IH; simpl; auto. lia.
Qed.

Lemma RunDecoder_exits env t :
  (forall k, consumer env k = [0]) ->
  Inv (decodedFrames t) -> 0 < mCapacity (decodedFrames t) ->
  exists t', RunDecoder env t = Exited t'.
Proof.
  intros Hcons HI Hcap. unfold RunDecoder.
  destruct (do_while_exits (packets (demuxer t)) 0 0 env t Hcons HI Hcap)
    as (n & t1 & E).
  rewrite E. destruct (negb (n =? 0)); [|eauto].
  simpl. destruct (Decode _ _ 0 0 _). eauto.
Qed.

(** C6 (as the code has it). A run of RunDecoder that returns has called
    PushDone once, after the loop and all its pushes, and leaves the drain
    flag set.  After PushDone it sends one empty packet through the
    decoder exactly when the last Demux call of the loop delivered a
    non-zero byte count, which happens only when the loop was left on a
    stop flag observed set; no frame is fetched or pushed after PushDone.
    When the stop flag is never observed set, the loop is left on a Demux
    call that delivered zero bytes and nothing is sent after PushDone. *)
Theorem C6_RunDecoder_exit env t t' :
  RunDecoder env t = Exited t' ->
  exists pre n,
    calls t' = calls t ++ pre ++ EvPushDone
                 :: (if n =? 0 then [] else [EvDecode 0 0 0 0])
    /\ last_demux_bytes pre = Some n
    /\ ~ In EvPushDone pre
    /\ mDrain (decodedFrames t') = true
    /\ (n <> 0 -> exists k, (k < stopLoads t')%nat /\ decodeStopFlag env k = true)
    /\ ((forall k, decodeStopFlag env k = false) -> n = 0).
Proof.
  unfold RunDecoder. intros E.
  destruct (do_while _ 0 0 env t) as [n t1|t1] eqn:EL; [|discriminate].
  apply do_while_exit in EL as (pre & Hc & Hlast & Hnd & Hstop).
  exists pre, n.
  assert (Hnever : (forall k, decodeStopFlag env k = false) -> n = 0).
  { intros Hno. destruct (Z.eq_dec n 0) as [|Hn]; [assumption|].
    destruct (Hstop Hn) as (k & _ & Hk). rewrite Hno in Hk. discriminate. }
  destruct (Z.eqb_spec n 0) as [E0|Hne]; simpl in E.
  - inversion E; subst t'. clear E. simpl.
    rewrite Hc, <- app_assoc. split_and!; auto.
    intros Hn. contradiction.
  - destruct (Decode _ _ 0 0 _) as [nf d] eqn:ED.
    inversion E; subst t'. clear E. simpl.
    rewrite Hc, <- !app_assoc. split_and!; auto.
    intros _. destruct (Hstop Hne) as (k & Hk & Hflag).
    exists k. split; [lia | exact Hflag].
Qed.

End Facts.

Import Sample.

(** C6 does not hold as stated.  On the sample source, with the stop flag
    never raised, three packets are consumed and the run ends with
    PushDone: no packet is sent to the decoder after it. *)
Lemma C6_RunDecoder_counterexample :
  exists t' pre,
    RunDecoder sample_env sample_thread = Exited t'
    /\ calls t' = pre ++ [EvPushDone]
    /\ In (EvDemux true 16) pre
    /\ ~ In (EvDecode 0 0 0 0) (calls t').
Proof.
  eexists. eexists. split; [vm_compute; reflexivity|].
  split.
  - simpl.
    match goal with
    | |- ?l = _ => change l with (removelast l ++ [EvPushDone])
    end.
    reflexivity.
  - split; [simpl; tauto|]. simpl. intuition discriminate.
Qed.

(** C6 (as the code has it) on the run that is stopped after the second
    packet. *)
Lemma C6_RunDecoder_exit_witness :
  mDrain (decodedFrames (final_thread (RunDecoder stopping_env sample_thread))) = true.
Proof.
  destruct (C6_RunDecoder_exit stopping_env sample_thread
              (final_thread (RunDecoder stopping_env sample_thread)))
    as (pre & n & _ & _ & _ & Hdrain & _).
  - vm_compute. reflexivity.
  - exact Hdrain.
Defined.

End ThreadedFacts.

(* ===================================================================== *)
(** * Further properties of the channel                                   *)
(* ===================================================================== *)

Module SPSCExtra.
Import CInt SPSC.

Section Facts.
Context {T : Type} (d : T).
Implicit Types (s : SPSCBuffer T) (x : T).

Lemma run_app (ops1 ops2 : list (Op T)) s :
  run d (ops1 ++ ops2) s = run d ops2 (run d ops1 s).
Proof. unfold run. apply fold_left_app. Qed.

(** Pushes that fit are all accepted and queue up behind the buffered
    items. *)
Lemma run_pushes (items : list T) : forall s,
  Inv s -> mCount s + Z.of_nat (length items) <= mCapacity s ->
  Inv (run d (map OpPush items) s)
  /\ contents d (run d (map OpPush items) s) = contents d s ++ items
  /\ mCount (run d (map OpPush items) s) = mCount s + Z.of_nat (length items)
  /\ mDrain (run d (map OpPush items) s) = mDrain s
  /\ mCapacity (run d (map OpPush items) s) = mCapacity s.
Proof.
  induction items as [|x items IH]; intros s HI Hroom.
  - simpl. rewrite app_nil_r. split_and!; auto; lia.
  - simpl in Hroom. simpl.
    destruct (SPSCFacts.PushEntry_spec d x s HI ltac:(lia))
      as (s1 & E & HI1 & _ & _ & Hc & Hd & Hcap & Hcont).
    rewrite E. simpl.
    destruct (IH s1 HI1 ltac:(lia)) as (HI2 & Hcont2 & Hc2 & Hd2 & Hcap2).
    fold (run d (map OpPush items) s1).
    rewrite Hcont2, Hcont, Hc2, Hc, Hd2, Hd, Hcap2, Hcap, <- app_assoc.
    split_and!; auto; lia.
Qed.

(** X1. First in, first out: items pushed while there is room come back
    from [PopEntries(0)] behind the items that were already buffered, in
    the order they were pushed, none lost and none repeated; on a fresh
    channel the pop returns exactly the pushed items. *)
Theorem X1_fifo_round_trip (s : SPSCBuffer T) (items : list T) (size : Z) :
  Inv s ->
  mCount s + Z.of_nat (length items) <= mCapacity s ->
  Z.of_nat (length items) <= size < 2 ^ 32 ->
  (exists s',
      PopEntries d 0 (run d (map OpPush items) s)
      = Returned s' (contents d s ++ items)
      /\ mCount s' = 0)
  /\ (exists s',
      PopEntries d 0 (run d (map OpPush items) (SPSCBuffer_new d size))
      = Returned s' items).
Proof.
  intros HI Hroom Hsize.
  assert (Hpop : forall s0, Inv s0 ->
            exists s', PopEntries d 0 s0 = Returned s' (contents d s0)
                       /\ mCount s' = 0).
  { intros s0 HI0. pose proof (SPSCFacts.inv_count_bounds s0 HI0) as Hcnt.
    destruct (SPSCFacts.PopEntries_returns d 0 s0 (mCount s0) HI0
                ltac:(lia) ltac:(lia)) as (s' & E & _ & Hc & _).
    { simpl. rewrite Z.leb_refl, Z.ltb_irrefl, andb_false_r. auto. }
    exists s'. rewrite E, firstn_all2 by (rewrite SPSCFacts.length_contents; lia).
    split; [reflexivity | lia]. }
  split.
  - destruct (run_pushes items s HI Hroom) as (HI' & Hcont & _).
    destruct (Hpop _ HI') as (s' & E & Hc). exists s'. rewrite E, Hcont. auto.
  - assert (HI0 : Inv (SPSCBuffer_new d size)) by (apply SPSCFacts.Inv_new; lia).
    destruct (run_pushes items (SPSCBuffer_new d size) HI0) as (HI' & Hcont & _).
    { simpl. rewrite SPSCFacts.to_uint32_small; lia. }
    destruct (Hpop _ HI') as (s' & E & _). exists s'. rewrite E, Hcont.
    reflexivity.
Qed.

(** X2. Back-pressure: on a reachable channel [PushEntry] waits exactly
    when the channel is full, and then changes nothing; otherwise it
    returns, and the new item stands behind the buffered ones, which are
    all still there. *)
Theorem X2_push_waits_iff_full (s : SPSCBuffer T) (x : T) :
  Inv s ->
  (PushEntry x s = Waiting s <-> mCount s = mCapacity s)
  /\ (mCount s < mCapacity s ->
      exists s', PushEntry x s = Returned s' true
                 /\ contents d s' = contents d s ++ [x]
                 /\ mCount s' = mCount s + 1)
  /\ (forall s' r, PushEntry x s <> Thrown s' r).
Proof.
  intros HI. pose proof (SPSCFacts.inv_count_bounds s HI) as Hcnt.
  split; [|split].
  - split.
    + intros E. destruct (Z.lt_ge_cases (mCount s) (mCapacity s)) as [Hlt|Hge]; [|lia].
      destruct (SPSCFacts.PushEntry_spec d x s HI Hlt) as (s' & E' & _).
      rewrite E' in E. discriminate.
    + intros E. apply SPSCFacts.PushEntry_full. lia.
  - intros Hlt.
    destruct (SPSCFacts.PushEntry_spec d x s HI Hlt)
      as (s' & E & _ & _ & _ & Hc & _ & _ & Hcont).
    exists s'. auto.
  - intros s' r. unfold PushEntry. destruct (mCount s <? mCapacity s); discriminate.
Qed.

(** X3. A pop of a legal non-zero size on a channel that is not draining
    waits exactly when fewer items than asked are buffered; otherwise it
    returns the [batchSize] oldest items and leaves the others buffered in
    their order. *)
Theorem X3_pop_exact_batch (s : SPSCBuffer T) (batchSize : Z) :
  Inv s -> mDrain s = false -> 0 < batchSize <= mCapacity s ->
  (PopEntries d batchSize s = Waiting s <-> mCount s < batchSize)
  /\ (batchSize <= mCount s ->
      exists s',
        PopEntries d batchSize s
        = Returned s' (take (Z.to_nat batchSize) (contents d s))
        /\ contents d s' = drop (Z.to_nat batchSize) (contents d s)
        /\ mCount s' = mCount s - batchSize).
Proof.
  intros HI Hd Hb.
  assert (Hret : batchSize <= mCount s ->
            exists s',
              PopEntries d batchSize s
              = Returned s' (take (Z.to_nat batchSize) (contents d s))
              /\ contents d s' = drop (Z.to_nat batchSize) (contents d s)
              /\ mCount s' = mCount s - batchSize).
  { intros Hle.
    destruct (SPSCFacts.PopEntries_returns d batchSize s batchSize HI
                ltac:(lia) ltac:(lia))
      as (s' & E & _ & Hc & _ & _ & _ & _ & _ & Hcont).
    { simpl. rewrite Hd. destruct (Z.eqb_spec batchSize 0); [lia|].
      destruct (Z.leb_spec batchSize (mCount s)); [|lia]. auto. }
    exists s'. auto. }
  split; [|exact Hret].
  split.
  - intros E. destruct (Z.lt_ge_cases (mCount s) batchSize) as [|Hge]; [assumption|].
    destruct (Hret ltac:(lia)) as (s' & E' & _). rewrite E' in E. discriminate.
  - intros Hlt. unfold PopEntries.
    destruct (Z.ltb_spec (mCapacity s) batchSize); [lia|].
    destruct (Z.eqb_spec batchSize 0); [lia|].
    destruct (Z.leb_spec batchSize (mCount s)); [lia|].
    rewrite Hd. reflexivity.
Qed.

(** On a channel whose capacity is 0 nothing is ever buffered. *)
Lemma zero_capacity_run (ops : list (Op T)) : forall s,
  Inv s -> mCapacity s = 0 ->
  Inv (run d ops s) /\ mCapacity (run d ops s) = 0 /\ mCount (run d ops s) = 0.
Proof.
  induction ops as [|o ops IH]; intros s HI Hcap.
  - pose proof (SPSCFacts.inv_count_bounds s HI). simpl. split_and!; auto; lia.
  - simpl. apply IH.
    + apply SPSCFacts.step_Inv, HI.
    + destruct o as [x| |b|]; simpl; auto.
      * rewrite SPSCFacts.PushEntry_full; [exact Hcap|].
        pose proof (SPSCFacts.inv_count_bounds s HI). lia.
      * destruct (PopEntries d b s) as [s' e|s'|s' m] eqn:E; simpl.
        -- destruct (SPSCFacts.PopEntries_Returned_inv d b s s' e HI E)
             as (n & _ & _ & _ & _ & _ & _ & _ & _ & _ & Hc'). congruence.
        -- unfold PopEntries in E.
           destruct (mCapacity s <? b); [discriminate|].
           destruct (_ || _); [|congruence].
           destruct (pop_loop _ _ _ _); discriminate.
        -- unfold PopEntries in E.
           destruct (mCapacity s <? b); [congruence|].
           destruct (_ || _); [|discriminate].
           destruct (pop_loop _ _ _ _); discriminate.
Qed.

(** X4. The capacity is the constructor's [size_t] argument cut to 32
    bits.  When that is 0 (the default constructor, size 0, or a size that
    is a multiple of 2^32) the channel accepts nothing: after any calls
    every [PushEntry] waits, every pop of a non-zero size throws, and
    [PopEntries(0)] returns an empty vector. *)
Theorem X4_zero_capacity_channel (size : Z) (ops : list (Op T)) (x : T) (batchSize : Z) :
  0 <= size -> size mod 2 ^ 32 = 0 -> 0 < batchSize ->
  let s := run d ops (SPSCBuffer_new d size) in
  PushEntry x s = Waiting s
  /\ PopEntries d batchSize s = Thrown s (batchSize_message batchSize 0)
  /\ (exists s', PopEntries d 0 s = Returned s' []).
Proof.
  intros Hsize Hmod Hb s.
  assert (HI0 : Inv (SPSCBuffer_new d size)) by (apply SPSCFacts.Inv_new; lia).
  destruct (zero_capacity_run ops (SPSCBuffer_new d size) HI0 Hmod)
    as (HI & Hcap & Hcnt).
  fold s in HI, Hcap, Hcnt. split; [|split].
  - apply SPSCFacts.PushEntry_full. lia.
  - unfold PopEntries. rewrite Hcap.
    destruct (Z.ltb_spec 0 batchSize); [reflexivity | lia].
  - destruct (SPSCFacts.PopEntries_returns d 0 s 0 HI ltac:(lia) ltac:(lia))
      as (s' & E & _).
    { simpl. rewrite Hcnt. simpl. rewrite andb_false_r. auto. }
    exists s'. rewrite E. reflexivity.
Qed.

End Facts.

Lemma X1_fifo_round_trip_witness :
  exists s',
    PopEntries 0%nat 0
      (run 0%nat (map OpPush [7%nat; 8%nat; 9%nat]) (SPSCBuffer_new 0%nat 4))
    = Returned s' [7%nat; 8%nat; 9%nat].
Proof.
  destruct (X1_fifo_round_trip 0%nat (SPSCBuffer_new 0%nat 4) [7%nat; 8%nat; 9%nat] 4)
    as (_ & s' & E).
  - apply SPSCFacts.Inv_new. lia.
  - vm_compute. discriminate.
  - simpl. lia.
  - exists s'. exact E.
Defined.

Lemma X2_push_waits_iff_full_witness :
  let s := run 0%nat [OpPush 1%nat; OpPush 2%nat] (SPSCBuffer_new 0%nat 2) in
  PushEntry 3%nat s = Waiting s.
Proof.
  intros s.
  destruct (X2_push_waits_iff_full 0%nat s 3%nat) as ((_ & Hfull) & _).
  - apply SPSCFacts.run_Inv, SPSCFacts.Inv_new. lia.
  - apply Hfull. reflexivity.
Defined.

Lemma X3_pop_exact_batch_witness :
  let s := run 0%nat [OpPush 1%nat; OpPush 2%nat; OpPush 3%nat] (SPSCBuffer_new 0%nat 4) in
  exists s', PopEntries 0%nat 2 s = Returned s' (take 2 (contents 0%nat s)).
Proof.
  intros s.
  destruct (X3_pop_exact_batch 0%nat s 2) as (_ & Hret).
  - apply SPSCFacts.run_Inv, SPSCFacts.Inv_new. lia.
  - reflexivity.
  - vm_compute. repeat split; discriminate.
  - destruct Hret as (s' & E & _); [vm_compute; discriminate|].
    exists s'. exact E.
Defined.

Lemma X4_zero_capacity_channel_witness :
  let s := run 0%nat [OpPush 1%nat; OpPushDone] (SPSCBuffer_new 0%nat 0) in
  PushEntry 5%nat s = Waiting s.
Proof.
  intros s.
  refine (proj1 (X4_zero_capacity_channel 0%nat 0 [OpPush 1%nat; OpPushDone] 5%nat 1 _ _ _));
    [lia | reflexivity | lia].
Defined.

End SPSCExtra.

(* ===================================================================== *)
(** * Further properties of the decoder cache                             *)
(* ===================================================================== *)

Module LRUExtra.
Import CInt LRU LRUOps.

Section Facts.
Context {Key : Type} `{Countable Key} {Value : Type}.
Implicit Types (c : DecoderCache Key Value) (key : Key) (value : Value).
Implicit Types (items : list (Key * Value)).

Lemma RemoveElement_snoc c l lru :
  mCacheItems c = l ++ [lru] ->
  RemoveElement c
  = (Some lru.2, {| mCapacity := mCapacity c; mCacheItems := l;
                    mCacheMap := mCacheMap c ∖ {[lru.1]} |}).
Proof.
  intros E. unfold RemoveElement. rewrite E, last_snoc, removelast_last. reflexivity.
Qed.

Lemma RemoveElement_empty c :
  mCacheItems c = [] -> RemoveElement c = (None, c).
Proof. intros E. unfold RemoveElement. rewrite E. reflexivity. Qed.

Lemma RemoveElement_WF c : WF c -> WF (RemoveElement c).2.
Proof.
  intros HW. destruct (mCacheItems c) as [|kv0 l0] eqn:E using rev_ind.
  - rewrite RemoveElement_empty by exact E. exact HW.
  - clear IHl0. rewrite (RemoveElement_snoc c l0 kv0 E). simpl.
    pose proof (wf_nodup c HW) as Hnd. pose proof (wf_map c HW) as Hmap.
    pose proof (wf_size c HW) as Hsz. rewrite E in Hnd, Hmap, Hsz.
    rewrite fmap_app in Hnd. simpl in Hnd.
    apply NoDup_app in Hnd as (Hnd1 & Hdisj & _).
    rewrite length_app in Hsz. simpl in Hsz.
    constructor; simpl.
    + exact Hnd1.
    + intros k. rewrite elem_of_difference, elem_of_singleton, Hmap.
      rewrite fmap_app, elem_of_app. simpl. rewrite list_elem_of_singleton.
      split; [tauto|]. intros Hk. split; [tauto|].
      intros ->. apply (Hdisj _ Hk). left.
    + apply (wf_capacity c HW).
    + lia.
Qed.

Lemma cache_step_WF c o : WF c -> WF (cache_step c o).
Proof.
  intros HW. destruct o; simpl.
  - apply LRUFacts.GetDecoder_WF, HW.
  - apply LRUFacts.PushDecoder_WF, HW.
  - apply RemoveElement_WF, HW.
Qed.

Lemma cache_step_capacity c o : mCapacity (cache_step c o) = mCapacity c.
Proof.
  destruct o; simpl.
  - unfold GetDecoder. destruct (decide _); [|reflexivity].
    destruct (find_node _ _); reflexivity.
  - unfold PushDecoder. destruct (decide _).
    + destruct (find_node _ _); reflexivity.
    + destruct (_ =? _); [destruct (last _)|]; reflexivity.
  - unfold RemoveElement. destruct (last _); reflexivity.
Qed.

Lemma cache_run_WF (ops : list (CacheOp Key Value)) : forall c,
  WF c -> WF (cache_run ops c) /\ mCapacity (cache_run ops c) = mCapacity c.
Proof.
  induction ops as [|o ops IH]; intros c HW; simpl; [auto|].
  destruct (IH (cache_step c o) (cache_step_WF c o HW)) as (HW' & Hcap).
  split; [exact HW'|]. rewrite Hcap. apply cache_step_capacity.
Qed.

(** X5. Whatever calls are made on a cache built with a capacity below
    2^31, it never holds two entries with the same key, never holds more
    entries than its capacity (1 when 0 was asked for), and its key index
    lists exactly the keys of the recency list. *)
Theorem X5_cache_invariant (capacity : Z) (ops : list (CacheOp Key Value)) :
  0 <= capacity < 2 ^ 31 ->
  let c := cache_run ops (DecoderCache_new capacity) in
  NoDup (mCacheItems c).*1
  /\ Z.of_nat (length (mCacheItems c)) <= Z.max 1 capacity
  /\ mCapacity c = Z.max 1 capacity
  /\ (forall k, k ∈ mCacheMap c <-> k ∈ (mCacheItems c).*1).
Proof.
  intros Hcap c.
  destruct (cache_run_WF ops (DecoderCache_new capacity)
              (LRUFacts.WF_new capacity Hcap)) as (HW & Hc).
  fold c in HW, Hc.
  assert (Hmax : mCapacity c = Z.max 1 capacity).
  { rewrite Hc. simpl. destruct (Z.ltb_spec capacity 1); [lia|].
    unfold to_int32. rewrite Z.mod_small; lia. }
  split; [apply (wf_nodup c HW)|]. split; [|split; [exact Hmax|apply (wf_map c HW)]].
  rewrite <- Hmax. apply (wf_size c HW).
Qed.

Lemma find_node_unlink_ne key key' items :
  key' <> key -> find_node key' (unlink_node key items) = find_node key' items.
Proof.
  intros Hne. induction items as [|[k v] items IH]; simpl; [reflexivity|].
  destruct (decide (k = key)) as [->|Hk].
  - rewrite decide_False by congruence. reflexivity.
  - simpl. destruct (decide (k = key')); [reflexivity | exact IH].
Qed.

Lemma find_node_absent key items :
  key ∉ items.*1 -> find_node key items = None.
Proof.
  induction items as [|[k v] items IH]; simpl; intros Hn; [reflexivity|].
  apply not_elem_of_cons in Hn as [Hk Hn].
  rewrite decide_False by congruence. apply IH, Hn.
Qed.

Lemma find_node_snoc_ne key' l (lru : Key * Value) :
  key' <> lru.1 -> find_node key' (l ++ [lru]) = find_node key' l.
Proof.
  intros Hne. induction l as [|[k v] l IH]; simpl.
  - rewrite decide_False by congruence. reflexivity.
  - destruct (decide (k = key')); [reflexivity | exact IH].
Qed.

(** X6. Put then Get: after [PushDecoder(key, value)] the cache stores
    [value] under [key], [GetDecoder(key)] returns it, and that Get changes
    nothing, the entry being the most recently used already. *)
Theorem X6_put_get_round_trip c key value :
  WF c ->
  let c' := (PushDecoder key value c).2 in
  cached key c' = Some value
  /\ GetDecoder key c' = (Some value, c')
  /\ (exists rest, mCacheItems c' = (key, value) :: rest).
Proof.
  intros HW c'.
  assert (HW' : WF c') by apply LRUFacts.PushDecoder_WF, HW.
  assert (Hhead : exists rest, mCacheItems c' = (key, value) :: rest).
  { subst c'. destruct (decide (key ∈ (mCacheItems c).*1)) as [Hin|Hout].
    - destruct (LRUFacts.key_node _ _ Hin) as (v & l1 & l2 & E).
      rewrite (LRUFacts.PushDecoder_hit c key value v l1 l2 HW E). simpl. eauto.
    - unfold PushDecoder. rewrite decide_False.
      + destruct (_ =? _); [destruct (last _)|]; simpl; eauto.
      + intros Hin. apply Hout, (wf_map c HW), Hin. }
  destruct Hhead as (rest & E). split; [|split; [|eauto]].
  - unfold cached. rewrite E. simpl. rewrite decide_True by reflexivity. reflexivity.
  - rewrite (LRUFacts.GetDecoder_hit c' key value [] rest HW' E). simpl.
    destruct c'. simpl in *. subst. reflexivity.
Qed.

(** X7. Put leaves the other keys alone: every key other than the one
    put keeps its value, except the least recently used key when the Put
    evicts it, which is then absent. *)
Theorem X7_put_other_keys c key value key' :
  WF c -> key' <> key ->
  let r := PushDecoder key value c in
  (r.1 = None -> cached key' r.2 = cached key' c)
  /\ (forall l lru,
        r.1 <> None -> mCacheItems c = l ++ [lru] ->
        (key ∉ (mCacheItems c).*1)
        /\ cached lru.1 r.2 = None
        /\ (key' <> lru.1 -> cached key' r.2 = cached key' c)).
Proof.
  intros HW Hne r. subst r.
  destruct (decide (key ∈ (mCacheItems c).*1)) as [Hin|Hout].
  - destruct (LRUFacts.key_node _ _ Hin) as (v & l1 & l2 & E).
    destruct (LRUFacts.node_position _ _ _ _ _ (wf_nodup c HW) E) as (Hn1 & _ & _).
    rewrite (LRUFacts.PushDecoder_hit c key value v l1 l2 HW E). simpl.
    split.
    + intros _. unfold cached. simpl. rewrite decide_False by congruence.
      rewrite E, <- (LRUFacts.unlink_node_app key v l1 l2 Hn1).
      rewrite find_node_unlink_ne by exact Hne. reflexivity.
    + intros l lru Hsome. contradiction.
  - destruct (Z.eq_dec (Z.of_nat (length (mCacheItems c))) (mCapacity c)) as [Hfull|Hroom].
    + destruct (mCacheItems c) as [|kv0 l0] eqn:E using rev_ind.
      { pose proof (wf_capacity c HW). simpl in Hfull. lia. }
      clear IHl0.
      rewrite (LRUFacts.PushDecoder_evict c key value kv0 l0 HW);
        rewrite ?E; auto.
      simpl. split; [discriminate|].
      intros l lru _ El. apply app_inj_tail in El as [-> ->].
      pose proof (wf_nodup c HW) as Hnd. rewrite E, fmap_app in Hnd. simpl in Hnd.
      apply NoDup_app in Hnd as (_ & Hdisj & _).
      split; [exact Hout|]. unfold cached. simpl. rewrite ?E. split.
      * rewrite fmap_app in Hout. simpl in Hout.
        rewrite elem_of_app, list_elem_of_singleton in Hout.
        rewrite decide_False by (intros ->; tauto).
        rewrite find_node_absent; [reflexivity|].
        intros Hk. apply (Hdisj _ Hk). left.
      * intros Hlru. rewrite decide_False by congruence.
        rewrite find_node_snoc_ne by exact Hlru. reflexivity.
    + pose proof (wf_size c HW).
      rewrite LRUFacts.PushDecoder_room by (auto; lia). simpl.
      split.
      * intros _. unfold cached. simpl. rewrite decide_False by congruence.
        reflexivity.
      * intros l lru Hsome. contradiction.
Qed.

Lemma drain_loop_spec items : forall c turns,
  mCacheItems c = items -> (length items < turns)%nat ->
  exists c',
    drain_loop turns c = (rev items.*2, c')
    /\ mCacheItems c' = []
    /\ mCacheMap c' = mCacheMap c ∖ list_to_set items.*1
    /\ RemoveElement c' = (None, c').
Proof.
  induction items as [|lru l IH] using rev_ind; intros c turns E Hturns.
  - destruct turns as [|turns]; [simpl in Hturns; lia|].
    simpl. rewrite RemoveElement_empty by exact E.
    exists c. split_and!; auto.
    + simpl. rewrite difference_empty_L. reflexivity.
    + apply RemoveElement_empty, E.
  - destruct turns as [|turns]; [lia|].
    rewrite length_app in Hturns. simpl in Hturns.
    simpl. rewrite (RemoveElement_snoc c l lru E).
    destruct (IH {| mCapacity := mCapacity c; mCacheItems := l;
                    mCacheMap := mCacheMap c ∖ {[lru.1]} |} turns
                eq_refl ltac:(lia)) as (c' & Ed & Hi & Hm & Hr).
    rewrite Ed. exists c'. split_and!; auto.
    + rewrite fmap_app, rev_app_distr. reflexivity.
    + rewrite Hm. simpl. apply set_eq. intros k.
      rewrite fmap_app, list_to_set_app_L. simpl.
      rewrite !elem_of_difference, elem_of_union, elem_of_union.
      rewrite elem_of_singleton, elem_of_empty. tauto.
Qed.

(** X8. The drain loop of [~DecoderCommon]: asking [RemoveElement] until
    it returns no value hands out the value of every entry exactly once,
    least recently used first, and leaves the cache empty; on an empty
    cache [RemoveElement] returns no value and changes nothing. *)
Theorem X8_drain_returns_each_once c :
  WF c ->
  exists c',
    drain_loop (S (length (mCacheItems c))) c = (rev (mCacheItems c).*2, c')
    /\ mCacheItems c' = [] /\ mCacheMap c' = ∅
    /\ RemoveElement c' = (None, c').
Proof.
  intros HW.
  destruct (drain_loop_spec (mCacheItems c) c (S (length (mCacheItems c)))
              eq_refl ltac:(lia)) as (c' & Ed & Hi & Hm & Hr).
  exists c'. split_and!; auto.
  rewrite Hm. apply set_eq. intros k.
  rewrite elem_of_difference, elem_of_list_to_set, (wf_map c HW).
  rewrite elem_of_empty. tauto.
Qed.

(** X9. The constructor's [uint32_t] capacity is stored in an [int]: for
    an argument of 2^31 or more the stored capacity is negative, the
    comparison [size() == mCapacity] is made in [size_t] and never holds,
    and the cache never evicts: every Put of a new key returns no value and
    lengthens the list. *)
Theorem X9_huge_capacity_never_evicts (capacity : Z) c key value :
  2 ^ 31 <= capacity < 2 ^ 32 ->
  mCapacity c = mCapacity (@DecoderCache_new Key _ _ Value capacity) ->
  key ∉ mCacheMap c ->
  Z.of_nat (length (mCacheItems c)) < 2 ^ 63 ->
  mCapacity c = capacity - 2 ^ 32
  /\ PushDecoder key value c
     = (None, {| mCapacity := mCapacity c;
                 mCacheItems := (key, value) :: mCacheItems c;
                 mCacheMap := {[key]} ∪ mCacheMap c |}).
Proof.
  intros Hcap Hc Hnew Hlen.
  assert (Hneg : mCapacity c = capacity - 2 ^ 32).
  { rewrite Hc. simpl. destruct (Z.ltb_spec capacity 1); [lia|].
    unfold to_int32.
    replace (capacity + 2 ^ 31) with (capacity - 2 ^ 31 + 1 * 2 ^ 32) by lia.
    rewrite Z.mod_add by lia. rewrite Z.mod_small; lia. }
  split; [exact Hneg|].
  unfold PushDecoder. rewrite decide_False by exact Hnew.
  assert (Hsz : to_size_t (mCapacity c) = capacity - 2 ^ 32 + 2 ^ 64).
  { rewrite Hneg. unfold to_size_t.
    apply SeekerFacts.mod_negative; lia. }
  rewrite Hsz.
  destruct (Z.eqb_spec (Z.of_nat (length (mCacheItems c))) (capacity - 2 ^ 32 + 2 ^ 64));
    [lia | reflexivity].
Qed.

End Facts.

Lemma X5_cache_invariant_witness :
  let c : DecoderCache nat Z :=
    cache_run [CachePut 1%nat 10; CachePut 2%nat 20; CacheGet 1%nat; CachePut 3%nat 30]
              (DecoderCache_new 0) in
  Z.of_nat (length (mCacheItems c)) <= Z.max 1 0.
Proof.
  intros c.
  exact (proj1 (proj2 (X5_cache_invariant 0
           [CachePut 1%nat 10; CachePut 2%nat 20; CacheGet 1%nat; CachePut 3%nat 30]
           ltac:(lia)))).
Defined.

Lemma X6_put_get_round_trip_witness :
  let c : DecoderCache nat Z := (PushDecoder 1%nat 10 (DecoderCache_new 2)).2 in
  cached 2%nat (PushDecoder 2%nat 20 c).2 = Some 20.
Proof.
  intros c. refine (proj1 (X6_put_get_round_trip c 2%nat 20 _)).
  apply LRUFacts.PushDecoder_WF, LRUFacts.WF_new. lia.
Defined.

Lemma X7_put_other_keys_witness :
  let c : DecoderCache nat Z := (PushDecoder 1%nat 10 (DecoderCache_new 2)).2 in
  cached 1%nat (PushDecoder 2%nat 20 c).2 = cached 1%nat c.
Proof.
  intros c. refine (proj1 (X7_put_other_keys c 2%nat 20 1%nat _ _) _).
  - apply LRUFacts.PushDecoder_WF, LRUFacts.WF_new. lia.
  - discriminate.
  - reflexivity.
Defined.

Lemma X8_drain_returns_each_once_witness :
  let c : DecoderCache nat Z :=
    (PushDecoder 2%nat 20 (PushDecoder 1%nat 10 (DecoderCache_new 2)).2).2 in
  exists c', drain_loop (S (length (mCacheItems c))) c = (rev (mCacheItems c).*2, c').
Proof.
  intros c. destruct (X8_drain_returns_each_once c) as (c' & E & _).
  - apply LRUFacts.PushDecoder_WF, LRUFacts.PushDecoder_WF, LRUFacts.WF_new. lia.
  - exists c'. exact E.
Defined.

Lemma X9_huge_capacity_never_evicts_witness :
  mCapacity (@DecoderCache_new nat _ _ Z 4294967295) = -1.
Proof.
  refine (proj1 (X9_huge_capacity_never_evicts 4294967295
                   (@DecoderCache_new nat _ _ Z 4294967295) 1%nat 10 _ _ _ _)).
  - lia.
  - reflexivity.
  - apply not_elem_of_empty.
  - simpl. lia.
Defined.

End LRUExtra.

(* ===================================================================== *)
(** * Further properties of the decode thread                             *)
(* ===================================================================== *)

Module ThreadedExtra.
Import CInt Collab SPSC Threaded ThreadedObs.

Section Facts.
Context {D : Type} `{NvDecoder D}.
Implicit Types (t : Thread D) (env : Env).

Lemma pushed_frames_app (a b : list Event) :
  pushed_frames (a ++ b) = pushed_frames a ++ pushed_frames b.
Proof. unfold pushed_frames. apply flat_map_app. Qed.

Lemma locked_count_app (a b : list Event) :
  locked_count (a ++ b) = (locked_count a + locked_count b)%nat.
Proof. unfold locked_count. rewrite List.filter_app, length_app. reflexivity. Qed.

Lemma pushed_frames_lock_and_push frames :
  pushed_frames (lock_and_push frames) = frames.
Proof. induction frames as [|f l IH]; simpl; [|rewrite IH]; reflexivity. Qed.

Lemma locked_count_lock_and_push frames :
  locked_count (lock_and_push frames) = length frames.
Proof.
  induction frames as [|f l IH]; [reflexivity|].
  unfold locked_count in *. simpl. rewrite IH. reflexivity.
Qed.

Lemma no_PushDone_lock_and_push frames : ~ In EvPushDone (lock_and_push frames).
Proof.
  induction frames as [|f l IH]; simpl; [tauto|].
  intros [Hin|[Hin|Hin]]; try discriminate. exact (IH Hin).
Qed.

Lemma consumer_pops_Inv env t :
  Inv (decodedFrames t) -> Inv (consumer_pops env t).
Proof.
  unfold consumer_pops. generalize (consumer env (pushCalls t)) (decodedFrames t).
  intros l. induction l as [|b l IH]; intros ch HI; simpl; [exact HI|].
  apply IH, SPSCFacts.PopEntries_Inv, HI.
Qed.

(** What the frame loop has done when it ends, either way. *)
Lemma push_frames_trace (n : nat) : forall env t,
  Inv (decodedFrames t) ->
  match push_frames n env t with
  | Exited t' =>
      exists frames,
        calls t' = calls t ++ lock_and_push frames
        /\ Inv (decodedFrames t')
        /\ ((forall k, consumer env k = []) ->
            contents DecodedFrame_zero (decodedFrames t')
            = contents DecodedFrame_zero (decodedFrames t) ++ frames)
  | Parked t' =>
      exists frames,
        calls t' = calls t ++ lock_and_push frames ++ [EvGetLockedFrame]
        /\ Inv (decodedFrames t')
        /\ mCount (decodedFrames t') = mCapacity (decodedFrames t')
  end.
Proof.
  induction n as [|n IH]; intros env t HI; simpl.
  - exists []. simpl. rewrite !app_nil_r. auto.
  - destruct (decodeStopFlag env (stopLoads t)).
    + exists []. simpl. rewrite !app_nil_r. auto.
    + destruct (GetLockedFrame (decoder t)) as [tup d]. simpl.
      set (frame := GetCAIMemoryViewAndDLPack tup).
      unfold push_entry.
      match goal with
      | |- context [consumer_pops env ?t0] =>
          set (t1 := t0);
          pose proof (consumer_pops_Inv env t1 HI) as HIc
      end.
      pose proof (SPSCFacts.inv_count_bounds _ HIc) as Hcnt.
      destruct (Z.lt_ge_cases (mCount (consumer_pops env t1))
                              (mCapacity (consumer_pops env t1))) as [Hlt|Hge].
      * destruct (SPSCFacts.PushEntry_spec DecodedFrame_zero frame _ HIc Hlt)
          as (b & E & HIb & _ & _ & _ & _ & _ & Hcont).
        rewrite E.
        match goal with
        | |- match push_frames n env ?t2 with _ => _ end =>
            specialize (IH env t2 HIb); destruct (push_frames n env t2) as [t'|t']
        end.
        -- destruct IH as (frames & Hc & HI' & Hcontents). simpl in Hc.
           exists (frame :: frames). rewrite Hc, <- !app_assoc. simpl.
           split_and!; auto.
           intros Hidle. rewrite (Hcontents Hidle). simpl.
           rewrite Hcont. unfold consumer_pops. rewrite Hidle. simpl.
           rewrite <- app_assoc. reflexivity.
        -- destruct IH as (frames & Hc & HI' & Hfull). simpl in Hc.
           exists (frame :: frames). rewrite Hc, <- !app_assoc. simpl.
           split_and!; auto.
      * rewrite SPSCFacts.PushEntry_full by lia.
        exists []. simpl. split_and!; auto. lia.
Qed.

(** The same for the whole loop. *)
Lemma do_while_trace (remaining : list DemuxedPacket) : forall pVideo pts env t,
  Inv (decodedFrames t) ->
  match do_while remaining pVideo pts env t with
  | LoopExit _ t' =>
      exists evs,
        calls t' = calls t ++ evs
        /\ locked_count evs = length (pushed_frames evs)
        /\ Inv (decodedFrames t')
        /\ ((forall k, consumer env k = []) ->
            contents DecodedFrame_zero (decodedFrames t')
            = contents DecodedFrame_zero (decodedFrames t) ++ pushed_frames evs)
  | LoopParked t' =>
      exists evs,
        calls t' = calls t ++ evs
        /\ locked_count evs = S (length (pushed_frames evs))
        /\ ~ In EvPushDone evs
        /\ mCount (decodedFrames t') = mCapacity (decodedFrames t')
  end.
Proof.
  assert (Hturn : forall (a b : Event) frames,
            (a = EvGetLockedFrame -> False) -> (b = EvGetLockedFrame -> False) ->
            (forall f, a = EvPushEntry f -> False) ->
            (forall f, b = EvPushEntry f -> False) ->
            locked_count (a :: b :: lock_and_push frames) = length frames
            /\ pushed_frames (a :: b :: lock_and_push frames) = frames).
  { intros a b frames Ha Hb Ha' Hb'.
    change (a :: b :: lock_and_push frames) with ([a; b] ++ lock_and_push frames).
    rewrite locked_count_app, pushed_frames_app.
    rewrite locked_count_lock_and_push, pushed_frames_lock_and_push.
    destruct a; try (exfalso; eauto; fail);
      destruct b; try (exfalso; eauto; fail); auto. }
  assert (Hpark : forall (a b : Event) frames,
            (a = EvGetLockedFrame -> False) -> (b = EvGetLockedFrame -> False) ->
            (forall f, a = EvPushEntry f -> False) ->
            (forall f, b = EvPushEntry f -> False) ->
            a <> EvPushDone -> b <> EvPushDone ->
            locked_count (a :: b :: lock_and_push frames ++ [EvGetLockedFrame])
            = S (length (pushed_frames
                           (a :: b :: lock_and_push frames ++ [EvGetLockedFrame])))
            /\ ~ In EvPushDone (a :: b :: lock_and_push frames ++ [EvGetLockedFrame])).
  { intros a b frames Ha Hb Ha' Hb' Hda Hdb.
    destruct (Hturn a b frames Ha Hb Ha' Hb') as (Hl & Hf).
    change (a :: b :: lock_and_push frames ++ [EvGetLockedFrame])
      with ((a :: b :: lock_and_push frames) ++ [EvGetLockedFrame]).
    rewrite locked_count_app, pushed_frames_app, Hl, Hf.
    change (locked_count [EvGetLockedFrame]) with 1%nat.
    change (pushed_frames [EvGetLockedFrame]) with (@nil DecodedFrame).
    rewrite app_nil_r. split; [lia|].
    rewrite in_app_iff.
    intros [[Hin|[Hin|Hin]]|[Hin|[]]]; try congruence; try discriminate.
    exact (no_PushDone_lock_and_push _ Hin). }
  induction remaining as [|p rest IH]; intros pVideo pts env t HI; simpl.
  - unfold loop_body. destruct (Decode pVideo 0 0 pts _) as [nf d]. simpl.
    match goal with
    | |- context [push_frames ?k env ?t0] =>
        pose proof (push_frames_trace k env t0 HI) as Hp;
        destruct (push_frames k env t0) as [t1|t1]
    end.
    + destruct Hp as (frames & Hc & HI1 & Hcont). simpl in Hc.
      destruct (Hturn (EvDemux (bool_decide (is_Some (@None DemuxedPacket))) 0)
                      (EvDecode pVideo 0 0 pts) frames) as (Hl & Hf);
        try discriminate.
      exists (EvDemux (bool_decide (is_Some (@None DemuxedPacket))) 0
                :: EvDecode pVideo 0 0 pts :: lock_and_push frames).
      split; [rewrite Hc, <- !app_assoc; reflexivity|].
      rewrite Hl, Hf. auto.
    + destruct Hp as (frames & Hc & HI1 & Hfull). simpl in Hc.
      destruct (Hpark (EvDemux (bool_decide (is_Some (@None DemuxedPacket))) 0)
                      (EvDecode pVideo 0 0 pts) frames) as (Hl & Hnd);
        try discriminate.
      exists (EvDemux (bool_decide (is_Some (@None DemuxedPacket))) 0
                :: EvDecode pVideo 0 0 pts
                :: lock_and_push frames ++ [EvGetLockedFrame]).
      split; [rewrite Hc, <- !app_assoc; reflexivity|].
      split_and!; auto.
  - unfold loop_body.
    destruct (Decode (pkt_data p) (pkt_size p) 0 (pkt_pts p) _) as [nf d]. simpl.
    match goal with
    | |- context [push_frames ?k env ?t0] =>
        pose proof (push_frames_trace k env t0 HI) as Hp;
        destruct (push_frames k env t0) as [t1|t1]
    end.
    + destruct Hp as (frames & Hc & HI1 & Hcont). simpl in Hc.
      set (turn := EvDemux (bool_decide (is_Some (Some p))) (pkt_size p)
                     :: EvDecode (pkt_data p) (pkt_size p) 0 (pkt_pts p)
                     :: lock_and_push frames).
      destruct (Hturn (EvDemux (bool_decide (is_Some (Some p))) (pkt_size p))
                      (EvDecode (pkt_data p) (pkt_size p) 0 (pkt_pts p)) frames)
        as (Hl & Hf); try discriminate.
      fold turn in Hl, Hf.
      assert (Hc1 : calls t1 = calls t ++ turn).
      { rewrite Hc, <- !app_assoc. reflexivity. }
      assert (Hnd1 : ~ In EvPushDone turn).
      { intros [Hin|[Hin|Hin]]; try discriminate.
        exact (no_PushDone_lock_and_push _ Hin). }
      assert (Hexit : exists evs,
                calls t1 = calls t ++ evs
                /\ locked_count evs = length (pushed_frames evs)
                /\ Inv (decodedFrames t1)
                /\ ((forall k, consumer env k = []) ->
                    contents DecodedFrame_zero (decodedFrames t1)
                    = contents DecodedFrame_zero (decodedFrames t) ++ pushed_frames evs)).
      { exists turn. rewrite Hl, Hf. auto. }
      destruct (pkt_size p =? 0); [exact Hexit|]. simpl.
      destruct (decodeStopFlag env (stopLoads t1)); [exact Hexit|].
      clear Hexit.
      match goal with
      | |- match do_while rest ?a ?b env ?t2 with _ => _ end =>
          specialize (IH a b env t2 HI1);
          destruct (do_while rest a b env t2) as [n' t'|t']
      end.
      * destruct IH as (evs' & Hc' & Hcount' & HI' & Hcont'). simpl in Hc', Hcont'.
        exists (turn ++ evs'). rewrite Hc', Hc1, <- app_assoc.
        rewrite locked_count_app, pushed_frames_app, length_app, Hl, Hf.
        split_and!; auto.
        intros Hidle. rewrite (Hcont' Hidle), (Hcont Hidle), <- app_assoc.
        reflexivity.
      * destruct IH as (evs' & Hc' & Hcount' & Hnd & Hfull). simpl in Hc'.
        exists (turn ++ evs'). rewrite Hc', Hc1, <- app_assoc.
        rewrite locked_count_app, pushed_frames_app, length_app, Hl, Hf.
        split_and!; auto; [lia|].
        rewrite in_app_iff. tauto.
    + destruct Hp as (frames & Hc & HI1 & Hfull). simpl in Hc.
      destruct (Hpark (EvDemux (bool_decide (is_Some (Some p))) (pkt_size p))
                      (EvDecode (pkt_data p) (pkt_size p) 0 (pkt_pts p)) frames)
        as (Hl & Hnd); try discriminate.
      exists (EvDemux (bool_decide (is_Some (Some p))) (pkt_size p)
                :: EvDecode (pkt_data p) (pkt_size p) 0 (pkt_pts p)
                :: lock_and_push frames ++ [EvGetLockedFrame]).
      split; [rewrite Hc, <- !app_assoc; reflexivity|].
      split_and!; auto.
Qed.

(** X10. A run of RunDecoder that returns has pushed every frame it
    fetched with GetLockedFrame (as many PushEntry calls as GetLockedFrame
    calls, none left locked and unpushed); and when the consumer pops
    nothing meanwhile, the channel holds, behind what it held, exactly the
    pushed frames in the order they were decoded. *)
Theorem X10_every_locked_frame_is_pushed env t t' :
  Inv (decodedFrames t) ->
  RunDecoder env t = Exited t' ->
  exists evs,
    calls t' = calls t ++ evs
    /\ locked_count evs = length (pushed_frames evs)
    /\ ((forall k, consumer env k = []) ->
        contents DecodedFrame_zero (decodedFrames t')
        = contents DecodedFrame_zero (decodedFrames t) ++ pushed_frames evs).
Proof.
  intros HI. unfold RunDecoder.
  pose proof (do_while_trace (packets (demuxer t)) 0 0 env t HI) as Hloop.
  destruct (do_while _ 0 0 env t) as [n t1|t1]; [|discriminate].
  destruct Hloop as (evs & Hc & Hcount & _ & Hcont).
  destruct (negb (n =? 0)).
  - destruct (Decode _ _ 0 0 _) as [nf d]. intros E. inversion E; subst t'. clear E.
    exists (evs ++ [EvPushDone; EvDecode (bsl_data PacketData_zero) (bsl PacketData_zero) 0 0]).
    simpl. rewrite Hc, <- !app_assoc.
    rewrite locked_count_app, pushed_frames_app, length_app. simpl.
    split; [reflexivity|]. split.
    + unfold locked_count at 2. simpl. lia.
    + intros Hidle. rewrite app_nil_r. apply (Hcont Hidle).
  - intros E. inversion E; subst t'. clear E.
    exists (evs ++ [EvPushDone]).
    simpl. rewrite Hc, <- !app_assoc.
    rewrite locked_count_app, pushed_frames_app, length_app. simpl.
    split; [reflexivity|]. split.
    + unfold locked_count at 2. simpl. lia.
    + intros Hidle. rewrite app_nil_r. apply (Hcont Hidle).
Qed.

(** X11. A run of RunDecoder that does not return sleeps in PushEntry:
    the channel is full, PushDone has not been called, and exactly one
    frame fetched with GetLockedFrame has not been pushed. *)
Theorem X11_parked_holds_one_frame env t t' :
  Inv (decodedFrames t) ->
  RunDecoder env t = Parked t' ->
  exists evs,
    calls t' = calls t ++ evs
    /\ locked_count evs = S (length (pushed_frames evs))
    /\ ~ In EvPushDone evs
    /\ mCount (decodedFrames t') = mCapacity (decodedFrames t').
Proof.
  intros HI. unfold RunDecoder.
  pose proof (do_while_trace (packets (demuxer t)) 0 0 env t HI) as Hloop.
  destruct (do_while _ 0 0 env t) as [n t1|t1].
  - destruct (negb (n =? 0)); [destruct (Decode _ _ 0 0 _)|]; discriminate.
  - intros E. inversion E; subst t'. exact Hloop.
Qed.

Lemma push_frames_stopped (n : nat) env t :
  (forall k, decodeStopFlag env k = true) ->
  exists t', push_frames n env t = Exited t'
             /\ calls t' = calls t /\ decodedFrames t' = decodedFrames t
             /\ decoder t' = decoder t.
Proof.
  intros Hstop. destruct n as [|n]; simpl; [eauto|].
  rewrite Hstop. eexists. split; [reflexivity|]. auto.
Qed.

(** X12. With the stop flag already raised the thread does one turn and
    leaves: it demuxes and decodes one packet, fetches and pushes no frame,
    never sleeps on the channel, calls PushDone, and, the packet having
    bytes, sends the empty packet.  The channel only gets its drain flag
    set. *)
Theorem X12_stop_before_start env t :
  (forall k, decodeStopFlag env k = true) ->
  exists t',
    RunDecoder env t = Exited t'
    /\ decodedFrames t' = PushDone (decodedFrames t)
    /\ pushed_frames (drop (length (calls t)) (calls t')) = []
    /\ calls t'
       = calls t ++
         match packets (demuxer t) with
         | [] => [EvDemux false 0; EvDecode 0 0 0 0; EvPushDone]
         | p :: _ =>
             [EvDemux true (pkt_size p);
              EvDecode (pkt_data p) (pkt_size p) 0 (pkt_pts p); EvPushDone]
             ++ (if pkt_size p =? 0 then [] else [EvDecode 0 0 0 0])
         end.
Proof.
  intros Hstop. unfold RunDecoder.
  destruct (packets (demuxer t)) as [|p rest] eqn:Epk; simpl.
  - unfold loop_body. destruct (Decode 0 0 0 0 _) as [nf d]. simpl.
    match goal with
    | |- context [push_frames ?k env ?t0] =>
        destruct (push_frames_stopped k env t0 Hstop) as (t1 & E1 & Hc1 & Hch1 & _)
    end.
    rewrite E1. simpl. eexists. split; [reflexivity|]. simpl.
    rewrite Hc1, Hch1. simpl. rewrite <- !app_assoc. simpl.
    split; [reflexivity|]. split; [|reflexivity].
    rewrite drop_app_length. reflexivity.
  - unfold loop_body.
    destruct (Decode (pkt_data p) (pkt_size p) 0 (pkt_pts p) _) as [nf d]. simpl.
    match goal with
    | |- context [push_frames ?k env ?t0] =>
        destruct (push_frames_stopped k env t0 Hstop) as (t1 & E1 & Hc1 & Hch1 & _)
    end.
    rewrite E1. simpl in Hc1, Hch1. simpl.
    destruct (pkt_size p =? 0) eqn:E0; simpl; rewrite ?E0; simpl.
    + eexists. split; [reflexivity|]. simpl.
      rewrite Hc1, Hch1. rewrite <- !app_assoc. simpl.
      split; [reflexivity|]. split; [|reflexivity].
      rewrite drop_app_length. reflexivity.
    + rewrite Hstop. simpl. rewrite ?E0. simpl.
      destruct (Decode 0 0 0 0 _) as [nf2 d2].
      eexists. split; [reflexivity|]. simpl.
      rewrite Hc1, Hch1. rewrite <- !app_assoc. simpl.
      split; [reflexivity|]. split; [|reflexivity].
      rewrite drop_app_length. reflexivity.
Qed.

End Facts.

Import Sample.

Lemma X10_every_locked_frame_is_pushed_witness :
  exists evs,
    Threaded.calls (final_thread (RunDecoder sample_env sample_thread))
    = Threaded.calls sample_thread ++ evs
    /\ locked_count evs = length (pushed_frames evs).
Proof.
  destruct (X10_every_locked_frame_is_pushed sample_env sample_thread
              (final_thread (RunDecoder sample_env sample_thread)))
    as (evs & Hc & Hcount & _).
  - apply SPSCFacts.Inv_new. lia.
  - vm_compute. reflexivity.
  - exists evs. split; assumption.
Defined.

Lemma X11_parked_holds_one_frame_witness :
  let env := {| decodeStopFlag := fun _ => false; consumer := fun _ => [] |} in
  let t := {| demuxer := sample_demuxer; decoder := ([] : SimpleDecoder);
              decodedFrames := SPSCBuffer_new DecodedFrame_zero 1;
              stopLoads := 0%nat; pushCalls := 0%nat; Threaded.calls := [] |} in
  mCount (decodedFrames (final_thread (RunDecoder env t)))
  = mCapacity (decodedFrames (final_thread (RunDecoder env t))).
Proof.
  intros env t.
  destruct (X11_parked_holds_one_frame env t (final_thread (RunDecoder env t)))
    as (evs & _ & _ & _ & Hfull).
  - apply SPSCFacts.Inv_new. lia.
  - vm_compute. reflexivity.
  - exact Hfull.
Defined.

Lemma X12_stop_before_start_witness :
  let env := {| decodeStopFlag := fun _ => true; consumer := fun _ => [] |} in
  exists t', RunDecoder env sample_thread = Exited t'.
Proof.
  intros env.
  destruct (X12_stop_before_start env sample_thread) as (t' & E & _).
  - reflexivity.
  - exists t'. exact E.
Defined.

End ThreadedExtra.

(* ===================================================================== *)
(** * Further properties of the frame pool of NvDecoder *)

Module FramePoolFacts.
Import CInt FramePool.

Section Facts.
Context {SEI : Type} (SEI_empty : SEI).
Implicit Types d : NvFrames SEI.

Lemma unlock_scan_Some pFrame lf le ev lf' le' :
  unlock_scan pFrame lf le = Some (ev, lf', le') ->
  length lf = S (length lf') /\ length le = S (length le') /\
  zip lf le ≡ₚ (pFrame, ev) :: zip lf' le' /\
  exists i, lf !! i = Some pFrame /\ le !! i = Some ev /\
            (pFrame ∉ take i lf) /\ lf' = delete i lf /\ le' = delete i le.
Proof.
  revert le ev lf' le'.
  induction lf as [|f lf IH]; intros [|e le] ev lf' le' H; simpl in H;
    try discriminate.
  destruct (Z.eqb_spec f pFrame) as [->|Hne].
  - injection H as <- <- <-. split_and!; try done.
    exists 0%nat. split_and!; try done. simpl. apply not_elem_of_nil.
  - destruct (unlock_scan pFrame lf le) as [[[ev0 a] b]|] eqn:E; try discriminate.
    injection H as <- <- <-.
    destruct (IH _ _ _ _ E) as (H1 & H2 & H3 & i & Hi1 & Hi2 & Hi3 & Hi4 & Hi5).
    split_and!; simpl; try congruence.
    + rewrite H3. apply Permutation_swap.
    + exists (S i). simpl. split_and!; try done; try congruence.
      rewrite not_elem_of_cons. done.
Qed.

Lemma unlock_scan_None pFrame lf le :
  length le = length lf ->
  unlock_scan pFrame lf le = None <-> pFrame ∉ lf.
Proof.
  revert le. induction lf as [|f lf IH]; intros [|e le] Hlen; simpl in *;
    try discriminate.
  - split; [intros _; apply not_elem_of_nil | done].
  - injection Hlen as Hlen. rewrite not_elem_of_cons.
    destruct (Z.eqb_spec f pFrame) as [->|Hne].
    + split; [done | intros [? _]; done].
    + specialize (IH le Hlen).
      destruct (unlock_scan pFrame lf le) as [[[ev0 a] b]|] eqn:E.
      * split; [done|]. intros [_ H]. apply IH in H. done.
      * split; [|done]. intros _. split; [congruence | by apply IH].
Qed.

Lemma unlock_scan_snoc pFrame lf le e :
  length le = length lf -> pFrame ∉ lf ->
  unlock_scan pFrame (lf ++ [pFrame]) (le ++ [e]) = Some (e, lf, le).
Proof.
  revert le. induction lf as [|f lf IH]; intros [|e0 le] Hlen Hnot; simpl in *;
    try discriminate.
  - by rewrite Z.eqb_refl.
  - injection Hlen as Hlen. apply not_elem_of_cons in Hnot as [Hne Hnot].
    destruct (Z.eqb_spec f pFrame) as [->|_]; [done|].
    by rewrite IH.
Qed.

Lemma to_uint32_length (n : nat) size :
  0 <= size < 2 ^ 32 -> Z.of_nat n < size -> to_uint32 (Z.of_nat n) = Z.of_nat n.
Proof. intros. unfold to_uint32. apply Z.mod_small. lia. Qed.

(** The clamped [size] of [UnlockLockedFrames]. *)
Lemma UnlockLockedFrames_take size d :
  Aligned d -> 0 <= size < 2 ^ 32 ->
  let n := Z.to_nat (Z.min size (Z.of_nat (length (m_LockedFrames d)))) in
  UnlockLockedFrames SEI_empty size d =
  {| m_vpFrame := m_vpFrame d ++ take n (m_LockedFrames d);
     m_DecodedFrameEvent := m_DecodedFrameEvent d ++ take n (m_LockedEvents d);
     m_vTimestamp := m_vTimestamp d ++ replicate n 0;
     m_LockedFrames := drop n (m_LockedFrames d);
     m_LockedEvents := drop n (m_LockedEvents d);
     m_vSEIMessage :=
       (if m_bExtractSEIMessage d then m_vSEIMessage d ++ replicate n SEI_empty
        else m_vSEIMessage d);
     m_nDecodedFrame := m_nDecodedFrame d;
     m_nDecodedFrameReturned := m_nDecodedFrameReturned d;
     m_bExtractSEIMessage := m_bExtractSEIMessage d |}.
Proof.
  intros [_ _ Hl] Hsize n. unfold UnlockLockedFrames. rewrite Hl.
  set (len := Z.of_nat (length (m_LockedFrames d))) in *.
  assert (Hn : Z.to_nat
    (let size0 := if len <? size then to_uint32 len else size in
     if len <? size0 then to_uint32 len else size0) = n).
  { subst n. cbv zeta. destruct (Z.ltb_spec len size) as [Hlt|Hge].
    - assert (Hu : to_uint32 len = len)
        by (apply (to_uint32_length _ size); done).
      rewrite Hu, Z.ltb_irrefl. f_equal. lia.
    - destruct (Z.ltb_spec len size); [lia|]. f_equal. lia. }
  cbv zeta in Hn. rewrite Hn. reflexivity.
Qed.

Lemma pool_step_keeps op d d' :
  Aligned d -> pool_step SEI_empty op d = Some d' ->
  Aligned d' /\ owned d' ≡ₚ owned d.
Proof.
  intros HA Hstep. pose proof HA as [He Ht Hl].
  destruct op as [| |pFrame|size]; simpl in Hstep.
  - unfold GetFrame in Hstep.
    destruct (0 <? m_nDecodedFrame d); simpl in Hstep.
    + repeat case_match; simplify_eq/=; (split; [by constructor | done]).
    + by simplify_eq.
  - unfold GetLockedFrame in Hstep.
    destruct (0 <? m_nDecodedFrame d); simpl in Hstep; [|by simplify_eq].
    destruct (m_vpFrame d) as [|f fs] eqn:Ef; try discriminate.
    destruct (m_DecodedFrameEvent d) as [|e es] eqn:Ee; try discriminate.
    destruct (m_vTimestamp d) as [|t ts] eqn:Ets; try discriminate.
    unfold owned. rewrite Ef, Ee.
    destruct (if m_bExtractSEIMessage d then m_vSEIMessage d else [SEI_empty]);
      simplify_eq/=.
    split.
    + constructor; simpl; rewrite ?length_app; simpl; lia.
    + rewrite zip_with_app by done. simpl.
      rewrite (Permutation_app_comm (zip _ _) [(f, e)]). simpl.
      by rewrite Permutation_middle.
  - injection Hstep as <-. unfold UnlockFrame, owned.
    destruct (unlock_scan pFrame (m_LockedFrames d) (m_LockedEvents d))
      as [[[ev lf'] le']|] eqn:E; simpl.
    + apply unlock_scan_Some in E as (H1 & H2 & H3 & _).
      split.
      * constructor; simpl; rewrite ?length_app; simpl; lia.
      * rewrite zip_with_app by done. simpl. rewrite H3.
        rewrite <- (assoc_L (++)). simpl. done.
    + split; [by constructor | done].
  - injection Hstep as <-.
    assert (Hs : 0 <= to_uint32 size < 2 ^ 32)
      by (unfold to_uint32; apply Z.mod_pos_bound; lia).
    rewrite (UnlockLockedFrames_take _ _ HA Hs). cbv zeta.
    set (n := Z.to_nat _). unfold owned. simpl. split.
    + constructor; simpl;
        rewrite ?length_app, ?length_take, ?length_drop, ?length_replicate; lia.
    + rewrite zip_with_app
        by (rewrite ?length_take; lia).
      rewrite <- zip_with_take, <- zip_with_drop.
      rewrite <- (assoc_L (++)). by rewrite take_drop.
Qed.

(** X13. Whatever sequence of GetFrame, GetLockedFrame, UnlockFrame and
    UnlockLockedFrames calls is made on a pool whose vectors run in step,
    as long as no call reads outside a vector: the vectors still run in
    step, and the decoder owns the same frame buffers with the same
    events, free or locked; none is lost and none is duplicated. *)
Theorem X13_pool_keeps_every_buffer (ops : list PoolOp) d d' :
  Aligned d ->
  pool_run SEI_empty ops d = Some d' ->
  Aligned d' /\ owned d' ≡ₚ owned d.
Proof.
  revert d. induction ops as [|op ops IH]; intros d HA Hrun; simpl in Hrun.
  - by simplify_eq.
  - destruct (pool_step SEI_empty op d) as [d1|] eqn:E; [|done].
    destruct (pool_step_keeps _ _ _ HA E) as [HA1 HP1].
    destruct (IH _ HA1 Hrun) as [HA' HP']. split; [done|].
    by rewrite HP'.
Qed.

Lemma GetLockedFrame_NULL d :
  m_nDecodedFrame d <= 0 -> GetLockedFrame SEI_empty d = Some (None, d).
Proof.
  intros H. unfold GetLockedFrame.
  by destruct (Z.ltb_spec 0 (m_nDecodedFrame d)); [lia|].
Qed.

Lemma lock_frames_spec (n : nat) d :
  Aligned d ->
  m_nDecodedFrame d = Z.of_nat n ->
  (n <= length (m_vpFrame d))%nat ->
  (m_bExtractSEIMessage d = true -> (n <= length (m_vSEIMessage d))%nat) ->
  exists outs d',
    lock_frames SEI_empty n d = Some (outs, d') /\
    out_frame <$> outs = take n (m_vpFrame d) /\
    out_timestamp <$> outs = take n (m_vTimestamp d) /\
    out_event <$> outs = take n (m_DecodedFrameEvent d) /\
    m_vpFrame d' = drop n (m_vpFrame d) /\
    m_vTimestamp d' = drop n (m_vTimestamp d) /\
    m_DecodedFrameEvent d' = drop n (m_DecodedFrameEvent d) /\
    m_LockedFrames d' = m_LockedFrames d ++ take n (m_vpFrame d) /\
    m_LockedEvents d' = m_LockedEvents d ++ take n (m_DecodedFrameEvent d) /\
    m_nDecodedFrame d' = 0.
Proof.
  revert d. induction n as [|n IH]; intros d HA Hn Hlen Hsei.
  - exists [], d. simpl. rewrite !take_0, !drop_0, !app_nil_r.
    split_and!; done.
  - pose proof HA as [He Ht Hl].
    simpl. unfold GetLockedFrame.
    destruct (Z.ltb_spec 0 (m_nDecodedFrame d)); [|lia].
    destruct (m_vpFrame d) as [|f fs] eqn:Ef; [simpl in Hlen; lia|].
    destruct (m_DecodedFrameEvent d) as [|e es] eqn:Ee; [done|].
    destruct (m_vTimestamp d) as [|t ts] eqn:Ets; [done|].
    assert (Hs : exists x xs,
      (if m_bExtractSEIMessage d then m_vSEIMessage d else [SEI_empty])
      = x :: xs).
    { destruct (m_bExtractSEIMessage d); [|by eauto].
      specialize (Hsei eq_refl).
      destruct (m_vSEIMessage d); [simpl in Hsei; lia | by eauto]. }
    destruct Hs as (x & xs & ->).
    match goal with
    | |- context [lock_frames _ n ?d1] => set (d1' := d1)
    end.
    assert (HA1 : Aligned d1')
      by (constructor; simpl in *; rewrite ?length_app; simpl; lia).
    assert (Hn1 : m_nDecodedFrame d1' = Z.of_nat n) by (simpl; lia).
    assert (Hlen1 : (n <= length (m_vpFrame d1'))%nat) by (simpl in *; lia).
    assert (Hsei1 : m_bExtractSEIMessage d1' = true ->
                    (n <= length (m_vSEIMessage d1'))%nat).
    { simpl. intros Hx. specialize (Hsei Hx). rewrite Hx.
      destruct (m_vSEIMessage d); simpl in *; lia. }
    destruct (IH d1' HA1 Hn1 Hlen1 Hsei1)
      as (outs & d' & Hrun & H1 & H2 & H3 & H4 & H5 & H6 & H7 & H8 & H9).
    rewrite Hrun. exists (mkFrameOut f t e :: outs), d'.
    rewrite !fmap_cons, H1, H2, H3, H4, H5, H6, H7, H8, H9.
    subst d1'. cbn [m_vpFrame m_vTimestamp m_DecodedFrameEvent m_LockedFrames
                    m_LockedEvents out_frame out_timestamp out_event
                    option_list].
    rewrite <- !(assoc_L (++)). split_and!; done.
Qed.

(** X14. After a Decode call that left [n] frames to fetch, with the
    vectors in step and long enough, [n] calls of GetLockedFrame never read
    outside a vector and return the [n] oldest frames of the pool in order,
    each with its own timestamp and event; these frames leave the pool and
    are appended to the locked frames in the same order, and one more call
    returns NULL and changes nothing. *)
Theorem X14_lock_frames_in_order (n : nat) d :
  Aligned d ->
  m_nDecodedFrame d = Z.of_nat n ->
  (n <= length (m_vpFrame d))%nat ->
  (m_bExtractSEIMessage d = true -> (n <= length (m_vSEIMessage d))%nat) ->
  exists outs d',
    lock_frames SEI_empty n d = Some (outs, d') /\
    out_frame <$> outs = take n (m_vpFrame d) /\
    out_timestamp <$> outs = take n (m_vTimestamp d) /\
    out_event <$> outs = take n (m_DecodedFrameEvent d) /\
    m_vpFrame d' = drop n (m_vpFrame d) /\
    m_LockedFrames d' = m_LockedFrames d ++ take n (m_vpFrame d) /\
    m_LockedEvents d' = m_LockedEvents d ++ take n (m_DecodedFrameEvent d) /\
    GetLockedFrame SEI_empty d' = Some (None, d').
Proof.
  intros HA Hn Hlen Hsei.
  destruct (lock_frames_spec n d HA Hn Hlen Hsei)
    as (outs & d' & Hrun & H1 & H2 & H3 & H4 & H5 & H6 & H7 & H8 & H9).
  exists outs, d'. split_and!; try done.
  apply GetLockedFrame_NULL. lia.
Qed.

(** X15. Locking a frame and unlocking the pointer that was returned puts
    the locked frames and events back as they were, when that pointer was
    not locked before; the buffer itself goes to the back of the pool with
    its event, and its timestamp is replaced by 0. *)
Theorem X15_lock_unlock_round_trip d out d' :
  Aligned d ->
  GetLockedFrame SEI_empty d = Some (Some out, d') ->
  out_frame out ∉ m_LockedFrames d ->
  let d'' := UnlockFrame SEI_empty (out_frame out) d' in
  m_LockedFrames d'' = m_LockedFrames d /\
  m_LockedEvents d'' = m_LockedEvents d /\
  out_frame out :: m_vpFrame d'' = m_vpFrame d ++ [out_frame out] /\
  out_event out :: m_DecodedFrameEvent d'' =
    m_DecodedFrameEvent d ++ [out_event out] /\
  out_timestamp out :: m_vTimestamp d'' = m_vTimestamp d ++ [0].
Proof.
  intros [He Ht Hl] Hget Hnot. unfold GetLockedFrame in Hget.
  destruct (0 <? m_nDecodedFrame d); [|by simplify_eq].
  destruct (m_vpFrame d) as [|f fs] eqn:Ef; try discriminate.
  destruct (m_DecodedFrameEvent d) as [|e es] eqn:Ee; try discriminate.
  destruct (m_vTimestamp d) as [|t ts] eqn:Ets; try discriminate.
  destruct (if m_bExtractSEIMessage d then m_vSEIMessage d else [SEI_empty]);
    simplify_eq/=.
  unfold UnlockFrame. simpl.
  rewrite (unlock_scan_snoc _ _ _ _ Hl Hnot). simpl. done.
Qed.

Lemma unlock_scan_removed pFrame lf le ev lf' le' :
  NoDup lf ->
  unlock_scan pFrame lf le = Some (ev, lf', le') ->
  pFrame ∉ lf'.
Proof.
  revert le ev lf' le'.
  induction lf as [|f lf IH]; intros [|e le] ev lf' le' Hnd H; simpl in H;
    try discriminate.
  apply NoDup_cons in Hnd as [Hf Hnd].
  destruct (Z.eqb_spec f pFrame) as [->|Hne].
  - by simplify_eq.
  - destruct (unlock_scan pFrame lf le) as [[[ev0 a] b]|] eqn:E; try discriminate.
    simplify_eq. rewrite not_elem_of_cons. split; [congruence | by eapply IH].
Qed.

(** X16. Unlocking a pointer that is not locked moves no buffer: the pool,
    its events and timestamps and the locked frames and events stay as
    they are.  Unlocking a locked pointer appends it to the pool and takes
    one frame off the locked ones.  So with no frame locked twice, a second
    UnlockFrame of the same pointer cannot put the buffer in the pool
    twice; the two calls still lengthen the SEI vector by two entries when
    SEI extraction is on. *)
Theorem X16_unlock_twice_is_harmless pFrame d :
  Aligned d ->
  NoDup (m_LockedFrames d) ->
  let d1 := UnlockFrame SEI_empty pFrame d in
  let d2 := UnlockFrame SEI_empty pFrame d1 in
  (pFrame ∉ m_LockedFrames d ->
     m_vpFrame d1 = m_vpFrame d /\
     m_DecodedFrameEvent d1 = m_DecodedFrameEvent d /\
     m_vTimestamp d1 = m_vTimestamp d /\
     m_LockedFrames d1 = m_LockedFrames d /\
     m_LockedEvents d1 = m_LockedEvents d) /\
  (pFrame ∈ m_LockedFrames d ->
     m_vpFrame d1 = m_vpFrame d ++ [pFrame] /\
     length (m_LockedFrames d) = S (length (m_LockedFrames d1))) /\
  m_vpFrame d2 = m_vpFrame d1 /\
  m_DecodedFrameEvent d2 = m_DecodedFrameEvent d1 /\
  m_vTimestamp d2 = m_vTimestamp d1 /\
  m_LockedFrames d2 = m_LockedFrames d1 /\
  m_LockedEvents d2 = m_LockedEvents d1 /\
  length (m_vSEIMessage d2) =
    (length (m_vSEIMessage d) + if m_bExtractSEIMessage d then 2 else 0)%nat.
Proof.
  intros [He Ht Hl] Hnd d1 d2.
  assert (Hnot : (pFrame ∉ m_LockedFrames d1) /\
                 length (m_LockedEvents d1) = length (m_LockedFrames d1)).
  { subst d1. unfold UnlockFrame.
    destruct (unlock_scan pFrame (m_LockedFrames d) (m_LockedEvents d))
      as [[[ev lf'] le']|] eqn:E; simpl.
    - split; [by eapply unlock_scan_removed|].
      apply unlock_scan_Some in E as (H1 & H2 & _). lia.
    - split; [by apply (unlock_scan_None _ _ _ Hl) | done]. }
  destruct Hnot as [Hnot Hl1].
  assert (E2 : unlock_scan pFrame (m_LockedFrames d1) (m_LockedEvents d1) = None)
    by (by apply unlock_scan_None).
  split_and!.
  - intros Hn. apply (unlock_scan_None _ _ _ Hl) in Hn.
    subst d1. unfold UnlockFrame. rewrite Hn. simpl. done.
  - intros Hin. subst d1. unfold UnlockFrame.
    destruct (unlock_scan pFrame (m_LockedFrames d) (m_LockedEvents d))
      as [[[ev lf'] le']|] eqn:E; simpl.
    + apply unlock_scan_Some in E as (H1 & _). done.
    + apply (unlock_scan_None _ _ _ Hl) in E. done.
  - subst d2. unfold UnlockFrame at 1. by rewrite E2.
  - subst d2. unfold UnlockFrame at 1. by rewrite E2.
  - subst d2. unfold UnlockFrame at 1. by rewrite E2.
  - subst d2. unfold UnlockFrame at 1. by rewrite E2.
  - subst d2. unfold UnlockFrame at 1. by rewrite E2.
  - subst d2. unfold UnlockFrame at 1. rewrite E2. simpl.
    assert (Hb : m_bExtractSEIMessage d1 = m_bExtractSEIMessage d).
    { subst d1. unfold UnlockFrame. by repeat case_match. }
    rewrite Hb.
    assert (Hs : length (m_vSEIMessage d1) =
      (length (m_vSEIMessage d) + if m_bExtractSEIMessage d then 1 else 0)%nat).
    { subst d1. unfold UnlockFrame.
      repeat case_match; simpl; rewrite ?length_app; simpl; lia. }
    destruct (m_bExtractSEIMessage d); rewrite ?length_app, Hs; simpl; lia.
Qed.

Lemma unlock_each_take (n : nat) d :
  Aligned d -> (n <= length (m_LockedFrames d))%nat ->
  unlock_each SEI_empty (take n (m_LockedFrames d)) d =
  {| m_vpFrame := m_vpFrame d ++ take n (m_LockedFrames d);
     m_DecodedFrameEvent := m_DecodedFrameEvent d ++ take n (m_LockedEvents d);
     m_vTimestamp := m_vTimestamp d ++ replicate n 0;
     m_LockedFrames := drop n (m_LockedFrames d);
     m_LockedEvents := drop n (m_LockedEvents d);
     m_vSEIMessage :=
       (if m_bExtractSEIMessage d then m_vSEIMessage d ++ replicate n SEI_empty
        else m_vSEIMessage d);
     m_nDecodedFrame := m_nDecodedFrame d;
     m_nDecodedFrameReturned := m_nDecodedFrameReturned d;
     m_bExtractSEIMessage := m_bExtractSEIMessage d |}.
Proof.
  revert d. induction n as [|n IH]; intros d HA Hlen.
  - destruct d; simpl. rewrite !app_nil_r. by destruct m_bExtractSEIMessage0.
  - pose proof HA as [He Ht Hl].
    destruct d as [fs es ts lf le sei nd nr ex]; simpl in *.
    destruct lf as [|f lf]; [simpl in Hlen; lia|].
    destruct le as [|e le]; [done|].
    simpl. unfold unlock_each in *. simpl.
    unfold UnlockFrame at 2. simpl. rewrite Z.eqb_refl.
    match goal with
    | |- foldl _ ?d1 _ = _ => specialize (IH d1)
    end.
    simpl in IH. rewrite IH.
    + destruct ex; rewrite <- !(assoc_L (++)); reflexivity.
    + constructor; simpl in *; rewrite ?length_app; simpl; lia.
    + simpl in Hlen. lia.
Qed.

(** X17. UnlockLockedFrames(size) does what UnlockFrame does when it is
    called on the oldest locked frames one after the other: the first
    min(size, number of locked frames) locked frames go back to the pool in
    the order they were locked, with their events and with timestamp 0; a
    size beyond the number of locked frames unlocks them all. *)
Theorem X17_bulk_unlock_is_one_by_one size d :
  Aligned d ->
  0 <= size < 2 ^ 32 ->
  let n := Z.to_nat (Z.min size (Z.of_nat (length (m_LockedFrames d)))) in
  UnlockLockedFrames SEI_empty size d =
    unlock_each SEI_empty (take n (m_LockedFrames d)) d /\
  m_vpFrame (UnlockLockedFrames SEI_empty size d) =
    m_vpFrame d ++ take n (m_LockedFrames d) /\
  m_LockedFrames (UnlockLockedFrames SEI_empty size d) =
    drop n (m_LockedFrames d) /\
  (Z.of_nat (length (m_LockedFrames d)) <= size ->
     m_LockedFrames (UnlockLockedFrames SEI_empty size d) = [] /\
     m_LockedEvents (UnlockLockedFrames SEI_empty size d) = []).
Proof.
  intros HA Hsize n.
  rewrite (UnlockLockedFrames_take _ _ HA Hsize). cbv zeta. fold n.
  split_and!; simpl; try done.
  - symmetry. apply unlock_each_take; [done | lia].
  - intros Hall. destruct HA as [_ _ Hl].
    split; apply drop_ge; lia.
Qed.

End Facts.
Import SamplePool.

Lemma X13_pool_keeps_every_buffer_witness :
  exists d',
    pool_run tt [CallGetLockedFrame; CallUnlockLockedFrames 5;
                 CallGetFrame; CallUnlockFrame 100] sample_pool = Some d' /\
    Aligned d' /\ owned d' ≡ₚ owned sample_pool.
Proof.
  eexists. split; [vm_compute; reflexivity|].
  apply (X13_pool_keeps_every_buffer tt
           [CallGetLockedFrame; CallUnlockLockedFrames 5;
            CallGetFrame; CallUnlockFrame 100] sample_pool).
  - constructor; reflexivity.
  - vm_compute. reflexivity.
Defined.

Lemma X14_lock_frames_in_order_witness :
  exists outs d',
    lock_frames tt 2 sample_pool = Some (outs, d') /\
    out_frame <$> outs = [100; 200].
Proof.
  destruct (X14_lock_frames_in_order tt 2 sample_pool)
    as (outs & d' & E & Hf & _).
  - constructor; reflexivity.
  - reflexivity.
  - simpl. lia.
  - intros _. simpl. lia.
  - exists outs, d'. split; [exact E | exact Hf].
Defined.

Lemma X15_lock_unlock_round_trip_witness :
  exists out d',
    GetLockedFrame tt sample_pool = Some (Some out, d') /\
    m_LockedFrames (UnlockFrame tt (out_frame out) d') =
      m_LockedFrames sample_pool.
Proof.
  eexists. eexists. split; [vm_compute; reflexivity|].
  refine (proj1 (X15_lock_unlock_round_trip tt sample_pool _ _ _ _ _)).
  - constructor; reflexivity.
  - vm_compute. reflexivity.
  - simpl. rewrite list_elem_of_singleton. lia.
Defined.

Lemma X16_unlock_twice_is_harmless_witness :
  m_vpFrame (UnlockFrame tt 400 (UnlockFrame tt 400 sample_pool)) =
  m_vpFrame (UnlockFrame tt 400 sample_pool).
Proof.
  refine (proj1 (proj2 (proj2 (X16_unlock_twice_is_harmless tt 400 sample_pool _ _)))).
  - constructor; reflexivity.
  - simpl. apply NoDup_singleton.
Defined.

Lemma X17_bulk_unlock_is_one_by_one_witness :
  UnlockLockedFrames tt 7 sample_pool = unlock_each tt [400] sample_pool.
Proof.
  refine (proj1 (X17_bulk_unlock_is_one_by_one tt 7 sample_pool _ _)).
  - constructor; reflexivity.
  - lia.
Defined.

End FramePoolFacts.

(* ===================================================================== *)
(** * Further properties of the seeker: the decode loop, one index, a list
    of indices and a batch *)

Module SeekerExtra.
Import CInt Collab Seeker SeekerObs Batch.

Section Facts.
Context {D : Type} `{NvDecoder D}.
Implicit Types s : SeekUtils D.

Lemma Adds_refl s : Adds 0 s s.
Proof.
  constructor; try done.
  - exists []. by rewrite app_nil_r.
  - exists []. by rewrite app_nil_r.
Qed.

Lemma Adds_trans n m s s' s'' :
  Adds n s s' -> Adds m s' s'' -> Adds (n + m) s s''.
Proof.
  intros [(k1 & L1 & F1) P1 E1 (ev1 & C1 & S1)] [(k2 & L2 & F2) P2 E2 (ev2 & C2 & S2)].
  constructor.
  - exists (k1 ++ k2). rewrite length_app, F2, F1, <- (assoc_L (++)). split; [lia|done].
  - congruence.
  - auto.
  - exists (ev1 ++ ev2). rewrite C2, C1, <- (assoc_L (++)). split; [done|].
    unfold seek_calls in *. by rewrite omap_app, S1, S2.
Qed.

(** A state that differs only in members [Adds] does not look at. *)
Lemma Adds_same s s' :
  mTargetFrames s' = mTargetFrames s ->
  mPreviousTargetIndex s' = mPreviousTargetIndex s ->
  mbEOSreached s' = mbEOSreached s ->
  calls s' = calls s ->
  Adds 0 s s'.
Proof.
  intros F P E C. constructor.
  - exists []. by rewrite app_nil_r.
  - done.
  - congruence.
  - exists []. by rewrite app_nil_r.
Qed.

Lemma post_ret {A} (a : A) f g :
  f a = 0%nat -> g a = false -> hoare (D:=D) (ret a) (Post f g).
Proof.
  intros Hf Hg s. exists a, s. split; [done|]. split.
  - rewrite Hf. apply Adds_refl.
  - congruence.
Qed.

Lemma post_bind {A B} (c : M D A) (k : A -> M D B) fc gc f g :
  hoare c (Post fc gc) ->
  (forall a,
     (exists b, k a = ret b /\ f b = fc a /\ (g b = true -> gc a = true))
     \/ (fc a = 0%nat /\ hoare (D:=D) (k a) (Post f g))) ->
  hoare (D:=D) (bind c k) (Post f g).
Proof.
  intros Hc Hk s. destruct (Hc s) as (a & s1 & E1 & HA1 & HE1).
  unfold bind. rewrite E1.
  destruct (Hk a) as [(b & -> & Hf & Hg) | (Hf & Hka)].
  - exists b, s1. split; [done|]. split; [by rewrite Hf | auto].
  - destruct (Hka s1) as (b & s2 & E2 & HA2 & HE2).
    exists b, s2. split; [done|]. split; [|done].
    rewrite Hf in HA1. apply (Adds_trans 0 _ _ _ _ HA1 HA2).
Qed.

Lemma keeps_bind {A B} (c : M D A) (k : A -> M D B) f g :
  keeps c -> (forall a, hoare (D:=D) (k a) (Post f g)) -> hoare (D:=D) (bind c k) (Post f g).
Proof.
  intros Hc Hk. eapply post_bind; [exact Hc|]. intros a. right. auto.
Qed.

Lemma post_get {A} (k : SeekUtils D -> M D A) Q :
  (forall s0, hoare (D:=D) (k s0) Q) -> hoare (D:=D) (bind get k) Q.
Proof. intros Hk s. unfold bind, get. apply Hk. Qed.

Lemma post_weaken {A} (c : M D A) f g g' :
  hoare c (Post f g) -> (forall a, g' a = true -> g a = true) ->
  hoare c (Post f g').
Proof.
  intros Hc Hg s. destruct (Hc s) as (a & s' & E & HA & HE).
  exists a, s'. split; [done|]. split; auto.
Qed.

Lemma keeps_modify (fn : SeekUtils D -> SeekUtils D) :
  (forall s, Adds 0 s (fn s)) -> keeps (D:=D) (modify fn).
Proof.
  intros Hfn s. exists tt, (fn s). split; [done|]. split; [apply Hfn | done].
Qed.

Lemma keeps_log e : seek_calls [e] = [] -> keeps (D:=D) (log e).
Proof.
  intros He. apply keeps_modify. intros s. constructor.
  - exists []. destruct s. simpl. by rewrite app_nil_r.
  - by destruct s.
  - by destruct s.
  - exists [e]. by destruct s.
Qed.

Lemma keeps_when b (c : M D unit) : keeps c -> keeps (D:=D) (when b c).
Proof. intros Hc. destruct b; [done|]. by apply post_ret. Qed.

Lemma keeps_repeat_call n (c : M D unit) : keeps c -> keeps (D:=D) (repeat_call n c).
Proof.
  intros Hc. induction n as [|n IH]; simpl.
  - by apply post_ret.
  - apply keeps_bind; [done|]. intros _. exact IH.
Qed.

(** Setting the end-of-stream mark, then something that keeps it. *)
Lemma post_set_eos {B} (k : unit -> M D B) f g :
  (forall a, hoare (D:=D) (k a) (Post f g)) ->
  hoare (D:=D) (bind (modify (set_mbEOSreached true)) k) (Post f (fun _ => true)).
Proof.
  intros Hk s. unfold bind, modify.
  destruct (Hk tt (set_mbEOSreached true s)) as (b & s' & E & HA & HE).
  exists b, s'. split; [done|].
  assert (H0 : Adds 0 s (set_mbEOSreached true s)).
  { constructor.
    - exists []. destruct s. simpl. by rewrite app_nil_r.
    - by destruct s.
    - by destruct s.
    - exists []. destruct s. simpl. by rewrite app_nil_r. }
  split; [apply (Adds_trans 0 _ _ _ _ H0 HA)|].
  intros _. apply (adds_eos _ _ _ HA). by destruct s.
Qed.

Ltac setter := intros s; apply Adds_same; destruct s; reflexivity.

Lemma keeps_Decode pData nSize nFlags nTimestamp :
  keeps (D:=D) (mDecoder_Decode pData nSize nFlags nTimestamp).
Proof.
  intros s. unfold mDecoder_Decode.
  destruct (Decode pData nSize nFlags nTimestamp (mDecoder s)) as [n d] eqn:E.
  assert (Hk : keeps (D:=D) (bind (log (EvDecode pData nSize nFlags nTimestamp))
                        (fun _ => ret n))).
  { apply keeps_bind; [by apply keeps_log|]. intros _. by apply post_ret. }
  destruct (Hk (set_mDecoder d s)) as (a & s' & E' & HA & HE).
  exists a, s'. split; [done|]. split; [|done].
  refine (Adds_trans 0 0 _ _ _ _ HA). apply Adds_same; destruct s; reflexivity.
Qed.

Lemma keeps_SeekUtils_GetFrame bLockFrame : keeps (D:=D) (SeekUtils_GetFrame bLockFrame).
Proof.
  unfold SeekUtils_GetFrame. apply keeps_bind; [|intros a; by apply post_ret].
  destruct bLockFrame; intros s.
  - unfold mDecoder_GetLockedFrame.
    destruct (GetLockedFrame (mDecoder s)) as [r d] eqn:E.
    assert (Hk : keeps (D:=D) (bind (log EvGetLockedFrame) (fun _ => ret r))).
    { apply keeps_bind; [by apply keeps_log|]. intros _. by apply post_ret. }
    destruct (Hk (set_mDecoder d s)) as (a & s' & E' & HA & HE).
    exists a, s'. split; [done|]. split; [|done].
    refine (Adds_trans 0 0 _ _ _ _ HA). apply Adds_same; destruct s; reflexivity.
  - unfold mDecoder_GetFrame.
    destruct (GetFrame (mDecoder s)) as [r d] eqn:E.
    assert (Hk : keeps (D:=D) (bind (log EvGetFrame) (fun _ => ret r))).
    { apply keeps_bind; [by apply keeps_log|]. intros _. by apply post_ret. }
    destruct (Hk (set_mDecoder d s)) as (a & s' & E' & HA & HE).
    exists a, s'. split; [done|]. split; [|done].
    refine (Adds_trans 0 0 _ _ _ _ HA). apply Adds_same; destruct s; reflexivity.
Qed.

Lemma keeps_mDecoder_UnlockFrame pFrame : keeps (D:=D) (mDecoder_UnlockFrame pFrame).
Proof.
  unfold mDecoder_UnlockFrame. apply keeps_bind.
  - apply keeps_modify. setter.
  - intros _. by apply keeps_log.
Qed.

Lemma keeps_SeekUtils_UnlockFrame frame : keeps (D:=D) (SeekUtils_UnlockFrame frame).
Proof. apply keeps_when, keeps_mDecoder_UnlockFrame. Qed.

Lemma keeps_setSeekPTS v : keeps (D:=D) (mDecoder_setSeekPTS v).
Proof.
  unfold mDecoder_setSeekPTS. apply keeps_bind.
  - apply keeps_modify. setter.
  - intros _. by apply keeps_log.
Qed.

Lemma keeps_drop_frame : keeps (D:=D) drop_frame.
Proof.
  unfold drop_frame. apply keeps_bind; [apply keeps_SeekUtils_GetFrame|].
  intros _. by apply post_ret.
Qed.

Lemma keeps_push_pending : keeps (D:=D) push_pending.
Proof.
  unfold push_pending. apply keeps_bind; [apply keeps_SeekUtils_GetFrame|].
  intros frame. apply keeps_modify. setter.
Qed.

Lemma keeps_decrement : keeps (D:=D) decrement_mFramesDecodedTillNow.
Proof. apply keeps_modify. setter. Qed.

(** The turn of the frame loop that finds the target. *)
Lemma post_found (frame : DecodedFrame) (c : M D unit) (targetValue : Z) :
  keeps c ->
  hoare (D:=D) (bind (modify (fun s => set_mTargetFrames (mTargetFrames s ++ [frame]) s))
              (fun _ => bind c (fun _ => ret (true, targetValue))))
        (Post (fun r : bool * Z => found_count r.1) (fun _ => false)).
Proof.
  intros Hc s. unfold bind at 1. unfold modify.
  set (s1 := set_mTargetFrames _ s).
  assert (H1 : Adds 1 s s1).
  { subst s1. constructor.
    - exists [frame]. by destruct s.
    - by destruct s.
    - by destruct s.
    - exists []. destruct s. simpl. by rewrite app_nil_r. }
  destruct (Hc s1) as ([] & s2 & E2 & HA2 & _).
  unfold bind. rewrite E2. exists (true, targetValue), s2.
  split; [done|]. split; [|done].
  apply (Adds_trans 1 0 _ _ _ H1 HA2).
Qed.

Lemma frames_loop_post (remaining : nat) :
  forall numDecodedFrames count targetValue,
  hoare (D:=D) (frames_loop remaining numDecodedFrames count targetValue)
        (Post (fun r : bool * Z => found_count r.1) (fun _ => false)).
Proof.
  induction remaining as [|remaining IH]; intros n count tv; simpl.
  - by apply post_ret.
  - apply keeps_bind; [apply keeps_SeekUtils_GetFrame|]. intros frame.
    apply post_get. intros s0.
    destruct (existsb _ _).
    + apply keeps_bind; [apply keeps_SeekUtils_UnlockFrame|]. intros _.
      apply keeps_bind; [apply keeps_decrement|]. intros _. apply IH.
    + apply keeps_bind; [apply keeps_modify; setter|]. intros _.
      destruct (_ <? _).
      * apply keeps_bind; [apply keeps_SeekUtils_UnlockFrame|]. intros _.
        apply keeps_bind; [apply keeps_decrement|]. intros _. apply IH.
      * destruct (tv =? 0).
        -- apply post_found. apply keeps_when, keeps_repeat_call, keeps_push_pending.
        -- apply keeps_bind; [apply keeps_SeekUtils_UnlockFrame|]. intros _.
           apply IH.
Qed.

(** One turn of the decode loop: a frame is added exactly when the turn
    reports the target found, and a turn on the zeroed packet (the end of
    the data, or a packet without payload) marks the end of the stream. *)
Lemma while_turn_post demuxed rest isKeyFrame targetValue :
  hoare (D:=D) (while_turn demuxed rest isKeyFrame targetValue)
    (Post (fun t => found_count (t_bTargetFrameFound t))
          (fun t => match demuxed with
                    | None => true
                    | Some _ => t_emptyPacket t
                    end)).
Proof.
  unfold while_turn.
  apply keeps_bind; [apply keeps_modify; setter|]. intros _.
  apply keeps_bind; [apply keeps_log; by destruct demuxed|]. intros _.
  apply post_get. intros s0.
  apply keeps_bind.
  { apply keeps_when, keeps_modify. setter. }
  intros _. apply keeps_bind.
  { apply keeps_when. apply keeps_bind; [apply keeps_setSeekPTS|]. intros _.
    apply keeps_bind; [apply keeps_Decode|]. intros n.
    apply keeps_bind; [apply keeps_repeat_call, keeps_drop_frame|]. intros _.
    apply keeps_bind; [apply keeps_modify; setter|]. intros _.
    apply keeps_modify. setter. }
  intros _. apply keeps_bind; [apply keeps_setSeekPTS|]. intros _.
  assert (Htail : forall eos flag pData nSize nTimestamp isKey,
    hoare (D:=D)
      (bind (mDecoder_Decode pData nSize flag nTimestamp) (fun numDecodedFrames =>
       bind (modify (fun s => set_mFramesDecodedTillNow
                        (to_uint32 (mFramesDecodedTillNow s + numDecodedFrames)) s))
            (fun _ =>
       bind (frames_loop (Z.to_nat numDecodedFrames) numDecodedFrames 0 targetValue)
            (fun x => let '(found, targetValue0) := x in
                      ret (mkTurn found targetValue0 isKey eos)))))
      (Post (fun t => found_count (t_bTargetFrameFound t))
            (fun t => t_emptyPacket t && negb eos))).
  { intros eos flag pData nSize nTimestamp isKey.
    apply keeps_bind; [apply keeps_Decode|]. intros n.
    apply keeps_bind; [apply keeps_modify; setter|]. intros _.
    eapply post_bind; [apply frames_loop_post|].
    intros [found tv]. left. eexists. split; [reflexivity|]. simpl.
    split; [done|]. by destruct eos. }
  destruct demuxed as [p|]; cbv zeta.
  - cbn [bsl bsl_data pts].
    destruct ((pkt_size p =? 0) && (pkt_data p =? 0)) eqn:Eeos.
    + unfold when at 1. eapply post_weaken.
      * eapply post_set_eos. intros _. apply Htail.
      * done.
    + unfold when at 1. apply keeps_bind; [by apply post_ret|]. intros _.
      eapply post_weaken; [apply Htail|].
      intros t Ht. simpl. by rewrite Ht.
  - cbn [bsl bsl_data pts]. simpl (_ && _). unfold when at 1.
    eapply post_weaken.
    + eapply post_set_eos. intros _. apply Htail.
    + done.
Qed.

Lemma while_not_found_post (remaining : list DemuxedPacket) :
  forall isKeyFrame targetValue,
  hoare (D:=D) (while_not_found remaining isKeyFrame targetValue)
        (Post found_count negb).
Proof.
  induction remaining as [|p rest IH]; intros isKeyFrame targetValue; simpl.
  - eapply post_bind; [apply while_turn_post|].
    intros t. left. eexists. split; [reflexivity|]. done.
  - eapply post_bind; [apply while_turn_post|].
    intros t. simpl.
    destruct (t_bTargetFrameFound t) eqn:Ef; simpl.
    + left. eexists. split; [reflexivity|]. done.
    + destruct (t_emptyPacket t) eqn:Ee.
      * left. eexists. split; [reflexivity|]. done.
      * right. split; [done|]. apply IH.
Qed.

(** X18. The decode loop of GetFramesByIdxList always comes to an end,
    whatever the decoder does and whatever packets the demuxer holds.  It
    appends exactly one frame to [mTargetFrames] when it reports the target
    found and none otherwise, it leaves [mPreviousTargetIndex] alone, it
    never seeks, and when it reports the target not found the end of the
    stream has been marked in [mbEOSreached]. *)
Theorem X18_decode_loop_finds_or_ends
    (remaining : list DemuxedPacket) (isKeyFrame : bool) (targetValue : Z) s :
  exists bTargetFrameFound s',
    while_not_found remaining isKeyFrame targetValue s
      = Some (bTargetFrameFound, s') /\
    (exists k, length k = found_count bTargetFrameFound /\
               mTargetFrames s' = mTargetFrames s ++ k) /\
    mPreviousTargetIndex s' = mPreviousTargetIndex s /\
    (bTargetFrameFound = false -> mbEOSreached s' = true) /\
    (exists evs, calls s' = calls s ++ evs /\ seek_calls evs = []).
Proof.
  destruct (while_not_found_post remaining isKeyFrame targetValue s)
    as (found & s' & E & [HF HP _ HC] & HE).
  exists found, s'. split_and!; try done.
  intros ->. by apply HE.
Qed.

(** The index computed by [from_pending] for a negative target. *)
Lemma from_pending_index (targetValue size : Z) :
  - 2 ^ 31 <= targetValue < 0 -> 0 <= size < 2 ^ 31 ->
  let actual_idx := to_int32 (to_size_t (to_size_t targetValue + size)) in
  actual_idx = targetValue + size /\
  (0 <= targetValue + size -> to_size_t actual_idx = targetValue + size) /\
  (targetValue + size < 0 -> size < to_size_t actual_idx).
Proof.
  intros Ht Hs. cbv zeta.
  assert (E : to_int32 (to_size_t (to_size_t targetValue + size))
              = targetValue + size).
  { unfold to_int32, to_size_t. rewrite Zplus_mod_idemp_l.
    destruct (Z_lt_le_dec (targetValue + size) 0).
    - rewrite (SeekerFacts.mod_negative (targetValue + size) (2 ^ 64)) by lia.
      replace (targetValue + size + 2 ^ 64 + 2 ^ 31)
        with (targetValue + size + 2 ^ 31 + 2 ^ 32 * 2 ^ 32) by lia.
      rewrite Z.mod_add by lia. rewrite Z.mod_small; lia.
    - rewrite (Z.mod_small (targetValue + size)) by lia.
      rewrite Z.mod_small; lia. }
  rewrite E. split; [done|]. split; intros Hc; unfold to_size_t.
  - apply Z.mod_small. lia.
  - rewrite SeekerFacts.mod_negative; lia.
Qed.

Lemma from_pending_negative (targetValue : Z) s :
  - 2 ^ 31 <= targetValue < 0 ->
  Z.of_nat (length (mPendingFrames s)) < 2 ^ 31 ->
  (targetValue + Z.of_nat (length (mPendingFrames s)) < 0 ->
     from_pending targetValue s = Some ((false, targetValue), s)) /\
  (0 <= targetValue + Z.of_nat (length (mPendingFrames s)) ->
     exists pendingFrame,
       mPendingFrames s
         !! Z.to_nat (targetValue + Z.of_nat (length (mPendingFrames s)))
         = Some pendingFrame /\
       from_pending targetValue s
         = Some ((true, 0),
                 set_mTargetFrames (mTargetFrames s ++ [pendingFrame]) s)).
Proof.
  intros Ht Hs.
  destruct (from_pending_index targetValue (Z.of_nat (length (mPendingFrames s))))
    as (E1 & E2 & E3); [lia | lia |].
  unfold from_pending, bind, get. cbv zeta. split.
  - intros Hneg. specialize (E3 Hneg).
    destruct (Z.leb_spec
      (to_size_t (to_int32 (to_size_t (to_size_t targetValue
                     + Z.of_nat (length (mPendingFrames s))))))
      (Z.of_nat (length (mPendingFrames s)))); [lia | done].
  - intros Hpos. specialize (E2 Hpos). rewrite E2.
    destruct (Z.leb_spec (targetValue + Z.of_nat (length (mPendingFrames s)))
                (Z.of_nat (length (mPendingFrames s)))); [|lia].
    destruct (lookup_lt_is_Some_2 (mPendingFrames s)
                (Z.to_nat (targetValue + Z.of_nat (length (mPendingFrames s)))))
      as [f Hf]; [lia|].
    exists f. rewrite Hf. done.
Qed.

(** The lookup among the pending frames, or the emptying of
    [mPendingFrames], that comes before the decode loop. *)
Lemma pending_phase_spec (targetValue : Z) s r s' :
  (if targetValue <? 0 then from_pending targetValue
   else bind (modify (set_mPendingFrames [])) (fun _ => ret (false, targetValue))) s
  = Some (r, s') ->
  Adds (found_count r.1) s s'.
Proof.
  destruct (targetValue <? 0).
  - unfold from_pending, bind, get. cbv zeta.
    destruct (_ <=? _).
    + destruct (mPendingFrames s !! _) as [f|]; [|done].
      intros [= <- <-]. constructor.
      * exists [f]. by destruct s.
      * by destruct s.
      * by destruct s.
      * exists []. destruct s. simpl. by rewrite app_nil_r.
    + intros [= <- <-]. apply Adds_refl.
  - intros [= <- <-]. apply Adds_same; by destruct s.
Qed.

(** The decode loop when the target was not among the pending frames, and
    the update of the previous target. *)
Lemma decode_phase_spec (found : bool) (targetValue idx : Z) s :
  exists s',
    bind (if found then ret true
          else bind get (fun s0 =>
                 while_not_found (packets (mDemuxer s0)) false targetValue))
         (fun bTargetFrameFound =>
            when bTargetFrameFound
              (modify (set_mPreviousTargetIndex (to_int32 idx)))) s
    = Some (tt, s') /\
    exists n, (found = true -> n = 0%nat) /\
      (exists k, length k = n /\ mTargetFrames s' = mTargetFrames s ++ k) /\
      (exists evs, calls s' = calls s ++ evs /\ seek_calls evs = []) /\
      ((mPreviousTargetIndex s' = to_int32 idx /\ (found_count found + n = 1)%nat)
       \/ (mPreviousTargetIndex s' = mPreviousTargetIndex s /\ found = false /\
           n = 0%nat /\ mbEOSreached s' = true)).
Proof.
  destruct found.
  - exists (set_mPreviousTargetIndex (to_int32 idx) s). split; [done|].
    exists 0%nat. split_and!; try done.
    + exists []. destruct s. simpl. by rewrite app_nil_r.
    + exists []. destruct s. simpl. by rewrite app_nil_r.
    + left. by destruct s.
  - destruct (while_not_found_post (packets (mDemuxer s)) false targetValue s)
      as (found & s1 & E & [HF HP _ HC] & HE).
    unfold bind at 1. unfold bind at 1. unfold get. rewrite E.
    destruct found; simpl.
    + exists (set_mPreviousTargetIndex (to_int32 idx) s1). split; [done|].
      exists 1%nat. split_and!; try done.
      * destruct HF as (k & Hk & HF). exists k. by destruct s1.
      * destruct HC as (evs & HC & Hs). exists evs. by destruct s1.
      * left. by destruct s1.
    + exists s1. split; [done|].
      exists 0%nat. split_and!; try done.
      right. split_and!; try done. by apply HE.
Qed.

(** What the rest of the loop body does once the seek decision is taken. *)
Lemma resolve_from_spec (idx : Z) s s' :
  resolve_from idx s = Some (tt, s') ->
  (exists k,
     mTargetFrames s' = mTargetFrames s ++ k /\
     ((length k = 1%nat /\ mPreviousTargetIndex s' = to_int32 idx)
      \/ (k = [] /\ mPreviousTargetIndex s' = mPreviousTargetIndex s /\
          mbEOSreached s' = true))) /\
  (exists evs, calls s' = calls s ++ evs /\ seek_calls evs = []).
Proof.
  unfold resolve_from. unfold bind at 1. unfold get at 1. cbv zeta beta iota.
  set (targetValue := to_int32 _).
  unfold bind at 1.
  match goal with
  | |- match ?c with _ => _ end = _ -> _ =>
      destruct c as [[[found tv] s1]|] eqn:EB; [|done]
  end.
  apply pending_phase_spec in EB. simpl in EB.
  destruct (decode_phase_spec found tv idx s1)
    as (s2 & E2 & n & Hn & (k2 & Hk2 & HF2) & (ev2 & HC2 & HS2) & Hcases).
  rewrite E2. intros [= <-].
  destruct EB as [(k1 & Hk1 & HF1) HP1 HE1 (ev1 & HC1 & HS1)].
  split.
  - exists (k1 ++ k2). rewrite HF2, HF1, <- (assoc_L (++)). split; [done|].
    destruct Hcases as [[HP Hone] | (HP & -> & -> & HE)].
    + left. rewrite length_app. split; [lia | done].
    + right. simpl in Hk1.
      destruct k1; [|done]. destruct k2; [|done]. split_and!; [done| congruence |done].
  - exists (ev1 ++ ev2). rewrite HC2, HC1, <- (assoc_L (++)). split; [done|].
    unfold seek_calls in *. by rewrite omap_app, HS1, HS2.
Qed.

Lemma resolve_from_returns (idx : Z) s :
  Z.of_nat (length (mPendingFrames s)) < 2 ^ 31 ->
  exists s', resolve_from idx s = Some (tt, s').
Proof.
  intros Hsize.
  unfold resolve_from. unfold bind at 1. unfold get at 1. cbv zeta beta iota.
  set (targetValue := to_int32 _).
  assert (Hrange : - 2 ^ 31 <= targetValue < 2 ^ 31).
  { subst targetValue. unfold to_int32.
    pose proof (Z.mod_pos_bound
      (to_uint32 (idx - mFramesDecodedTillNow s) + 2 ^ 31) (2 ^ 32)). lia. }
  unfold bind at 1.
  assert (HB : exists r s1,
    (if targetValue <? 0 then from_pending targetValue
     else bind (modify (set_mPendingFrames [])) (fun _ => ret (false, targetValue))) s
    = Some (r, s1)).
  { destruct (Z.ltb_spec targetValue 0); [|by eauto].
    destruct (from_pending_negative targetValue s) as [Hn Hp]; [lia | done |].
    destruct (Z_lt_le_dec (targetValue + Z.of_nat (length (mPendingFrames s))) 0).
    - rewrite Hn by done. eauto.
    - destruct (Hp ltac:(lia)) as (f & _ & ->). eauto. }
  destruct HB as ([found tv] & s1 & ->).
  destruct (decode_phase_spec found tv idx s1) as (s2 & E2 & _).
  exists s2. exact E2.
Qed.

(** The body of the loop for a valid index: when a seek is asked for, the
    demuxer's Seek decides whether the body goes on. *)
Lemma resolve_index_split (idx : Z) s (b : bool) (r : Z) :
  ShouldSeek (mDemuxer s) (mPreviousTargetIndex s) idx = Some (b, r) ->
  r <> INVALID_INDEX_ENTRY ->
  resolve_index idx s
  = if b then
      match Seek idx (mDemuxer s) with
      | SeekReturned sought =>
          resolve_from idx (after_seek_decision true idx r sought s)
      | SeekThrown _ => None
      | SeekUndefined => None
      end
    else resolve_from idx (after_seek_decision false idx r (mDemuxer s) s).
Proof.
  intros E Hr.
  pose proof (SeekerFacts.ShouldSeek_valid_inv _ _ _ _ _ E Hr) as EK.
  unfold resolve_index. unfold bind at 1. unfold get at 1. cbv beta iota.
  rewrite E. cbn [fst snd].
  destruct (Z.eqb_spec r INVALID_INDEX_ENTRY); [done|].
  unfold bind at 1. destruct b.
  - rewrite EK. unfold bind at 1. unfold mDemuxer_Seek.
    destruct (Seek idx (mDemuxer s)) as [sought| |]; [|done|done].
    destruct s. reflexivity.
  - destruct s. reflexivity.
Qed.

(** A body that returns has come through the seek, when one was asked
    for. *)
Lemma resolve_index_sought (idx : Z) s s' (b : bool) (r : Z) :
  ShouldSeek (mDemuxer s) (mPreviousTargetIndex s) idx = Some (b, r) ->
  r <> INVALID_INDEX_ENTRY ->
  resolve_index idx s = Some (tt, s') ->
  exists sought,
    (b = true -> Seek idx (mDemuxer s) = SeekReturned sought) /\
    resolve_from idx (after_seek_decision b idx r sought s) = Some (tt, s').
Proof.
  intros E Hr Hrun. rewrite (resolve_index_split _ _ _ _ E Hr) in Hrun.
  destruct b.
  - destruct (Seek idx (mDemuxer s)) as [sought| |]; [|done|done].
    exists sought. done.
  - exists (mDemuxer s). done.
Qed.

Lemma after_seek_decision_fields (b : bool) (idx r : Z) sought s :
  let s1 := after_seek_decision b idx r sought s in
  mTargetFrames s1 = mTargetFrames s /\
  mPreviousTargetIndex s1 = mPreviousTargetIndex s /\
  mbEOSreached s1 = mbEOSreached s /\
  calls s1 = calls s ++ (if b then [EvSeek idx] else []) /\
  mPendingFrames s1 = (if b then [] else mPendingFrames s).
Proof. destruct b, s; simpl; rewrite ?app_nil_r; done. Qed.

(** What one index does to the seeker, when the body returns. *)
Lemma resolve_index_spec (idx : Z) s s' :
  resolve_index idx s = Some (tt, s') ->
  exists (b : bool) (r : Z),
    ShouldSeek (mDemuxer s) (mPreviousTargetIndex s) idx = Some (b, r) /\
    if r =? INVALID_INDEX_ENTRY then s' = s
    else
      (exists k,
         mTargetFrames s' = mTargetFrames s ++ k /\
         ((length k = 1%nat /\ mPreviousTargetIndex s' = to_int32 idx)
          \/ (k = [] /\ mPreviousTargetIndex s' = mPreviousTargetIndex s /\
              mbEOSreached s' = true))) /\
      (exists evs, calls s' = calls s ++ evs /\
                   seek_calls evs = if b then [idx] else []).
Proof.
  intros E.
  destruct (ShouldSeek (mDemuxer s) (mPreviousTargetIndex s) idx)
    as [[b r]|] eqn:ES.
  2:{ unfold resolve_index, bind, get in E. by rewrite ES in E. }
  exists b, r. split; [done|].
  destruct (Z.eqb_spec r INVALID_INDEX_ENTRY) as [->|Hr].
  - rewrite (SeekerFacts.resolve_index_invalid _ _ _ ES) in E. congruence.
  - destruct (resolve_index_sought _ _ _ _ _ ES Hr E) as (sought & _ & E').
    apply resolve_from_spec in E' as [(k & HF & Hk) (evs & HC & HS)].
    destruct (after_seek_decision_fields b idx r sought s) as (F1 & F2 & F3 & F4 & F5).
    split.
    + exists k. rewrite HF, F1. split; [done|].
      destruct Hk as [[? ?] | (? & ? & ?)]; [left | right]; split_and!;
        congruence.
    + exists ((if b then [EvSeek idx] else []) ++ evs).
      rewrite HC, F4, <- (assoc_L (++)). split; [done|].
      unfold seek_calls in *. rewrite omap_app, HS. by destruct b.
Qed.

(** X19. For an index whose key-frame lookups succeed, with fewer than
    2^31 pending frames, and with the demuxer's Seek to that index
    returning when ShouldSeek asks for a seek, the body of the loop over
    the indices returns; in particular the lookup among the pending frames
    never reads outside [mPendingFrames].  With INVALID_INDEX_ENTRY the
    seeker is left as it was.  Otherwise at most one frame is appended to
    [mTargetFrames]; [mPreviousTargetIndex] becomes the index exactly when a
    frame was appended, and when none was, the end of the stream has been
    marked.  The demuxer is asked to seek exactly when ShouldSeek says so,
    once, to the index itself.  When a seek is asked for and Seek throws or
    dereferences a NULL index entry, the body does not return. *)
Theorem X19_one_index_at_most_one_frame (idx : Z) s (b : bool) (r : Z) :
  ShouldSeek (mDemuxer s) (mPreviousTargetIndex s) idx = Some (b, r) ->
  Z.of_nat (length (mPendingFrames s)) < 2 ^ 31 ->
  ((b = true -> r <> INVALID_INDEX_ENTRY ->
    exists sought, Seek idx (mDemuxer s) = SeekReturned sought) ->
   exists s',
     resolve_index idx s = Some (tt, s') /\
     if r =? INVALID_INDEX_ENTRY then s' = s
     else
       (exists k,
          mTargetFrames s' = mTargetFrames s ++ k /\
          ((length k = 1%nat /\ mPreviousTargetIndex s' = to_int32 idx)
           \/ (k = [] /\ mPreviousTargetIndex s' = mPreviousTargetIndex s /\
               mbEOSreached s' = true))) /\
       (exists evs, calls s' = calls s ++ evs /\
                    seek_calls evs = if b then [idx] else []))
  /\ (b = true -> r <> INVALID_INDEX_ENTRY ->
      (forall sought, Seek idx (mDemuxer s) <> SeekReturned sought) ->
      resolve_index idx s = None).
Proof.
  intros ES Hsize. split.
  - intros HSeek.
    assert (Hret : exists s', resolve_index idx s = Some (tt, s')).
    { destruct (Z.eqb_spec r INVALID_INDEX_ENTRY) as [->|Hr].
      - exists s. by apply (SeekerFacts.resolve_index_invalid _ _ b).
      - rewrite (resolve_index_split _ _ _ _ ES Hr).
        destruct b.
        + destruct (HSeek eq_refl Hr) as (sought & ->).
          apply resolve_from_returns.
          destruct (after_seek_decision_fields true idx r sought s)
            as (_ & _ & _ & _ & ->).
          simpl. lia.
        + apply resolve_from_returns.
          destruct (after_seek_decision_fields false idx r (mDemuxer s) s)
            as (_ & _ & _ & _ & ->).
          done. }
    destruct Hret as (s' & E). exists s'. split; [done|].
    destruct (resolve_index_spec _ _ _ E) as (b' & r' & ES' & Hspec).
    rewrite ES in ES'. by simplify_eq.
  - intros -> Hr HSeek. rewrite (resolve_index_split _ _ _ _ ES Hr).
    destruct (Seek idx (mDemuxer s)) as [sought| |]; [|done|done].
    destruct (HSeek sought eq_refl).
Qed.

Lemma for_each_resolve_spec (indices : list Z) : forall s s',
  for_each indices resolve_index s = Some (tt, s') ->
  (exists k, mTargetFrames s' = mTargetFrames s ++ k /\
             (length k <= length indices)%nat) /\
  (exists evs, calls s' = calls s ++ evs /\
               (length (seek_calls evs) <= length indices)%nat /\
               seek_calls evs ⊆ indices) /\
  (mPreviousTargetIndex s' = mPreviousTargetIndex s \/
   exists idx, idx ∈ indices /\ mPreviousTargetIndex s' = to_int32 idx).
Proof.
  induction indices as [|idx indices IH]; intros s s' E; simpl in E.
  - injection E as <-. split_and!.
    + exists []. by rewrite app_nil_r.
    + exists []. rewrite app_nil_r. split_and!; try done.
    + by left.
  - unfold bind in E.
    destruct (resolve_index idx s) as [[[] s1]|] eqn:E1; [|done].
    apply resolve_index_spec in E1 as (b & r & ES & Hspec).
    destruct (IH _ _ E) as ((k2 & HF2 & Hk2) & (ev2 & HC2 & HL2 & HS2) & HP2).
    destruct (r =? INVALID_INDEX_ENTRY).
    + subst s1. split_and!.
      * exists k2. split; [done | simpl; lia].
      * exists ev2. split_and!; [done | simpl; lia |].
        intros x Hx. apply elem_of_cons. right. by apply HS2.
      * destruct HP2 as [? | (i & Hi & ?)]; [by left | right].
        exists i. split; [by apply elem_of_cons; right | done].
    + destruct Hspec as [(k1 & HF1 & Hk1) (ev1 & HC1 & HS1)].
      split_and!.
      * exists (k1 ++ k2). rewrite HF2, HF1, <- (assoc_L (++)). split; [done|].
        rewrite length_app. simpl.
        destruct Hk1 as [[? ?] | (-> & ? & ?)]; simpl; lia.
      * exists (ev1 ++ ev2). rewrite HC2, HC1, <- (assoc_L (++)).
        split; [done|]. unfold seek_calls in *. rewrite omap_app, HS1.
        rewrite length_app. split.
        -- destruct b; simpl; lia.
        -- intros x Hx. apply elem_of_app in Hx as [Hx | Hx].
           ++ destruct b; [|by apply elem_of_nil in Hx].
              apply list_elem_of_singleton in Hx as ->. apply elem_of_cons. by left.
           ++ apply elem_of_cons. right. by apply HS2.
      * destruct HP2 as [HP2 | (i & Hi & HP2)].
        -- rewrite HP2. destruct Hk1 as [[_ ?] | (_ & ? & _)]; [right | by left].
           exists idx. split; [apply elem_of_cons; by left | done].
        -- right. exists i. split; [by apply elem_of_cons; right | done].
Qed.

Lemma GetFramesByIdxList_spec (indices : list Z) s frames s' :
  GetFramesByIdxList indices s = Some (frames, s') ->
  mTargetFrames s' = frames /\
  (length frames <= length indices)%nat /\
  (exists evs,
     calls s' = calls s ++ unlock_events (mTargetFrames s) ++ evs /\
     (length (seek_calls evs) <= length indices)%nat /\
     seek_calls evs ⊆ indices) /\
  (mPreviousTargetIndex s' = mPreviousTargetIndex s \/
   exists idx, idx ∈ indices /\ mPreviousTargetIndex s' = to_int32 idx).
Proof.
  rewrite SeekerFacts.GetFramesByIdxList_unfold.
  set (s0 := set_mTargetFrames [] _).
  unfold bind at 1.
  destruct (for_each indices resolve_index s0) as [[[] s1]|] eqn:E; [|done].
  unfold bind, get, ret. intros [= <- <-].
  destruct (for_each_resolve_spec _ _ _ E)
    as ((k & HF & Hk) & (evs & HC & HL & HS) & HP).
  assert (F0 : mTargetFrames s0 = []) by (subst s0; by destruct s).
  assert (C0 : calls s0 = calls s ++ unlock_events (mTargetFrames s))
    by (subst s0; by destruct s).
  assert (P0 : mPreviousTargetIndex s0 = mPreviousTargetIndex s)
    by (subst s0; by destruct s).
  rewrite F0 in HF. simpl in HF. split_and!.
  - done.
  - rewrite HF. done.
  - exists evs. rewrite HC, C0, <- (assoc_L (++)). done.
  - by rewrite <- P0.
Qed.

(** X20. When GetFramesByIdxList returns, the frames handed out by the
    call before have been unlocked first, one UnlockFrame call each and in
    order; the list returned is [mTargetFrames] and holds at most one frame
    per index asked for; the demuxer was asked to seek at most once per
    index and only to indices of the list; and [mPreviousTargetIndex] is
    what it was or one of the indices. *)
Theorem X20_at_most_one_frame_per_index (indices : list Z) s frames s' :
  GetFramesByIdxList indices s = Some (frames, s') ->
  mTargetFrames s' = frames /\
  (length frames <= length indices)%nat /\
  (exists evs,
     calls s' = calls s ++ unlock_events (mTargetFrames s) ++ evs /\
     (length (seek_calls evs) <= length indices)%nat /\
     seek_calls evs ⊆ indices) /\
  (mPreviousTargetIndex s' = mPreviousTargetIndex s \/
   exists idx, idx ∈ indices /\ mPreviousTargetIndex s' = to_int32 idx).
Proof. apply GetFramesByIdxList_spec. Qed.

(** X21. The lookup among the pending frames for a target before the
    frames decoded so far ([targetValue] negative), with fewer than 2^31
    pending frames, never reads outside [mPendingFrames], although its
    test is [actual_idx <= size]: it finds the target exactly when the
    target is at most [size] frames back, hands out the pending frame
    counted from the end, and otherwise leaves the seeker as it was. *)
Theorem X21_pending_lookup_in_range (targetValue : Z) s :
  - 2 ^ 31 <= targetValue < 0 ->
  Z.of_nat (length (mPendingFrames s)) < 2 ^ 31 ->
  exists r s',
    from_pending targetValue s = Some (r, s') /\
    (r.1 = true <-> 0 <= targetValue + Z.of_nat (length (mPendingFrames s))) /\
    (r.1 = true ->
       exists pendingFrame,
         mPendingFrames s
           !! Z.to_nat (targetValue + Z.of_nat (length (mPendingFrames s)))
           = Some pendingFrame /\
         mTargetFrames s' = mTargetFrames s ++ [pendingFrame]) /\
    (r.1 = false -> s' = s /\ r.2 = targetValue).
Proof.
  intros Ht Hs. destruct (from_pending_negative targetValue s Ht Hs) as [Hn Hp].
  destruct (Z_lt_le_dec (targetValue + Z.of_nat (length (mPendingFrames s))) 0)
    as [Hlt|Hge].
  - eexists _, _. split; [by apply Hn|]. simpl. split_and!; [|done|done].
    split; [done | lia].
  - destruct (Hp Hge) as (f & Hf & E). eexists _, _. split; [exact E|].
    simpl. split_and!; [done | | done].
    intros _. exists f. split; [done | by destruct s].
Qed.

Lemma batch_loop_seqZ (numFrames : Z) (turns : nat) : forall start,
  0 <= start -> start + Z.of_nat turns < 2 ^ 32 ->
  batch_loop turns start numFrames
  = seqZ start (Z.min (Z.of_nat turns) (numFrames - start)).
Proof.
  induction turns as [|turns IH]; intros start H0 Hlt.
  - simpl. rewrite seqZ_nil; [done | lia].
  - cbn [batch_loop].
    assert (E : to_uint32 (start + 1) = start + 1)
      by (unfold to_uint32; apply Z.mod_small; lia).
    rewrite E, IH by lia.
    destruct (Z.leb_spec 0 start); [|lia]. simpl.
    destruct (Z.ltb_spec start numFrames).
    + rewrite (seqZ_cons start) by lia. simpl. do 2 f_equal; lia.
    + simpl. rewrite !seqZ_nil; [done | lia | lia].
Qed.

Lemma batch_loop_bounds (numFrames : Z) (turns : nat) : forall start,
  (length (batch_loop turns start numFrames) <= turns)%nat /\
  (forall i, i ∈ batch_loop turns start numFrames -> 0 <= i < numFrames).
Proof.
  induction turns as [|turns IH]; intros start; cbn [batch_loop].
  - split; [done|]. intros i Hi. by apply elem_of_nil in Hi.
  - destruct (IH (to_uint32 (start + 1))) as [IH1 IH2].
    rewrite length_app. split.
    + destruct (_ && _); simpl; lia.
    + intros i Hi. apply elem_of_app in Hi as [Hi|Hi]; [|by apply IH2].
      destruct (Z.leb_spec 0 start), (Z.ltb_spec start numFrames);
        simpl in Hi; try (by apply elem_of_nil in Hi).
      apply list_elem_of_singleton in Hi. lia.
Qed.

(** [start] and [end] of GetFramesByBatch. *)
Lemma batch_indices_loop (mPreviousTargetIndex batchsize numFrames : Z)
    (bSeekToIndexSet : bool) :
  let start :=
    to_uint32 (mPreviousTargetIndex + if bSeekToIndexSet then 0 else 1) in
  0 <= start < 2 ^ 32 /\
  batch_indices mPreviousTargetIndex batchsize numFrames bSeekToIndexSet
  = batch_loop (Z.to_nat (to_uint32 (start + batchsize) - start)) start numFrames.
Proof.
  cbv zeta. split.
  - unfold to_uint32. apply Z.mod_pos_bound. lia.
  - unfold batch_indices. destruct bSeekToIndexSet.
    + rewrite Z.add_0_r. unfold to_uint32. by rewrite Zplus_mod_idemp_l.
    + unfold to_uint32. rewrite Zplus_mod_idemp_l.
      by replace (mPreviousTargetIndex + batchsize + 1)
        with (mPreviousTargetIndex + 1 + batchsize) by lia.
Qed.

(** X22. The indices GetFramesByBatch asks for are the [batchsize]
    consecutive indices from [mPreviousTargetIndex + 1] on, or from
    [mPreviousTargetIndex] on after SeekToIndex, cut off at [numFrames];
    when the end of that range does not fit in 32 bits, the range wraps
    around and no index at all is asked for. *)
Theorem X22_batch_indices (mPreviousTargetIndex batchsize numFrames : Z)
    (bSeekToIndexSet : bool) :
  0 <= batchsize < 2 ^ 32 ->
  let start :=
    to_uint32 (mPreviousTargetIndex + if bSeekToIndexSet then 0 else 1) in
  (start + batchsize < 2 ^ 32 ->
     batch_indices mPreviousTargetIndex batchsize numFrames bSeekToIndexSet
     = seqZ start (Z.min batchsize (numFrames - start))) /\
  (2 ^ 32 <= start + batchsize ->
     batch_indices mPreviousTargetIndex batchsize numFrames bSeekToIndexSet = []).
Proof.
  intros Hb start.
  destruct (batch_indices_loop mPreviousTargetIndex batchsize numFrames
              bSeekToIndexSet) as [Hs ->].
  fold start in Hs |- *. split; intros Hc.
  - assert (E : to_uint32 (start + batchsize) = start + batchsize)
      by (unfold to_uint32; apply Z.mod_small; lia).
    rewrite E. replace (start + batchsize - start) with batchsize by lia.
    rewrite batch_loop_seqZ by lia. f_equal. lia.
  - assert (E : to_uint32 (start + batchsize) = start + batchsize - 2 ^ 32).
    { unfold to_uint32. symmetry.
      apply (Z.mod_unique (start + batchsize) (2 ^ 32) 1); lia. }
    rewrite E. replace (Z.to_nat _) with 0%nat by lia. done.
Qed.

(** X23. When GetFramesByBatch returns, it returns at most [batchsize]
    frames, having first unlocked the frames of the call before; every
    Seek it asked of the demuxer was to a frame index below [numFrames];
    and [mPreviousTargetIndex] is what it was or a frame index below
    [numFrames]. *)
Theorem X23_batch_at_most_batchsize (batchsize numFrames : Z) s frames s' :
  0 <= batchsize < 2 ^ 32 ->
  GetFramesByBatch batchsize numFrames s = Some (frames, s') ->
  Z.of_nat (length frames) <= batchsize /\
  mTargetFrames s' = frames /\
  (exists evs,
     calls s' = calls s ++ unlock_events (mTargetFrames s) ++ evs /\
     forall i, i ∈ seek_calls evs -> 0 <= i < numFrames) /\
  (mPreviousTargetIndex s' = mPreviousTargetIndex s \/
   exists idx, 0 <= idx < numFrames /\ mPreviousTargetIndex s' = to_int32 idx).
Proof.
  intros Hb. unfold GetFramesByBatch. unfold bind at 1. unfold get at 1.
  cbv beta iota.
  destruct (_ =? _); [done|].
  set (indices := batch_indices _ _ _ _).
  unfold bind at 1.
  assert (E0 : exists s0,
    when (bSeekToIndexSet s) (modify (set_bSeekToIndexSet false)) s
      = Some (tt, s0) /\
    mTargetFrames s0 = mTargetFrames s /\ calls s0 = calls s /\
    mPreviousTargetIndex s0 = mPreviousTargetIndex s).
  { destruct (bSeekToIndexSet s); eexists; (split; [reflexivity|]);
      by destruct s. }
  destruct E0 as (s0 & -> & F0 & C0 & P0). intros E.
  apply GetFramesByIdxList_spec in E
    as (HF & HL & (evs & HC & _ & HS) & HP).
  destruct (batch_indices_loop (mPreviousTargetIndex s) batchsize numFrames
              (bSeekToIndexSet s)) as [Hs Hidx].
  fold indices in Hidx.
  set (start := to_uint32 _) in *.
  destruct (batch_loop_bounds numFrames
              (Z.to_nat (to_uint32 (start + batchsize) - start)) start)
    as [Hlen Hin].
  rewrite <- Hidx in Hlen, Hin.
  assert (Hturns : to_uint32 (start + batchsize) - start <= batchsize).
  { destruct (Z_lt_le_dec (start + batchsize) (2 ^ 32)).
    - unfold to_uint32. rewrite Z.mod_small; lia.
    - assert (to_uint32 (start + batchsize) = start + batchsize - 2 ^ 32).
      { unfold to_uint32. symmetry.
        apply (Z.mod_unique (start + batchsize) (2 ^ 32) 1); lia. }
      lia. }
  split_and!.
  - lia.
  - done.
  - exists evs. rewrite HC, C0, F0. split; [done|].
    intros i Hi. apply Hin, HS, Hi.
  - rewrite <- P0. destruct HP as [?|(idx & Hi & ?)]; [by left | right].
    exists idx. split; [by apply Hin | done].
Qed.

End Facts.

Import Sample.

Lemma X19_one_index_at_most_one_frame_witness :
  exists s', resolve_index 1 sample_seeker = Some (tt, s').
Proof.
  destruct (@X19_one_index_at_most_one_frame SimpleDecoder _ 1 sample_seeker true 0)
    as [Hret _].
  - reflexivity.
  - simpl. lia.
  - destruct Hret as (s' & E & _).
    + intros _ _. eexists. vm_compute. reflexivity.
    + exists s'. exact E.
Defined.

Lemma X20_at_most_one_frame_per_index_witness :
  exists frames s',
    GetFramesByIdxList [0; 1] sample_seeker = Some (frames, s') /\
    (length frames <= 2)%nat.
Proof.
  eexists _, _. split; [vm_compute; reflexivity|].
  refine (proj1 (proj2 (@X20_at_most_one_frame_per_index SimpleDecoder _
                          [0; 1] sample_seeker _ _ _))).
  vm_compute. reflexivity.
Defined.

Lemma X21_pending_lookup_in_range_witness :
  exists r s', from_pending (-1) pair_seeker_after_0 = Some (r, s').
Proof.
  destruct (X21_pending_lookup_in_range (D:=PairDecoder) (-1) pair_seeker_after_0)
    as (r & s' & E & _).
  - lia.
  - vm_compute. reflexivity.
  - exists r, s'. exact E.
Defined.

Lemma X22_batch_indices_witness :
  batch_indices (-1) 4 3 false = seqZ 0 3.
Proof.
  refine (proj1 (X22_batch_indices (-1) 4 3 false _) _).
  - lia.
  - vm_compute. reflexivity.
Defined.

Lemma X23_batch_at_most_batchsize_witness :
  exists frames s',
    GetFramesByBatch 2 3 sample_seeker = Some (frames, s') /\
    Z.of_nat (length frames) <= 2.
Proof.
  eexists _, _. split; [vm_compute; reflexivity|].
  refine (proj1 (@X23_batch_at_most_batchsize SimpleDecoder _
                   2 3 sample_seeker _ _ _ _)).
  - lia.
  - vm_compute. reflexivity.
Defined.

End SeekerExtra.

(* ===================================================================== *)
(** * Further properties of the consumer's side of the threaded decoder *)

Module ConsumerExtra.
Import CInt SPSC Collab FramePool Consumer.

Section Facts.
Context {SEI : Type} (SEI_empty : SEI).
Implicit Types t : ThreadedDecoder SEI.


Lemma PopEntries_Returned_contents batchSize (s s' : SPSCBuffer DecodedFrame) entries :
  Inv s -> PopEntries DecodedFrame_zero batchSize s = Returned s' entries ->
  contents DecodedFrame_zero s = entries ++ contents DecodedFrame_zero s' /\ Inv s' /\
  Z.of_nat (length entries) <= mCount s /\
  mDrain s' = mDrain s /\ mCapacity s' = mCapacity s.
Proof.
  intros HI. unfold PopEntries.
  destruct (Z.ltb_spec (mCapacity s) batchSize); [discriminate|].
  set (b1 := if batchSize =? 0 then mCount s else batchSize).
  destruct ((b1 <=? mCount s) || mDrain s) eqn:Ego; [|discriminate].
  set (b2 := if mDrain s && (mCount s <? b1) then mCount s else b1).
  pose proof (inv_count s HI) as Hcnt.
  assert (Hb2 : Z.of_nat (Z.to_nat b2) <= mCount s).
  { subst b2. destruct (mDrain s) eqn:Ed; simpl in *.
    - destruct (Z.ltb_spec (mCount s) b1); lia.
    - rewrite orb_false_r in Ego. apply Z.leb_le in Ego. lia. }
  destruct (SPSCFacts.pop_loop_spec DecodedFrame_zero (Z.to_nat b2) s [] HI Hb2)
    as (s1 & Hrun & HI' & Hc' & Ht' & Hh' & Hd' & Hb' & Hcap' & Hcont).
  rewrite Hrun. intros E. inversion E; subst s1 entries. clear E.
  simpl. rewrite Hcont, take_drop. split_and!; try done.
  rewrite length_take, SPSCFacts.length_contents. lia.
Qed.

(** Unlocking the batch the caller holds when the locked frames start with
    that batch. *)
Lemma unlock_held (d : NvFrames SEI) (held rest : list Z) size :
  Aligned d -> Z.of_nat (length held) = size -> size < 2 ^ 32 ->
  m_LockedFrames d = held ++ rest ->
  let d' := UnlockLockedFrames SEI_empty size d in
  m_vpFrame d' = m_vpFrame d ++ held /\
  m_LockedFrames d' = rest /\
  Aligned d'.
Proof.
  intros HA Hlen Hsize HL.
  rewrite (FramePoolFacts.UnlockLockedFrames_take SEI_empty size d HA) by lia.
  cbv zeta. rewrite HL, length_app.
  replace (Z.to_nat _) with (length held) by lia.
  simpl. rewrite take_app_length, drop_app_length. split_and!; try done.
  destruct HA as [He Ht Hl]. rewrite HL, length_app in Hl.
  constructor; simpl;
    rewrite ?length_app, ?length_take, ?length_drop, ?length_replicate; lia.
Qed.

Lemma GetBatchFrames_spec (held : list DecodedFrame) (producer : list Z)
    batchSize t t' frames :
  Inv (mDecodedFrames t) -> Aligned (mDecoder t) ->
  Linked held producer t ->
  Z.of_nat (length held) = mPrevBatchSize t -> mPrevBatchSize t < 2 ^ 32 ->
  GetBatchFrames SEI_empty batchSize t = Returned t' frames ->
  m_vpFrame (mDecoder t') = m_vpFrame (mDecoder t) ++ (extBuf_data <$> held) /\
  contents DecodedFrame_zero (mDecodedFrames t) = frames ++ contents DecodedFrame_zero (mDecodedFrames t') /\
  Linked frames producer t' /\
  Z.of_nat (length frames) = mPrevBatchSize t' /\
  mPrevBatchSize t' < 2 ^ 32 /\
  Inv (mDecodedFrames t') /\ Aligned (mDecoder t') /\
  mDrain (mDecodedFrames t') = mDrain (mDecodedFrames t).
Proof.
  intros HI HA HL Hheld Hsize. unfold GetBatchFrames.
  destruct (PopEntries DecodedFrame_zero batchSize (mDecodedFrames t))
    as [b entries| |] eqn:EP; try discriminate.
  intros [= <- <-]. simpl.
  destruct (PopEntries_Returned_contents _ _ _ _ HI EP)
    as (Hc & HIb & Hn & Hd & Hcap).
  unfold Linked in HL. rewrite fmap_app, <- (assoc_L (++)) in HL.
  destruct (unlock_held (mDecoder t) (extBuf_data <$> held)
              ((extBuf_data <$> contents DecodedFrame_zero (mDecodedFrames t)) ++ producer)
              (mPrevBatchSize t) HA)
    as (Hv & Hlk & HA'); [by rewrite length_fmap | done | done |].
  pose proof (inv_count _ HI). pose proof (inv_cap32 _ HI).
  assert (Hu : to_uint32 (Z.of_nat (length entries)) = Z.of_nat (length entries))
    by (unfold to_uint32; apply Z.mod_small; lia).
  rewrite Hu. split_and!; try done; try lia.
  unfold Linked. cbn [mDecoder mDecodedFrames]. rewrite Hlk, Hc, !fmap_app. done.
Qed.

(** X24. GetBatchFrames unlocks exactly the frames it handed out the time
    before, neither a frame that still waits in the channel nor one the
    decoder thread holds: those frames go back to the pool in order, the
    frames returned are the oldest of the channel, and they are now the
    oldest locked frames, ahead of what is left in the channel. *)
Theorem X24_batch_unlocks_previous_batch (held : list DecodedFrame)
    (producer : list Z) batchSize t t' frames :
  Inv (mDecodedFrames t) -> Aligned (mDecoder t) ->
  Linked held producer t ->
  Z.of_nat (length held) = mPrevBatchSize t -> mPrevBatchSize t < 2 ^ 32 ->
  GetBatchFrames SEI_empty batchSize t = Returned t' frames ->
  m_vpFrame (mDecoder t') = m_vpFrame (mDecoder t) ++ (extBuf_data <$> held) /\
  contents DecodedFrame_zero (mDecodedFrames t) = frames ++ contents DecodedFrame_zero (mDecodedFrames t') /\
  Linked frames producer t' /\
  Z.of_nat (length frames) = mPrevBatchSize t' /\
  Inv (mDecodedFrames t') /\ Aligned (mDecoder t').
Proof.
  intros HI HA HL Hheld Hsize E.
  destruct (GetBatchFrames_spec _ _ _ _ _ _ HI HA HL Hheld Hsize E)
    as (H1 & H2 & H3 & H4 & _ & H5 & H6 & _).
  done.
Qed.

(** X25. A batch size above the capacity makes GetBatchFrames throw after
    the previous batch has been unlocked, and [mPrevBatchSize] keeps its
    value.  The next call that returns therefore unlocks that many frames
    again: with enough frames waiting in the channel, frames that were
    never handed out go back to the pool while they are still in the
    channel. *)
Theorem X25_throw_keeps_stale_batch_size (held : list DecodedFrame)
    (producer : list Z) batchSize t :
  Inv (mDecodedFrames t) -> Aligned (mDecoder t) ->
  Linked held producer t ->
  Z.of_nat (length held) = mPrevBatchSize t -> mPrevBatchSize t < 2 ^ 32 ->
  mCapacity (mDecodedFrames t) < batchSize ->
  exists t' what,
    GetBatchFrames SEI_empty batchSize t = Thrown t' what /\
    mPrevBatchSize t' = mPrevBatchSize t /\
    mDecodedFrames t' = mDecodedFrames t /\
    Linked [] producer t' /\
    forall batchSize' t'' frames,
      GetBatchFrames SEI_empty batchSize' t' = Returned t'' frames ->
      (length held <= length (contents DecodedFrame_zero (mDecodedFrames t)))%nat ->
      m_vpFrame (mDecoder t'')
      = m_vpFrame (mDecoder t')
        ++ (extBuf_data <$> take (length held) (contents DecodedFrame_zero (mDecodedFrames t))).
Proof.
  intros HI HA HL Hheld Hsize Hbig. unfold GetBatchFrames at 1.
  unfold PopEntries. destruct (Z.ltb_spec (mCapacity (mDecodedFrames t)) batchSize);
    [|lia].
  eexists _, _. split; [reflexivity|]. simpl.
  unfold Linked in HL. rewrite fmap_app, <- (assoc_L (++)) in HL.
  destruct (unlock_held (mDecoder t) (extBuf_data <$> held)
              ((extBuf_data <$> contents DecodedFrame_zero (mDecodedFrames t)) ++ producer)
              (mPrevBatchSize t) HA)
    as (Hv & Hlk & HA'); [by rewrite length_fmap | done | done |].
  split_and!; try done.
  intros batchSize' t'' frames E Hlen.
  unfold GetBatchFrames in E. cbn [mDecoder mDecodedFrames mPrevBatchSize] in E.
  destruct (PopEntries DecodedFrame_zero batchSize' (mDecodedFrames t));
    try discriminate.
  injection E as <- _. cbn [mDecoder].
  set (d1 := UnlockLockedFrames SEI_empty (mPrevBatchSize t) (mDecoder t)) in *.
  set (c := contents DecodedFrame_zero (mDecodedFrames t)) in *.
  destruct (unlock_held d1 (extBuf_data <$> take (length held) c)
              ((extBuf_data <$> drop (length held) c) ++ producer)
              (mPrevBatchSize t) HA')
    as (Hv2 & _).
  - rewrite length_fmap, length_take. lia.
  - done.
  - rewrite Hlk, (assoc_L (++)), <- fmap_app, take_drop. done.
  - exact Hv2.
Qed.

(** X26. Once the decoder thread has been joined, holding no frame of its
    own, End leaves no frame locked: the batch the caller held and every
    frame still in the channel are back in the pool, in the order they
    were locked, and the channel is empty, not draining, with
    [mPrevBatchSize] 0. *)
Theorem X26_End_unlocks_every_frame (held : list DecodedFrame) t :
  Inv (mDecodedFrames t) -> Aligned (mDecoder t) ->
  Linked held [] t ->
  Z.of_nat (length held) = mPrevBatchSize t -> mPrevBatchSize t < 2 ^ 32 ->
  exists t',
    End_after_join SEI_empty t = Some t' /\
    m_LockedFrames (mDecoder t') = [] /\
    m_vpFrame (mDecoder t')
      = m_vpFrame (mDecoder t) ++ m_LockedFrames (mDecoder t) /\
    Aligned (mDecoder t') /\
    contents DecodedFrame_zero (mDecodedFrames t') = [] /\
    mDrain (mDecodedFrames t') = false /\
    mPrevBatchSize t' = 0.
Proof.
  intros HI HA HL Hheld Hsize. unfold End_after_join.
  pose proof (inv_count _ HI) as Hcnt.
  destruct (SPSCFacts.PopEntries_returns DecodedFrame_zero 0 (mDecodedFrames t)
              (mCount (mDecodedFrames t)) HI ltac:(lia) ltac:(lia))
    as (b & EP & _).
  { simpl. rewrite Z.leb_refl, Z.ltb_irrefl, andb_false_r. auto. }
  destruct (GetBatchFrames SEI_empty 0 t) as [t1 frames| |] eqn:E.
  2,3: unfold GetBatchFrames in E; rewrite EP in E; discriminate.
  destruct (GetBatchFrames_spec _ _ _ _ _ _ HI HA HL Hheld Hsize E)
    as (Hv & Hc & HL1 & Hlen1 & Hsize1 & HI1 & HA1 & _).
  assert (Hall : frames = contents DecodedFrame_zero (mDecodedFrames t)).
  { unfold GetBatchFrames in E. rewrite EP in E. injection E as _ <-.
    rewrite take_ge; [done|]. rewrite SPSCFacts.length_contents. lia. }
  assert (Hempty : contents DecodedFrame_zero (mDecodedFrames t1) = []).
  { rewrite Hall in Hc. symmetry in Hc.
    rewrite <- (app_nil_r (contents _ (mDecodedFrames t))) in Hc at 2.
    by apply app_inv_head in Hc. }
  unfold Linked in HL1. rewrite Hempty, !app_nil_r in HL1.
  destruct (unlock_held (mDecoder t1) (extBuf_data <$> frames) []
              (mPrevBatchSize t1) HA1)
    as (Hv2 & Hlk2 & HA2);
    [by rewrite length_fmap | done | by rewrite app_nil_r |].
  eexists. split; [reflexivity|]. cbn [mDecoder mDecodedFrames mPrevBatchSize].
  split_and!; try done.
  rewrite Hv2, Hv, HL, Hall, fmap_app, app_nil_r, <- (assoc_L (++)). done.
Qed.


End Facts.

Import SamplePool.

Lemma sample_consumer_Inv : Inv (mDecodedFrames sample_consumer).
Proof. apply SPSCFacts.run_Inv, SPSCFacts.Inv_new. lia. Qed.

Lemma X24_batch_unlocks_previous_batch_witness :
  exists t' frames,
    GetBatchFrames tt 1 sample_consumer = Returned t' frames /\
    m_vpFrame (mDecoder t') = [100; 400].
Proof.
  eexists _, _. split; [vm_compute; reflexivity|].
  refine (proj1 (X24_batch_unlocks_previous_batch tt [sample_frame 400] [] 1
                   sample_consumer _ _ sample_consumer_Inv _ _ _ _ _)).
  - constructor; reflexivity.
  - vm_compute. reflexivity.
  - reflexivity.
  - simpl. lia.
  - vm_compute. reflexivity.
Defined.

Lemma X25_throw_keeps_stale_batch_size_witness :
  exists t' what,
    GetBatchFrames tt 3 sample_consumer = Thrown t' what /\
    mPrevBatchSize t' = 1.
Proof.
  destruct (X25_throw_keeps_stale_batch_size tt [sample_frame 400] [] 3
              sample_consumer sample_consumer_Inv)
    as (t' & what & E & Hp & _).
  - constructor; reflexivity.
  - vm_compute. reflexivity.
  - reflexivity.
  - simpl. lia.
  - vm_compute. reflexivity.
  - exists t', what. split; [exact E | exact Hp].
Defined.

Lemma X26_End_unlocks_every_frame_witness :
  exists t',
    End_after_join tt sample_consumer = Some t' /\
    m_LockedFrames (mDecoder t') = [].
Proof.
  destruct (X26_End_unlocks_every_frame tt [sample_frame 400] sample_consumer
              sample_consumer_Inv)
    as (t' & E & Hl & _).
  - constructor; reflexivity.
  - vm_compute. reflexivity.
  - reflexivity.
  - simpl. lia.
  - exists t'. split; [exact E | exact Hl].
Defined.

End ConsumerExtra.
